(** * rndout: the rate-shaping and timed-emission engine of [main.go]

    A shallow embedding of the Go program and the properties of its
    shapers, skip sampler, buffer pool and emission loop.

    Conventions of the embedding:
    - Go's [int] (64 bits) is a [Z] kept in range by [Int.wrap];
    - Go's [float64] is IEEE 754 binary64, as the Standard Library's
      [spec_float] with precision 53 and maximal exponent 1024 (one NaN,
      signed zeros and infinities, round to nearest even);
    - [math.Exp] and the result of an [int(x)] that does not fit belong
      to Go's library and platform: they are the fields of [Runtime],
      and every theorem holds for all of them;
    - [*rand.Rand] and [io.Writer] are deterministic oracles: a record
      holding the script of answers and what has been consumed so far;
    - loops that Go may run for ever take a [fuel] argument;
    - the [select] of the emission loop is a relation: any communication
      that is ready may be the one that runs. *)

From Stdlib Require Import Strings.String Strings.Ascii Strings.Byte.
From Stdlib Require Import ZArith List Bool Lia.
From Stdlib Require Import Floats.SpecFloat.
Import ListNotations.

Local Open Scope Z_scope.

(* ------------------------------------------------------------------ *)
(** * Go's [int] *)

Module Int.

Definition min_int : Z := - 2 ^ 63.
Definition max_int : Z := 2 ^ 63 - 1.

(** Two's complement wrap-around of a mathematical integer. *)
Definition wrap (z : Z) : Z := (z + 2 ^ 63) mod 2 ^ 64 - 2 ^ 63.

Definition add (a b : Z) : Z := wrap (a + b).
Definition sub (a b : Z) : Z := wrap (a - b).
Definition mul (a b : Z) : Z := wrap (a * b).

(** [a % b]: the remainder of the truncated division; [None] when Go
    panics with "integer divide by zero". *)
Definition rem (a b : Z) : option Z :=
  if b =? 0 then None else Some (Z.rem a b).

Definition in_range (z : Z) : Prop := min_int <= z <= max_int.

End Int.

(* ------------------------------------------------------------------ *)
(** * Go's [float64] *)

Module F64.

Definition prec : Z := 53.
Definition emax : Z := 1024.

Definition t : Type := spec_float.

Definition add : t -> t -> t := SFadd prec emax.
Definition mul : t -> t -> t := SFmul prec emax.
Definition div : t -> t -> t := SFdiv prec emax.
Definition neg : t -> t := SFopp.

(** [x <= y], [x < y], [x >= y] and [x == y]; all false on NaN. *)
Definition leb : t -> t -> bool := SFleb.
Definition ltb : t -> t -> bool := SFltb.
Definition geb (x y : t) : bool := SFleb y x.
Definition eqb : t -> t -> bool := SFeqb.

(** The conversion [float64(n)] of an integer: round to nearest even. *)
Definition of_int (z : Z) : t := binary_normalize prec emax z 0 false.

Definition zero : t := S754_zero false.
Definition one : t := Eval cbv in of_int 1.
Definition two : t := Eval cbv in of_int 2.
Definition inf : t := S754_infinity false.
Definition nan : t := S754_nan.

(** The integer part of a finite value, rounded toward zero. *)
Definition trunc (x : t) : option Z :=
  match x with
  | S754_zero _ => Some 0
  | S754_finite s m e =>
      let a := if 0 <=? e then Z.pos m * 2 ^ e else Z.pos m / 2 ^ (- e) in
      Some (if s then - a else a)
  | _ => None
  end.

(** The conversion [int(x)].  The Go specification leaves the result
    open when the value does not fit ("the behavior is
    implementation-dependent"); [oor] is what the platform yields
    then. *)
Definition to_int (oor : t -> Z) (x : t) : Z :=
  match trunc x with
  | Some z => if (Int.min_int <=? z) && (z <=? Int.max_int) then z
              else Int.wrap (oor x)
  | None => Int.wrap (oor x)
  end.

End F64.

Definition float64 : Type := F64.t.

(** What the program takes from Go's library and platform: [math.Exp],
    and the result of [int(x)] when [x] does not fit. *)
Class Runtime : Type := {
  Exp : float64 -> float64;
  int_oor : float64 -> Z
}.

(* ------------------------------------------------------------------ *)
(** * Results of code that may panic or loop *)

Inductive outcome (A : Type) : Type :=
| Done (a : A)
| Panic (msg : string)
| OutOfFuel.

Arguments Done {A} a.
Arguments Panic {A} msg.
Arguments OutOfFuel {A}.

Definition bind {A B : Type} (c : outcome A) (k : A -> outcome B) : outcome B :=
  match c with
  | Done a => k a
  | Panic msg => Panic msg
  | OutOfFuel => OutOfFuel
  end.

Declare Scope outcome_scope.
Delimit Scope outcome_scope with outcome.
Notation "x <- c ;; k" := (bind c (fun x => k))
  (at level 61, c at next level, right associativity) : outcome_scope.
Notation "' p <- c ;; k" := (bind c (fun x => let p := x in k))
  (at level 61, p pattern, c at next level, right associativity) : outcome_scope.

(* ------------------------------------------------------------------ *)
(** * [*rand.Rand]

    The generator is a black box to the program.  Its model is the
    script of what the successive calls return: call number [i] returns
    [ints i] reduced to the requested range, or [units i]. *)

Record Rand : Type := {
  ints : nat -> Z;
  units : nat -> float64;
  cursor : nat
}.

Definition advance (r : Rand) : Rand :=
  {| ints := ints r; units := units r; cursor := S (cursor r) |}.

(** [r.Intn(n)]: panics when [n <= 0]. *)
Definition Intn (r : Rand) (n : Z) : outcome (Z * Rand) :=
  if n <=? 0 then Panic "invalid argument to Intn"
  else Done (ints r (cursor r) mod n, advance r).

(** [r.Float64()]. *)
Definition Float64 (r : Rand) : float64 * Rand :=
  (units r (cursor r), advance r).

(* ------------------------------------------------------------------ *)
(** * [io.Writer]

    A sink answers each [Write] with a count and an error; the answer
    may depend on everything written before.  The record keeps the
    calls made so far, in order. *)

Definition error : Type := string.

Record WriteCall : Type := {
  chunk : list Byte.byte;
  count : Z;
  failure : option error
}.

Record Writer : Type := {
  respond : list WriteCall -> list Byte.byte -> Z * option error;
  calls : list WriteCall
}.

Definition Write (w : Writer) (p : list Byte.byte) : (Z * option error) * Writer :=
  let '(n, e) := respond w (calls w) p in
  ((n, e),
   {| respond := respond w;
      calls := calls w ++ [ {| chunk := p; count := n; failure := e |} ] |}).

(** All bytes handed to the sink so far. *)
Definition written (w : Writer) : list Byte.byte :=
  concat (map chunk (calls w)).

(** A sink every [Write] of which succeeds and reports the full length. *)
Definition reliable (w : Writer) : Prop :=
  forall h p, respond w h p = (Z.of_nat (length p), None).

(* ------------------------------------------------------------------ *)
(** * The buffer pool *)

Definition alphabet : string :=
  "abcdefghijklmnopqrstuvwxyzABCDEFGHIJKLMNOPQRSTUVWXYZ0123456789.- ".

Definition alphabet_bytes : list Byte.byte := list_byte_of_string alphabet.

Definition newline : Byte.byte := Byte.x0a.

Definition len {A : Type} (l : list A) : Z := Z.of_nat (length l).

(** [s[i]] for an index known to be in range. *)
Definition index (s : list Byte.byte) (i : Z) : Byte.byte :=
  nth (Z.to_nat i) s Byte.x00.

(** [RandomOutput.bufs].  The field [r] of the Go struct is a pointer to
    the generator of [main]: one generator is shared, so the embedding
    threads a single [Rand] through every function instead of storing a
    copy here. *)
Record RandomOutput : Type := {
  bufs : list (list Byte.byte)
}.

(** The inner loop [for j := range bufs[i]] over a buffer of [n] bytes. *)
Fixpoint fill (r : Rand) (n : nat) : outcome (list Byte.byte * Rand) :=
  match n with
  | O => Done ([], r)
  | S n' =>
      ' (v, r1) <- Intn r (len alphabet_bytes) ;;
      ' (rest, r2) <- fill r1 n' ;;
      Done (index alphabet_bytes v :: rest, r2)
  end%outcome.

(** [b[i] = x]; Go panics when [i] is out of range. *)
Definition store (b : list Byte.byte) (i : Z) (x : Byte.byte)
  : outcome (list Byte.byte) :=
  if (0 <=? i) && (i <? len b)
  then Done (firstn (Z.to_nat i) b ++ x :: skipn (S (Z.to_nat i)) b)
  else Panic "index out of range".

(** One turn of [for i := range bufs]. *)
Definition new_buffer (r : Rand) (blockSize : Z) : outcome (list Byte.byte * Rand) :=
  (if blockSize <? 0 then Panic "makeslice: len out of range"
   else
     ' (b, r1) <- fill r (Z.to_nat blockSize) ;;
     b' <- store b (blockSize - 1) newline ;;
     Done (b', r1))%outcome.

Fixpoint new_buffers (r : Rand) (n : nat) (blockSize : Z)
  : outcome (list (list Byte.byte) * Rand) :=
  match n with
  | O => Done ([], r)
  | S n' =>
      ' (b, r1) <- new_buffer r blockSize ;;
      ' (bs, r2) <- new_buffers r1 n' blockSize ;;
      Done (b :: bs, r2)
  end%outcome.

Definition NewRandomOutput (r : Rand) (n blockSize : Z)
  : outcome (RandomOutput * Rand) :=
  (if n <? 0 then Panic "makeslice: len out of range"
   else
     ' (bs, r') <- new_buffers r (Z.to_nat n) blockSize ;;
     Done ({| bufs := bs |}, r'))%outcome.

Definition pickBuffer (ro : RandomOutput) (r : Rand)
  : outcome (list Byte.byte * Rand) :=
  (' (i, r') <- Intn r (len (bufs ro)) ;;
   Done (nth (Z.to_nat i) (bufs ro) [], r'))%outcome.

(** [buf[len(buf)-n:]]: the last [n] bytes. *)
Definition tail_from (buf : list Byte.byte) (n : Z) : list Byte.byte :=
  skipn (Z.to_nat (len buf - n)) buf.

(** [RandomOutput.WriteN].  One unit of fuel pays for one test of
    [n > 0]. *)
Fixpoint WriteN (fuel : nat) (ro : RandomOutput) (r : Rand) (w : Writer) (n : Z)
  : outcome (option error * Rand * Writer) :=
  match fuel with
  | O => OutOfFuel
  | S fuel' =>
      if 0 <? n then
        (' (buf, r1) <- pickBuffer ro r ;;
         let '((nr, err), w1) :=
           if n <? len buf then Write w (tail_from buf n) else Write w buf in
         match err with
         | Some e => Done (Some e, r1, w1)
         | None => WriteN fuel' ro r1 w1 (Int.sub n nr)
         end)%outcome
      else Done (None, r, w)
  end.

(* ------------------------------------------------------------------ *)
(** * Rate shapers *)

Class RateShaper (S : Type) : Type := {
  Fraction : S -> Z -> float64
}.

Record LogisticShaper : Type := { Mu : Z; Scale : Z }.

Record RampShaper : Type := { PeakStep : Z }.

Section Shapers.

Context {rt : Runtime}.

Definition LogisticShaper_Fraction (s : LogisticShaper) (step : Z) : float64 :=
  let a := Exp (F64.div (F64.neg (F64.of_int (Int.sub step (Mu s))))
                        (F64.of_int (Scale s))) in
  let b := F64.mul (F64.mul (F64.of_int (Scale s)) (F64.add F64.one a))
                   (F64.add F64.one a) in
  F64.mul (F64.of_int (Int.mul 4 (Scale s))) (F64.div a b).

Definition RampShaper_Fraction (s : RampShaper) (step : Z) : float64 :=
  if step <? PeakStep s
  then F64.div (F64.of_int step) (F64.of_int (PeakStep s))
  else F64.one.

#[export] Instance Logistic_RateShaper : RateShaper LogisticShaper :=
  {| Fraction := LogisticShaper_Fraction |}.

#[export] Instance Ramp_RateShaper : RateShaper RampShaper :=
  {| Fraction := RampShaper_Fraction |}.

(* ---------------------------------------------------------------- *)
(** * The skip sampler *)

(** The [for] loop of [sampleSkips]: [l] is the threshold, [k] the
    counter and [p] the running product on entry. *)
Fixpoint sampleSkips_loop (fuel : nat) (r : Rand) (l : float64) (k : Z) (p : float64)
  : outcome (Z * Rand) :=
  match fuel with
  | O => OutOfFuel
  | S fuel' =>
      let '(u, r1) := Float64 r in
      let p1 := F64.mul p u in
      if F64.leb p1 l then Done (k, r1)
      else sampleSkips_loop fuel' r1 l (Int.add k 1) p1
  end.

(** [skips <= 0 || r.Float64() >= skipProb]: the generator is only
    consulted when [skips] is positive. *)
Definition sampleSkips (fuel : nat) (r : Rand) (skips : Z) (skipProb : float64)
  : outcome (Z * Rand) :=
  if skips <=? 0 then Done (0, r)
  else
    let '(u, r1) := Float64 r in
    if F64.geb u skipProb then Done (0, r1)
    else
      let l := Exp (F64.neg (F64.of_int skips)) in
      sampleSkips_loop fuel r1 l 0 F64.one.

(* ---------------------------------------------------------------- *)
(** * The emission loop of [main] *)

(** The flags and locals the loop reads. *)
Record Env (S : Type) : Type := {
  opts_skips : Z;
  opts_skipProb : float64;
  opts_sliceLen : Z;
  charsPerStep : float64;
  shaper : S;
  out : RandomOutput
}.

Arguments opts_skips {S} _.
Arguments opts_skipProb {S} _.
Arguments opts_sliceLen {S} _.
Arguments charsPerStep {S} _.
Arguments shaper {S} _.
Arguments out {S} _.

(** The variables the loop changes: [step], [skips], the generator and
    the standard output. *)
Record State : Type := {
  step : Z;
  skips : Z;
  rng : Rand;
  stdout : Writer
}.

(** The two communications of the [select] statement. *)
Inductive select_case : Type := recv_steps | recv_end.

(** How one turn of the loop ends: on to the next turn, or [return]. *)
Inductive control : Type :=
| Continue (st : State)
| Return (st : State).

Section Loop.

Context {S : Type} `{RateShaper S}.
Variable env : Env S.

(** Lines 102-105: the slice index, and the new draw at a slice
    boundary. *)
Definition redraw (fuel : nat) (st : State) : outcome (Z * State) :=
  match Int.rem (step st) (opts_sliceLen env) with
  | None => Panic "integer divide by zero"
  | Some sliceIdx =>
      if sliceIdx =? 0 then
        (' (k, r') <- sampleSkips fuel (rng st) (opts_skips env) (opts_skipProb env) ;;
         Done (sliceIdx,
               {| step := step st; skips := k; rng := r'; stdout := stdout st |}))%outcome
      else Done (sliceIdx, st)
  end.

(** The character count of a step, [int(charsPerStep * shaper.Fraction(step))]. *)
Definition chars (st : State) : Z :=
  F64.to_int int_oor (F64.mul (charsPerStep env) (Fraction (shaper env) (step st))).

(** The test guarding the emission. *)
Definition active (sliceIdx : Z) (st : State) : bool :=
  sliceIdx <? Int.sub (opts_sliceLen env) (skips st).

(** Lines 109-112: the body of [case <-steps].  The error that
    [WriteN] returns is dropped. *)
Definition on_step (fuel : nat) (sliceIdx : Z) (st : State) : outcome State :=
  if active sliceIdx st then
    (' (_, r', w') <- WriteN fuel (out env) (rng st) (stdout st) (chars st) ;;
     Done {| step := step st; skips := skips st; rng := r'; stdout := w' |})%outcome
  else Done st.

(** One turn of [for step := 0; true; step++], given the
    communication that [select] chose. *)
Definition iteration (fuel : nat) (c : select_case) (st : State) : outcome control :=
  (' (sliceIdx, st1) <- redraw fuel st ;;
   match c with
   | recv_steps =>
       st2 <- on_step fuel sliceIdx st1 ;;
       Done (Continue {| step := Int.add (step st2) 1; skips := skips st2;
                         rng := rng st2; stdout := stdout st2 |})
   | recv_end => Done (Return st1)
   end)%outcome.

(** The loop of [main], [for step := 0; true; step++], along a sequence
    of choices of [select]. *)
Fixpoint main_loop (fuel : nat) (cs : list select_case) (st : State) : outcome control :=
  match cs with
  | [] => Done (Continue st)
  | c :: cs' =>
      (x <- iteration fuel c st ;;
       match x with
       | Continue st' => main_loop fuel cs' st'
       | Return st' => Done (Return st')
       end)%outcome
  end.

End Loop.

(** Which communications of the [select] can proceed when the loop
    reaches it.  The statement blocks until one can; when both can, Go
    picks one of them by a uniform pseudo-random choice. *)
Record Ready : Type := {
  steps_ready : bool;
  end_ready : bool
}.

Definition can_proceed (rd : Ready) (c : select_case) : bool :=
  match c with
  | recv_steps => steps_ready rd
  | recv_end => end_ready rd
  end.

(** One turn of the loop when the communications [rd] can proceed: any
    of the ready cases may be the one that runs. *)
Inductive turn {S : Type} `{RateShaper S} (env : Env S) (fuel : nat)
          (rd : Ready) (st : State) : control -> Prop :=
| turn_case (c : select_case) (x : control) :
    can_proceed rd c = true ->
    iteration env fuel c st = Done x ->
    turn env fuel rd st x.

End Shapers.

Arguments opts_skips {S} _.
Arguments opts_skipProb {S} _.
Arguments opts_sliceLen {S} _.
Arguments charsPerStep {S} _.
Arguments shaper {S} _.
Arguments out {S} _.

(* ------------------------------------------------------------------ *)
(** * Vocabulary of the statements *)

(** The generator after [n] more calls. *)
Definition skip (r : Rand) (n : nat) : Rand :=
  {| ints := ints r; units := units r; cursor := n + cursor r |}.

(** The byte that call number [i] of the generator selects from the
    alphabet. *)
Definition drawn (r : Rand) (i : nat) : Byte.byte :=
  index alphabet_bytes (ints r i mod len alphabet_bytes).

(** A pool [WriteN] can draw from: some buffer, and none empty. *)
Definition pool_ok (ro : RandomOutput) : Prop :=
  bufs ro <> [] /\ Forall (fun b => b <> []) (bufs ro).

Definition no_failure (c : WriteCall) : Prop := failure c = None.

(** The bytes of a [Write] are the end of some buffer of the pool. *)
Definition from_pool (ro : RandomOutput) (c : WriteCall) : Prop :=
  exists b pre, In b (bufs ro) /\ b = pre ++ chunk c.

(** The running product of the Poisson sampler: [p] multiplied by the
    next [i] draws of [r]. *)
Fixpoint product (r : Rand) (p : float64) (i : nat) : float64 :=
  match i with
  | O => p
  | S i' => product (advance r) (F64.mul p (units r (cursor r))) i'
  end.

(** [step++] on a state. *)
Definition next_step (st : State) : State :=
  {| step := Int.add (step st) 1; skips := skips st;
     rng := rng st; stdout := stdout st |}.

(** The running product [p], multiplied by the draws of [r], is at or
    below [l] after the [n]-th multiplication and not before. *)
Definition first_fall (r : Rand) (p l : float64) (n : nat) : Prop :=
  (forall i, (1 <= i < n)%nat -> F64.leb (product r p i) l = false) /\
  F64.leb (product r p n) l = true.

(** The integer nearest to [N / D], ties to even. *)
Definition rne (N D : Z) : Z :=
  let q := N / D in
  match 2 * (N mod D) ?= D with
  | Lt => q
  | Eq => if Z.even q then q else q + 1
  | Gt => q + 1
  end.

(** Where [N / D] lies between [N / D] rounded down and the next integer. *)
Definition loc_of (N D : Z) : location :=
  if N mod D =? 0 then loc_Exact else loc_Inexact (2 * (N mod D) ?= D).

(** A shift record holds [N / D] rounded down, with its location. *)
Definition holds (N D : Z) (mrs : shr_record) : Prop :=
  shr_m mrs = N / D /\ loc_of_shr_record mrs = loc_of N D.

(** Rounding [N / D >= 2^52] to 53 bits: the number of low bits that
    are dropped, and the mantissa that is left. *)
Definition nr_exp (N D : Z) : Z := Z.log2 (N / D) - 52.

Definition nr_man (N D : Z) : Z := rne N (D * 2 ^ nr_exp N D).

(** The float [M * 2^E] for a rounded mantissa [2^52 <= M <= 2^53]. *)
Definition pack (M E : Z) : float64 :=
  if M =? 2 ^ 53 then S754_finite false (Z.to_pos (2 ^ 52)) (E + 1)
  else S754_finite false (Z.to_pos M) E.

(** A positive normal number with a 53-bit mantissa. *)
Definition normal (x : float64) (m : positive) (e : Z) : Prop :=
  x = S754_finite false m e /\ 2 ^ 52 <= Z.pos m < 2 ^ 53.

(** What [LogisticShaper.Fraction] returns once [a] is known. *)
Definition bell (scale : Z) (a : float64) : float64 :=
  let b := F64.mul (F64.mul (F64.of_int scale) (F64.add F64.one a))
                   (F64.add F64.one a) in
  F64.mul (F64.of_int (Int.mul 4 scale)) (F64.div a b).


(* ------------------------------------------------------------------ *)
(** * Concrete instances, for evaluation *)

Module Sample.

(** A float from its IEEE 754 bit pattern. *)
Definition of_bits (z : Z) : float64 :=
  let s := Z.testbit z 63 in
  let e := Z.land (Z.shiftr z 52) 2047 in
  let f := Z.land z (2 ^ 52 - 1) in
  if e =? 0 then
    match f with Z.pos p => S754_finite s p (-1074) | _ => S754_zero s end
  else if e =? 2047 then
    (if f =? 0 then S754_infinity s else S754_nan)
  else
    match f + 2 ^ 52 with
    | Z.pos p => S754_finite s p (e - 1075)
    | _ => S754_nan
    end.

Definition Ln2Hi : float64 := Eval cbv in of_bits 0x3fe62e42fee00000.
Definition Ln2Lo : float64 := Eval cbv in of_bits 0x3dea39ef35793c76.
Definition Log2e : float64 := Eval cbv in of_bits 0x3ff71547652b82fe.
Definition Overflow : float64 := Eval cbv in of_bits 0x40862e42fefa39ef.
Definition Underflow : float64 := Eval cbv in of_bits 0xc0874910d52d3051.
Definition NearZero : float64 := Eval cbv in F64.div F64.one (F64.of_int (2 ^ 28)).
Definition half : float64 := Eval cbv in F64.div F64.one F64.two.

Definition fsub : float64 -> float64 -> float64 := SFsub F64.prec F64.emax.

(** [1 + r/1 (1 + r/2 (... (1 + r/n)))]: the exponential series. *)
Fixpoint series (r : float64) (n : nat) (i : Z) (acc : float64) : float64 :=
  match n with
  | O => acc
  | S n' =>
      series r n' (i - 1) (F64.add F64.one (F64.div (F64.mul r acc) (F64.of_int i)))
  end.

(** An executable exponential with the special cases that [math.Exp]
    documents (NaN, the infinities, overflow to [+Inf], underflow to
    [0], [1 + x] next to zero) and, in between, argument reduction by
    multiples of [ln 2] followed by the series.  It stands for
    [math.Exp] where an example has to be evaluated; the theorems are
    stated for every [Runtime] and do not depend on it. *)
Definition Exp_series (x : float64) : float64 :=
  match x with
  | S754_nan => x
  | S754_infinity false => x
  | S754_infinity true => F64.zero
  | _ =>
      if F64.ltb Overflow x then F64.inf
      else if F64.ltb x Underflow then F64.zero
      else if F64.ltb (F64.neg NearZero) x && F64.ltb x NearZero
      then F64.add F64.one x
      else
        let k := F64.to_int (fun _ => 0)
                   (if F64.ltb x F64.zero then fsub (F64.mul Log2e x) half
                    else F64.add (F64.mul Log2e x) half) in
        let r := fsub (fsub x (F64.mul (F64.of_int k) Ln2Hi))
                      (F64.mul (F64.of_int k) Ln2Lo) in
        SFldexp F64.prec F64.emax (series r 14 14 F64.one) k
  end.

(** On amd64 the conversion of a value that does not fit yields the
    smallest integer. *)
#[export] Instance runtime : Runtime :=
  {| Exp := Exp_series; int_oor := fun _ => Int.min_int |}.

Definition nine_tenths : float64 := Eval cbv in F64.div (F64.of_int 9) (F64.of_int 10).

Definition rand0 : Rand :=
  {| ints := fun i => 7 * Z.of_nat i + 3;
     units := fun _ => nine_tenths;
     cursor := 0 |}.

(** A sink that keeps everything, and one whose pipe is broken. *)
Definition capture : Writer :=
  {| respond := fun _ p => (len p, None); calls := [] |}.

Definition broken : Writer :=
  {| respond := fun _ _ => (0, Some "write /dev/stdout: broken pipe"%string);
     calls := [] |}.

Definition pool : RandomOutput :=
  match NewRandomOutput rand0 32 4 with
  | Done (ro, _) => ro
  | _ => {| bufs := [] |}
  end.

Definition rand1 : Rand := skip rand0 128.

(** Ramp mode with [-ramp-duration=0]: the full rate from the first
    step; six characters a step, no skips. *)
Definition env_ramp : Env RampShaper :=
  {| opts_skips := 0; opts_skipProb := F64.zero; opts_sliceLen := 4;
     charsPerStep := F64.of_int 6; shaper := {| PeakStep := 0 |};
     out := pool |}.

(** The same with [-skips=1 -skip-probability=1]. *)
Definition env_skips : Env RampShaper :=
  {| opts_skips := 1; opts_skipProb := F64.one; opts_sliceLen := 4;
     charsPerStep := F64.of_int 6; shaper := {| PeakStep := 0 |};
     out := pool |}.

(** Slices of 12 steps with [-skips=1 -skip-probability=1], 32
    characters a step and the peak of the ramp at step 5. *)
Definition env_rising : Env RampShaper :=
  {| opts_skips := 1; opts_skipProb := F64.one; opts_sliceLen := 12;
     charsPerStep := F64.of_int 32; shaper := {| PeakStep := 5 |};
     out := pool |}.

Definition start (w : Writer) : State :=
  {| step := 0; skips := 0; rng := rand1; stdout := w |}.

Definition both : Ready := {| steps_ready := true; end_ready := true |}.

End Sample.

(* ------------------------------------------------------------------ *)
(** * [parseRate] and the start of [main]

    The part of [main] before the loop: the rate is parsed, four checks
    may end the program through [die], the shaper and the pool are built
    and the loop variables get their first values. *)

(** What this part takes from the packages [strconv] and [time]:
    [strconv.ParseInt(s, 10, 64)] and [Duration.Seconds], a duration
    being its count of nanoseconds. *)
Class Packages : Type := {
  ParseInt : list Byte.byte -> Z * option error;
  Seconds : Z -> float64
}.

(** The [switch] on the last byte of the rate. *)
Definition suffix_scale (c : Byte.byte) : option Z :=
  match c with
  | "k"%byte | "K"%byte => Some 1000
  | "m"%byte | "M"%byte => Some 1000000
  | "g"%byte | "G"%byte => Some 1000000000
  | _ => None
  end.

(** [fmt.Errorf("invalid rate: %w", err)]. *)
Definition invalid_rate (e : error) : error := ("invalid rate: " ++ e)%string.

Section Startup.

Context {rt : Runtime} {pk : Packages}.

Definition parseRate (rate : list Byte.byte) : Z * option error :=
  match rate with
  | [] => (0, Some "invalid rate: rate must be non-empty"%string)
  | _ :: _ =>
      let '(rate', scale) :=
        match suffix_scale (last rate Byte.x00) with
        | Some sc => (removelast rate, sc)
        | None => (rate, 1)
        end in
      let '(base, err) := ParseInt rate' in
      match err with
      | Some e => (0, Some (invalid_rate e))
      | None => (Int.mul scale base, None)
      end
  end.

(** The flags, [var opts struct]; durations in nanoseconds. *)
Record Opts : Type := {
  o_peakRate : list Byte.byte;
  o_mode : list Byte.byte;
  o_skips : Z;
  o_skipProb : float64;
  o_duration : Z;
  o_stepSize : Z;
  o_sliceLen : Z;
  o_blockSize : Z;
  o_scale : Z;
  o_rampDuration : Z
}.

Definition LogisticMode : list Byte.byte := list_byte_of_string "logistic".
Definition RampMode : list Byte.byte := list_byte_of_string "ramp".

Definition same_string (a b : list Byte.byte) : bool :=
  if list_eq_dec Byte.byte_eq_dec a b then true else false.

(** A value of the interface type [RateShaper]: one of the two
    implementations. *)
Inductive AnyShaper : Type :=
| Logistic (s : LogisticShaper)
| Ramp (s : RampShaper).

#[export] Instance Any_RateShaper : RateShaper AnyShaper :=
  {| Fraction := fun sh step =>
       match sh with
       | Logistic s => Fraction s step
       | Ramp s => Fraction s step
       end |}.

(** [int(a / b)] on durations: the quotient rounded toward zero. *)
Definition duration_div (a b : Z) : outcome Z :=
  if b =? 0 then Panic "integer divide by zero"
  else Done (Int.wrap (Z.quot a b)).

(** How the part before the loop ends: [die] has printed a message and
    left with status 1, or the loop starts. *)
Inductive startup : Type :=
| Died (msg : error)
| Started (env : Env AnyShaper) (st : State).

(** The [switch opts.mode]: the shaper, or nothing in the default case. *)
Definition choose_shaper (o : Opts) (r : Rand) : outcome (option AnyShaper * Rand) :=
  (if same_string (o_mode o) LogisticMode then
     total <- duration_div (o_duration o) (o_stepSize o) ;;
     ' (peakStep, r1) <- Intn r total ;;
     Done (Some (Logistic {| Mu := peakStep; Scale := o_scale o |}), r1)
   else if same_string (o_mode o) RampMode then
     peakStep <- duration_div (o_rampDuration o) (o_stepSize o) ;;
     Done (Some (Ramp {| PeakStep := peakStep |}), r)
   else Done (None, r))%outcome.

(** Lines 63-100 of [main], with the generator [r] of line 63 and the
    standard output [w]. *)
Definition setup (o : Opts) (r : Rand) (w : Writer) : outcome startup :=
  let '(rate, err) := parseRate (o_peakRate o) in
  match err with
  | Some e => Done (Died e)
  | None =>
      if o_duration o <? o_stepSize o
      then Done (Died "invalid step size: must be less than duration"%string)
      else if o_sliceLen o <? o_skips o
      then Done (Died "invalid skips: must be less than slice length"%string)
      else if F64.ltb F64.one (o_skipProb o) || F64.ltb (o_skipProb o) F64.zero
      then Done (Died "invalid skip probability: must be in [0.0, 1.0]"%string)
      else
        (let cps := F64.mul (F64.of_int rate) (Seconds (o_stepSize o)) in
         ' (sh, r1) <- choose_shaper o r ;;
         match sh with
         | None => Done (Died "invalid mode: must be one of 'logistic' or 'ramp'"%string)
         | Some s =>
             ' (ro, r2) <- NewRandomOutput r1 32 (o_blockSize o) ;;
             Done (Started
                     {| opts_skips := o_skips o; opts_skipProb := o_skipProb o;
                        opts_sliceLen := o_sliceLen o; charsPerStep := cps;
                        shaper := s; out := ro |}
                     {| step := 0; skips := 0; rng := r2; stdout := w |})
         end)%outcome
  end.

(** The flags pass the four tests of lines 65-77. *)
Definition checked (o : Opts) : Prop :=
  snd (parseRate (o_peakRate o)) = None /\
  o_stepSize o <= o_duration o /\
  o_skips o <= o_sliceLen o /\
  F64.ltb F64.one (o_skipProb o) = false /\
  F64.ltb (o_skipProb o) F64.zero = false.

Definition known_mode (o : Opts) : Prop :=
  o_mode o = LogisticMode \/ o_mode o = RampMode.

End Startup.

(** What the sink has counted as written over a list of calls. *)
Definition counted (cs : list WriteCall) : Z :=
  fold_right (fun c acc => count c + acc) 0 cs.

(** A sink that counts no more than it is given, and at least one byte
    when it reports no error on a chunk that is not empty. *)
Definition honest (w : Writer) : Prop :=
  forall h p, 0 <= fst (respond w h p) <= len p /\
              (snd (respond w h p) = None -> p <> [] -> 0 < fst (respond w h p)).

(** One line of output: characters of the alphabet, then a newline. *)
Definition line (p : list Byte.byte) : Prop :=
  exists body, p = body ++ [newline] /\ Forall (fun b => In b alphabet_bytes) body.

(** What [RampShaper.Fraction] can return: zero, or a normal number at
    or below one. *)
Definition ramp_value (x : float64) : Prop :=
  x = F64.zero \/
  exists m e, x = S754_finite false m e /\ 2 ^ 52 <= Z.pos m < 2 ^ 53 /\
              -117 <= e /\ (e < -52 \/ (e = -52 /\ Z.pos m = 2 ^ 52)).

(** Zero, or a normal number of magnitude from [2^-848] up to, and
    below, [2^63]; of either sign. *)
Definition moderate (x : float64) : Prop :=
  match x with
  | S754_zero _ => True
  | S754_finite _ m e => 2 ^ 52 <= Z.pos m < 2 ^ 53 /\ -900 <= e <= 10
  | _ => False
  end.

(** The state of a turn's end, whichever way it ends. *)
Definition state_of (x : control) : State :=
  match x with
  | Continue st => st
  | Return st => st
  end.

Module Demo.

(** The value of a string of decimal digits. *)
Fixpoint decimal (s : list Byte.byte) (acc : Z) : option Z :=
  match s with
  | [] => Some acc
  | c :: s' =>
      let d := Z.of_N (Byte.to_N c) - 48 in
      if (0 <=? d) && (d <=? 9) then decimal s' (10 * acc + d) else None
  end.

(** The message of the [*strconv.NumError] of [ParseInt], for an input
    that [strconv.Quote] only has to put in quotes. *)
Definition num_error (s : list Byte.byte) (what : string) : error :=
  let q := String (ascii_of_nat 34) EmptyString in
  ("strconv.ParseInt: parsing " ++ q ++ string_of_list_byte s ++ q ++ ": " ++ what)%string.

(** A reading of [strconv.ParseInt(s, 10, 64)]: an optional sign and at
    least one digit; a value that does not fit is a range error beside
    the nearest bound. *)
Definition ParseInt10 (s : list Byte.byte) : Z * option error :=
  let '(neg, digits) :=
    match s with
    | "-"%byte :: t => (true, t)
    | "+"%byte :: t => (false, t)
    | _ => (false, s)
    end in
  match digits with
  | [] => (0, Some (num_error s "invalid syntax"))
  | _ :: _ =>
      match decimal digits 0 with
      | None => (0, Some (num_error s "invalid syntax"))
      | Some v =>
          let z := if neg then - v else v in
          if z <? Int.min_int then (Int.min_int, Some (num_error s "value out of range"))
          else if Int.max_int <? z then (Int.max_int, Some (num_error s "value out of range"))
          else (z, None)
      end
  end.

(** [Duration.Seconds]: whole seconds plus the rest over [1e9]. *)
Definition Seconds_ns (d : Z) : float64 :=
  F64.add (F64.of_int (Z.quot d 1000000000))
          (F64.div (F64.of_int (Z.rem d 1000000000)) (F64.of_int 1000000000)).

#[export] Instance packages : Packages :=
  {| ParseInt := ParseInt10; Seconds := Seconds_ns |}.

Definition bytes (s : string) : list Byte.byte := list_byte_of_string s.

(** A sink that takes nothing and says nothing. *)
Definition stalled : Writer :=
  {| respond := fun _ _ => (0, None); calls := [] |}.

(** A sink that takes one byte of each chunk, and fails on a fourth call. *)
Definition slow : Writer :=
  {| respond := fun h p =>
       (Z.min 1 (len p),
        if (length h <? 3)%nat then None else Some "short write"%string);
     calls := [] |}.

(** The defaults of the flags with blocks of 8 bytes, in ramp mode. *)
Definition ramp_opts : Opts :=
  {| o_peakRate := bytes "128"; o_mode := bytes "ramp"; o_skips := 2;
     o_skipProb := F64.zero; o_duration := 60 * 1000000000;
     o_stepSize := 250 * 1000000; o_sliceLen := 16; o_blockSize := 8;
     o_scale := 25; o_rampDuration := 10 * 1000000000 |}.

(** The same with [-slice-length=0 -skips=0], and with
    [-slice-length=-4 -skips=-4]. *)
Definition no_slice_opts : Opts :=
  {| o_peakRate := bytes "128"; o_mode := bytes "ramp"; o_skips := 0;
     o_skipProb := F64.zero; o_duration := 60 * 1000000000;
     o_stepSize := 250 * 1000000; o_sliceLen := 0; o_blockSize := 8;
     o_scale := 25; o_rampDuration := 10 * 1000000000 |}.

Definition negative_slice_opts : Opts :=
  {| o_peakRate := bytes "128"; o_mode := bytes "ramp"; o_skips := -4;
     o_skipProb := F64.zero; o_duration := 60 * 1000000000;
     o_stepSize := 250 * 1000000; o_sliceLen := -4; o_blockSize := 8;
     o_scale := 25; o_rampDuration := 10 * 1000000000 |}.

(** The same in logistic mode, the default. *)
Definition default_opts : Opts :=
  {| o_peakRate := bytes "128"; o_mode := bytes "logistic"; o_skips := 2;
     o_skipProb := F64.zero; o_duration := 60 * 1000000000;
     o_stepSize := 250 * 1000000; o_sliceLen := 16; o_blockSize := 8;
     o_scale := 25; o_rampDuration := 10 * 1000000000 |}.

(** What the loop reads in ramp mode with 32 characters a step and the
    peak at step 40. *)
Definition env_any : Env AnyShaper :=
  {| opts_skips := 2; opts_skipProb := F64.zero; opts_sliceLen := 16;
     charsPerStep := F64.of_int 32; shaper := Ramp {| PeakStep := 40 |};
     out := Sample.pool |}.

(** The same with a rate below zero, [-rate=-128]. *)
Definition env_neg : Env AnyShaper :=
  {| opts_skips := 2; opts_skipProb := F64.zero; opts_sliceLen := 16;
     charsPerStep := F64.of_int (-32); shaper := Ramp {| PeakStep := 40 |};
     out := Sample.pool |}.

Definition at_step (n : Z) : State :=
  {| step := n; skips := 0; rng := Sample.rand1; stdout := Sample.capture |}.

End Demo.

(* ------------------------------------------------------------------ *)
(** * The float64 operations on known values *)

Example one_third :
  F64.div F64.one (F64.of_int 3) = Sample.of_bits 0x3fd5555555555555.
Proof. vm_compute. reflexivity. Qed.

Example one_tenth :
  F64.div F64.one (F64.of_int 10) = Sample.of_bits 0x3fb999999999999a.
Proof. vm_compute. reflexivity. Qed.

Example conversion_ties_to_even :
  F64.of_int (2 ^ 53 + 1) = F64.of_int (2 ^ 53) /\
  F64.of_int (2 ^ 53 + 3) = F64.of_int (2 ^ 53 + 4) /\
  F64.of_int Int.max_int = Sample.of_bits 0x43e0000000000000.
Proof. vm_compute. repeat split. Qed.

Example forty_nine_times_its_inverse :
  F64.mul (F64.of_int 49) (F64.div F64.one (F64.of_int 49))
    = Sample.of_bits 0x3fefffffffffffff.
Proof. vm_compute. reflexivity. Qed.

Example conversion_truncates :
  F64.to_int (fun _ => 0) (F64.div (F64.of_int 7) (F64.of_int 2)) = 3 /\
  F64.to_int (fun _ => 0) (F64.div (F64.of_int (-7)) (F64.of_int 2)) = -3.
Proof. vm_compute. split; reflexivity. Qed.

(* ------------------------------------------------------------------ *)
(** * Integers and lists *)

(** Linear arithmetic with the bounds of [int] written out. *)
Ltac int_lia := unfold Int.in_range, Int.min_int, Int.max_int in *; lia.

Lemma wrap_id z : Int.in_range z -> Int.wrap z = z.
Proof.
  unfold Int.in_range, Int.min_int, Int.max_int, Int.wrap. intros Hz.
  rewrite Z.mod_small; lia.
Qed.

Lemma wrap_in_range z : Int.in_range (Int.wrap z).
Proof.
  unfold Int.in_range, Int.min_int, Int.max_int, Int.wrap.
  pose proof (Z.mod_pos_bound (z + 2 ^ 63) (2 ^ 64) ltac:(lia)). lia.
Qed.

Lemma len_app {A} (l1 l2 : list A) : len (l1 ++ l2) = len l1 + len l2.
Proof. unfold len; rewrite length_app; lia. Qed.

Lemma pickBuffer_pool ro r :
  bufs ro <> [] ->
  exists buf, pickBuffer ro r = Done (buf, advance r) /\ In buf (bufs ro).
Proof.
  intros Hne. unfold pickBuffer, Intn.
  assert (Hlen : 0 < len (bufs ro)).
  { unfold len. destruct (bufs ro); [congruence | simpl; lia]. }
  destruct (Z.leb_spec (len (bufs ro)) 0) as [?|_]; [lia|]. cbn [bind].
  eexists; split; [reflexivity|].
  apply nth_In.
  pose proof (Z.mod_pos_bound (ints r (cursor r)) (len (bufs ro)) Hlen).
  unfold len in *. lia.
Qed.

Lemma pickBuffer_inv ro r buf r' :
  pickBuffer ro r = Done (buf, r') -> r' = advance r /\ In buf (bufs ro).
Proof.
  unfold pickBuffer, Intn. intros Hp.
  destruct (Z.leb_spec (len (bufs ro)) 0) as [?|Hlen]; [discriminate|].
  cbn [bind] in Hp. inversion Hp; subst; clear Hp. split; [reflexivity|].
  apply nth_In.
  pose proof (Z.mod_pos_bound (ints r (cursor r)) (len (bufs ro)) Hlen).
  unfold len in *. lia.
Qed.

Lemma tail_from_suffix buf n : exists pre, buf = pre ++ tail_from buf n.
Proof.
  unfold tail_from. exists (firstn (Z.to_nat (len buf - n)) buf).
  symmetry; apply firstn_skipn.
Qed.

Lemma tail_from_len buf n : 0 <= n <= len buf -> len (tail_from buf n) = n.
Proof.
  unfold tail_from, len. intros Hn. rewrite length_skipn. lia.
Qed.

(* ------------------------------------------------------------------ *)
(** * [WriteN] *)


Lemma Write_calls w p n e w' :
  Write w p = ((n, e), w') ->
  respond w' = respond w /\
  calls w' = calls w ++ [ {| chunk := p; count := n; failure := e |} ] /\
  respond w (calls w) p = (n, e).
Proof.
  unfold Write. destruct (respond w (calls w) p) as [n0 e0] eqn:Hr.
  intros Hw; inversion Hw; subst; clear Hw. cbn. auto.
Qed.

Lemma WriteN_trace fuel : forall ro r w n res r' w',
  WriteN fuel ro r w n = Done (res, r', w') ->
  respond w' = respond w /\
  exists cs, calls w' = calls w ++ cs /\
    Forall (from_pool ro) cs /\
    match res with
    | None => Forall no_failure cs
    | Some e => exists init last,
        cs = init ++ [last] /\ Forall no_failure init /\ failure last = Some e
    end.
Proof.
  induction fuel as [|fuel IH]; intros ro r w n res r' w' HW; [discriminate|].
  cbn [WriteN] in HW.
  destruct (0 <? n) eqn:Hn.
  2:{ inversion HW; subst. split; [reflexivity|]. exists []. rewrite app_nil_r.
      repeat split; constructor. }
  destruct (pickBuffer ro r) as [[buf r1]| |] eqn:Hp; cbn [bind] in HW; try discriminate.
  apply pickBuffer_inv in Hp as [-> Hin].
  set (p := if n <? len buf then tail_from buf n else buf) in *.
  assert (Hsel : (if n <? len buf then Write w (tail_from buf n) else Write w buf) = Write w p).
  { unfold p; destruct (n <? len buf); reflexivity. }
  rewrite Hsel in HW; clear Hsel.
  assert (Hpool : from_pool ro {| chunk := p; count := fst (fst (Write w p)); failure := snd (fst (Write w p)) |}).
  { exists buf. unfold p; cbn [chunk]. destruct (n <? len buf).
    - destruct (tail_from_suffix buf n) as [pre Hpre]. exists pre; auto.
    - exists []; auto. }
  destruct (Write w p) as [[nr err] w1] eqn:HWr. cbn [fst snd] in Hpool.
  apply Write_calls in HWr as (Hresp & Hcalls & _).
  destruct err as [e|].
  - inversion HW; subst; clear HW. split; [assumption|].
    eexists; split; [eassumption|]. split; [repeat constructor; assumption|].
    exists [], {| chunk := p; count := nr; failure := Some e |}. repeat split. constructor.
  - apply IH in HW as (Hresp' & cs & Hcs & Hfp & Hres).
    split; [congruence|].
    exists ({| chunk := p; count := nr; failure := None |} :: cs).
    split; [rewrite Hcs, Hcalls, <- app_assoc; reflexivity|].
    split; [constructor; assumption|].
    destruct res as [e|].
    + destruct Hres as (init & last & -> & Hinit & Hlast).
      exists ({| chunk := p; count := nr; failure := None |} :: init), last.
      repeat split; [|assumption]. constructor; [reflexivity | assumption].
    + constructor; [reflexivity | assumption].
Qed.

Lemma WriteN_nonpositive fuel ro r w n :
  n <= 0 -> WriteN (S fuel) ro r w n = Done (None, r, w).
Proof.
  intros Hn. cbn [WriteN]. destruct (Z.ltb_spec 0 n); [lia | reflexivity].
Qed.

Lemma written_app w w' cs :
  calls w' = calls w ++ cs -> written w' = written w ++ concat (map chunk cs).
Proof.
  unfold written. intros ->. rewrite map_app, concat_app. reflexivity.
Qed.

Lemma WriteN_reliable fuel : forall ro r w n,
  pool_ok ro -> reliable w -> 0 <= n <= Int.max_int -> (Z.to_nat n < fuel)%nat ->
  exists r' w' cs,
    WriteN fuel ro r w n = Done (None, r', w') /\
    respond w' = respond w /\
    calls w' = calls w ++ cs /\
    len (concat (map chunk cs)) = n.
Proof.
  induction fuel as [|fuel IH]; intros ro r w n Hpool Hrel Hn Hfuel; [lia|].
  cbn [WriteN].
  destruct (Z.ltb_spec 0 n) as [Hpos|Hnp].
  2:{ exists r, w, []. rewrite app_nil_r. repeat split. cbn. unfold len; cbn. lia. }
  destruct Hpool as [Hne Hall].
  destruct (pickBuffer_pool ro r Hne) as (buf & -> & Hin). cbn [bind].
  assert (Hbuf : 0 < len buf).
  { rewrite Forall_forall in Hall. specialize (Hall buf Hin).
    unfold len; destruct buf; [congruence | simpl; lia]. }
  set (p := if n <? len buf then tail_from buf n else buf).
  assert (Hsel : (if n <? len buf then Write w (tail_from buf n) else Write w buf) = Write w p).
  { unfold p; destruct (n <? len buf); reflexivity. }
  rewrite Hsel; clear Hsel.
  assert (Hp : 0 < len p <= n).
  { unfold p. destruct (Z.ltb_spec n (len buf)).
    - rewrite tail_from_len; lia.
    - lia. }
  unfold Write. rewrite (Hrel (calls w) p). fold (len p).
  set (w1 := {| respond := respond w; calls := _ |}).
  assert (Hrel1 : reliable w1) by exact Hrel.
  assert (Hsub : Int.sub n (len p) = n - len p).
  { unfold Int.sub. apply wrap_id. int_lia. }
  rewrite Hsub.
  destruct (IH ro (advance r) w1 (n - len p) (conj Hne Hall) Hrel1) as (r' & w' & cs & HW & Hresp & Hcalls & Hlen).
  { unfold Int.max_int in *. lia. }
  { lia. }
  exists r', w', ({| chunk := p; count := len p; failure := None |} :: cs).
  split; [exact HW|]. split; [exact Hresp|].
  split; [rewrite Hcalls; unfold w1; cbn [calls]; rewrite <- app_assoc; reflexivity|].
  cbn [map concat chunk]. rewrite len_app. lia.
Qed.

(* ------------------------------------------------------------------ *)
(** * [NewRandomOutput] *)


Lemma skip_0 r : skip r 0 = r.
Proof. destruct r; reflexivity. Qed.

Lemma skip_advance r n : skip (advance r) n = skip r (S n).
Proof. unfold skip, advance; cbn. f_equal. lia. Qed.

Lemma skip_skip r n m : skip (skip r n) m = skip r (n + m).
Proof. unfold skip; cbn. f_equal. lia. Qed.

Lemma len_alphabet : len alphabet_bytes = 65.
Proof. reflexivity. Qed.


Lemma drawn_in_alphabet r i : In (drawn r i) alphabet_bytes.
Proof.
  unfold drawn, index. apply nth_In.
  pose proof (Z.mod_pos_bound (ints r i) (len alphabet_bytes) ltac:(rewrite len_alphabet; lia)).
  unfold len in *. lia.
Qed.

Lemma fill_spec n : forall r,
  exists b, fill r n = Done (b, skip r n) /\ length b = n /\
    forall j, (j < n)%nat -> nth j b Byte.x00 = drawn r (j + cursor r).
Proof.
  induction n as [|n IH]; intros r.
  - exists []. rewrite skip_0. repeat split. intros j Hj; lia.
  - cbn [fill]. unfold Intn. rewrite len_alphabet. cbn [Z.leb Z.compare bind].
    destruct (IH (advance r)) as (b & -> & Hlen & Hnth). cbn [bind].
    rewrite skip_advance.
    eexists; split; [reflexivity|]. split; [cbn; lia|].
    intros [|j] Hj.
    + reflexivity.
    + cbn [nth]. rewrite Hnth by lia. unfold drawn. cbn [advance ints cursor].
      replace (j + S (cursor r))%nat with (S j + cursor r)%nat by lia. reflexivity.
Qed.

Lemma new_buffer_spec r blockSize :
  0 < blockSize ->
  exists b, new_buffer r blockSize = Done (b, skip r (Z.to_nat blockSize)) /\
    len b = blockSize /\
    forall j, (j < Z.to_nat blockSize)%nat ->
      nth j b Byte.x00 =
        if (Z.of_nat j =? blockSize - 1) then newline else drawn r (j + cursor r).
Proof.
  intros Hbs. unfold new_buffer.
  destruct (Z.ltb_spec blockSize 0); [lia|].
  destruct (fill_spec (Z.to_nat blockSize) r) as (b & -> & Hlen & Hnth). cbn [bind].
  unfold store, len. rewrite Hlen.
  destruct (Z.leb_spec 0 (blockSize - 1)); [|lia].
  destruct (Z.ltb_spec (blockSize - 1) (Z.of_nat (Z.to_nat blockSize))); [|lia].
  cbn [andb bind].
  eexists; split; [reflexivity|].
  assert (Hf : length (firstn (Z.to_nat (blockSize - 1)) b) = Z.to_nat (blockSize - 1)).
  { rewrite length_firstn. lia. }
  split.
  - rewrite length_app, Hf. cbn [length]. rewrite length_skipn. lia.
  - intros j Hj. destruct (Z.eqb_spec (Z.of_nat j) (blockSize - 1)) as [Heq|Hneq].
    + rewrite app_nth2 by (rewrite Hf; lia). rewrite Hf.
      replace (j - Z.to_nat (blockSize - 1))%nat with 0%nat by lia. reflexivity.
    + rewrite app_nth1 by (rewrite Hf; lia). rewrite nth_firstn.
      destruct (Nat.ltb_spec j (Z.to_nat (blockSize - 1))); [|lia].
      apply Hnth; lia.
Qed.

Lemma new_buffers_spec n blockSize : forall r,
  0 < blockSize ->
  exists bs, new_buffers r n blockSize = Done (bs, skip r (n * Z.to_nat blockSize)) /\
    length bs = n /\
    forall i, (i < n)%nat ->
      len (nth i bs []) = blockSize /\
      forall j, (j < Z.to_nat blockSize)%nat ->
        nth j (nth i bs []) Byte.x00 =
          if (Z.of_nat j =? blockSize - 1) then newline
          else drawn r (i * Z.to_nat blockSize + j + cursor r).
Proof.
  induction n as [|n IH]; intros r Hbs.
  - exists []. cbn [new_buffers Nat.mul]. rewrite skip_0. repeat split; intros; lia.
  - cbn [new_buffers].
    destruct (new_buffer_spec r blockSize Hbs) as (b & -> & Hlen & Hnth). cbn [bind].
    destruct (IH (skip r (Z.to_nat blockSize)) Hbs) as (bs & -> & Hlens & Hbs'). cbn [bind].
    rewrite skip_skip.
    eexists; split; [reflexivity|]. split; [cbn; lia|].
    intros [|i] Hi; cbn [nth].
    + split; [assumption|]. intros j Hj. rewrite Hnth by assumption. reflexivity.
    + destruct (Hbs' i ltac:(lia)) as [Hl Hn]. split; [assumption|].
      intros j Hj. rewrite Hn by assumption.
      destruct (Z.of_nat j =? blockSize - 1); [reflexivity|].
      unfold drawn. cbn [skip ints cursor].
      replace (i * Z.to_nat blockSize + j + (Z.to_nat blockSize + cursor r))%nat
        with (S i * Z.to_nat blockSize + j + cursor r)%nat by lia.
      reflexivity.
Qed.

Lemma NewRandomOutput_inv r n blockSize ro r' :
  NewRandomOutput r n blockSize = Done (ro, r') -> 0 < n -> 0 < blockSize.
Proof.
  unfold NewRandomOutput. destruct (Z.ltb_spec n 0); [discriminate|].
  intros Hnew Hn. destruct (Z.to_nat n) as [|k] eqn:Hk; [lia|].
  cbn [new_buffers] in Hnew. unfold new_buffer in Hnew.
  destruct (Z.ltb_spec blockSize 0); [discriminate|].
  destruct (fill_spec (Z.to_nat blockSize) r) as (b & Hfill & Hlen & _).
  rewrite Hfill in Hnew. cbn [bind] in Hnew. unfold store in Hnew.
  destruct (Z.leb_spec 0 (blockSize - 1)); [lia|]. discriminate.
Qed.

Lemma NewRandomOutput_spec r n blockSize :
  0 <= n -> 0 < blockSize ->
  exists ro,
    NewRandomOutput r n blockSize = Done (ro, skip r (Z.to_nat n * Z.to_nat blockSize)) /\
    length (bufs ro) = Z.to_nat n /\
    forall i, (i < Z.to_nat n)%nat ->
      len (nth i (bufs ro) []) = blockSize /\
      forall j, (j < Z.to_nat blockSize)%nat ->
        nth j (nth i (bufs ro) []) Byte.x00 =
          if (Z.of_nat j =? blockSize - 1) then newline
          else drawn r (i * Z.to_nat blockSize + j + cursor r).
Proof.
  intros Hn Hbs. unfold NewRandomOutput.
  destruct (Z.ltb_spec n 0); [lia|].
  destruct (new_buffers_spec (Z.to_nat n) blockSize r Hbs) as (bs & -> & Hlen & Hnth).
  cbn [bind]. eexists; split; [reflexivity|]. cbn [bufs]. auto.
Qed.

Lemma NewRandomOutput_pool_ok r n blockSize ro r' :
  NewRandomOutput r n blockSize = Done (ro, r') -> 0 < n -> pool_ok ro.
Proof.
  intros Hnew Hn.
  pose proof (NewRandomOutput_inv _ _ _ _ _ Hnew Hn) as Hbs.
  destruct (NewRandomOutput_spec r n blockSize ltac:(lia) Hbs) as (ro' & Heq & Hlen & Hnth).
  rewrite Heq in Hnew. inversion Hnew; subst; clear Hnew.
  split.
  - intros Hnil. rewrite Hnil in Hlen. cbn in Hlen. lia.
  - apply Forall_forall. intros b Hin.
    destruct (In_nth _ _ [] Hin) as (i & Hi & <-).
    destruct (Hnth i ltac:(lia)) as [Hl _].
    intros Hnil. rewrite Hnil in Hl. cbn in Hl. lia.
Qed.

(* ------------------------------------------------------------------ *)
(** * C10 *)

Section Claim10.

Context {rt : Runtime}.

(** C10.  For [n <= 0], [WriteN(w, n)] makes no [Write] call on the
    sink, writes nothing and returns nil, for every sink, pool and
    generator (all three come back as they went in); hence a step whose
    character count [int(charsPerStep * Fraction(step))] is zero or
    negative leaves the output as it was and raises no error. *)
Theorem WriteN_nonpositive_count (n : Z) (Hn : n <= 0) :
  (forall fuel ro r w, WriteN (S fuel) ro r w n = Done (None, r, w)) /\
  (forall (S : Type) (RS : RateShaper S) (env : Env S) fuel sliceIdx st,
      chars env st = n -> on_step env (Datatypes.S fuel) sliceIdx st = Done st).
Proof.
  split.
  - intros. apply WriteN_nonpositive; assumption.
  - intros S RS env fuel sliceIdx st Hc. unfold on_step.
    destruct (active env sliceIdx st); [|reflexivity].
    rewrite Hc, WriteN_nonpositive by assumption. cbn [bind].
    destruct st; reflexivity.
Qed.

End Claim10.

(* ------------------------------------------------------------------ *)
(** * C3 *)

(** C3.  Let [ro] be a pool built by [NewRandomOutput] with at least
    one buffer, [w] a sink whose every [Write] succeeds and reports the
    full length, and [0 <= n].  Then [ro.WriteN(w, n)] terminates (any
    fuel above [n] is enough), returns nil, and what it hands to the
    sink is exactly [n] bytes. *)
Theorem WriteN_writes_exactly_n
    (r0 : Rand) (poolSize blockSize : Z) (ro : RandomOutput) (r1 : Rand)
    (Hnew : NewRandomOutput r0 poolSize blockSize = Done (ro, r1))
    (Hpool : 0 < poolSize)
    (fuel : nat) (r : Rand) (w : Writer) (n : Z)
    (Hw : reliable w) (Hn : 0 <= n <= Int.max_int) (Hfuel : (Z.to_nat n < fuel)%nat) :
  exists r' w' bytes,
    WriteN fuel ro r w n = Done (None, r', w') /\
    written w' = written w ++ bytes /\
    len bytes = n.
Proof.
  pose proof (NewRandomOutput_pool_ok _ _ _ _ _ Hnew Hpool) as Hok.
  destruct (WriteN_reliable fuel ro r w n Hok Hw Hn Hfuel)
    as (r' & w' & cs & HW & _ & Hcalls & Hlen).
  exists r', w', (concat (map chunk cs)).
  split; [exact HW|]. split; [apply written_app; exact Hcalls | exact Hlen].
Qed.


Lemma WriteN_nonpositive_count_witness :
  WriteN 1 Sample.pool Sample.rand1 Sample.broken (-6) =
    Done (None, Sample.rand1, Sample.broken) /\
  on_step (rt := Sample.runtime)
          {| opts_skips := 0; opts_skipProb := F64.zero; opts_sliceLen := 4;
             charsPerStep := F64.of_int (-6); shaper := {| PeakStep := 0 |};
             out := Sample.pool |} 1 0 (Sample.start Sample.broken)
    = Done (Sample.start Sample.broken).
Proof.
  pose proof (@WriteN_nonpositive_count Sample.runtime (-6) ltac:(lia)) as [H1 H2].
  split.
  - apply H1.
  - apply H2. vm_compute. reflexivity.
Defined.

Lemma WriteN_writes_exactly_n_witness :
  exists r' w' bytes,
    WriteN 11 Sample.pool Sample.rand1 Sample.capture 10 = Done (None, r', w') /\
    written w' = written Sample.capture ++ bytes /\
    len bytes = 10.
Proof.
  apply (WriteN_writes_exactly_n Sample.rand0 32 4 Sample.pool Sample.rand1).
  - vm_compute. reflexivity.
  - lia.
  - intros h p. reflexivity.
  - unfold Int.max_int. lia.
  - simpl. lia.
Defined.

(* ------------------------------------------------------------------ *)
(** * C5 *)

(** C5, as the code has it.  [NewRandomOutput(r, n, blockSize)] with
    [blockSize > 0] returns [n] buffers of [blockSize] bytes after
    [n * blockSize] calls of the generator.  In every buffer the final
    byte is a newline, and byte [j] before it is [alphabet[r.Intn(65)]]
    for a call of its own (call [i * blockSize + j] for buffer [i]): a
    member of the alphabet, which has 65 characters.  The pool is an
    argument of [WriteN] and never a result: every [Write] that [WriteN]
    makes hands over the end of a buffer of the pool as built. *)
Theorem NewRandomOutput_buffers (r : Rand) (n blockSize : Z)
    (Hn : 0 <= n) (Hbs : 0 < blockSize) :
  exists ro,
    NewRandomOutput r n blockSize
      = Done (ro, skip r (Z.to_nat n * Z.to_nat blockSize)) /\
    len (bufs ro) = n /\
    len alphabet_bytes = 65 /\
    (forall i j, (i < Z.to_nat n)%nat -> (j < Z.to_nat blockSize)%nat ->
       let buf := nth i (bufs ro) [] in
       len buf = blockSize /\
       (Z.of_nat j = blockSize - 1 -> nth j buf Byte.x00 = newline) /\
       (Z.of_nat j < blockSize - 1 ->
          nth j buf Byte.x00 = drawn r (i * Z.to_nat blockSize + j + cursor r) /\
          In (nth j buf Byte.x00) alphabet_bytes)) /\
    (forall fuel r1 w k res r2 w2,
       WriteN fuel ro r1 w k = Done (res, r2, w2) ->
       exists cs, calls w2 = calls w ++ cs /\ Forall (from_pool ro) cs).
Proof.
  destruct (NewRandomOutput_spec r n blockSize Hn Hbs) as (ro & Hnew & Hlen & Hnth).
  exists ro. split; [exact Hnew|]. split; [unfold len; lia|].
  split; [reflexivity|]. split.
  - intros i j Hi Hj buf. destruct (Hnth i Hi) as [Hl Hb]. subst buf.
    split; [exact Hl|]. specialize (Hb j Hj). split.
    + intros Hlast. rewrite Hb. apply Z.eqb_eq in Hlast. rewrite Hlast. reflexivity.
    + intros Hlt. rewrite Hb.
      destruct (Z.eqb_spec (Z.of_nat j) (blockSize - 1)); [lia|].
      split; [reflexivity | apply drawn_in_alphabet].
  - intros fuel r1 w k res r2 w2 HW.
    apply WriteN_trace in HW as (_ & cs & Hcs & Hfp & _).
    exists cs; split; assumption.
Qed.

Lemma NewRandomOutput_buffers_witness :
  0 <= 32 /\ 0 < 4 /\
  exists ro,
    NewRandomOutput Sample.rand0 32 4
      = Done (ro, skip Sample.rand0 (Z.to_nat 32 * Z.to_nat 4)) /\
    len (bufs ro) = 32 /\
    len alphabet_bytes = 65 /\
    (forall i j, (i < Z.to_nat 32)%nat -> (j < Z.to_nat 4)%nat ->
       let buf := nth i (bufs ro) [] in
       len buf = 4 /\
       (Z.of_nat j = 4 - 1 -> nth j buf Byte.x00 = newline) /\
       (Z.of_nat j < 4 - 1 ->
          nth j buf Byte.x00
            = drawn Sample.rand0 (i * Z.to_nat 4 + j + cursor Sample.rand0) /\
          In (nth j buf Byte.x00) alphabet_bytes)) /\
    (forall fuel r1 w k res r2 w2,
       WriteN fuel ro r1 w k = Done (res, r2, w2) ->
       exists cs, calls w2 = calls w ++ cs /\ Forall (from_pool ro) cs).
Proof.
  split; [lia|]. split; [lia|].
  apply (NewRandomOutput_buffers Sample.rand0 32 4); lia.
Defined.

(** The alphabet of the program has 65 characters, all different, and
    not 64: the generator is asked for an index below 65, and the last
    character, the space, is drawn when it answers 64. *)
Lemma alphabet_has_65_characters :
  NoDup alphabet_bytes /\
  len alphabet_bytes = 65 /\
  len alphabet_bytes <> 64 /\
  exists ro r',
    NewRandomOutput {| ints := fun _ => 64; units := fun _ => F64.zero; cursor := 0 |} 1 2
      = Done (ro, r') /\
    bufs ro = [[index alphabet_bytes 64; newline]] /\
    index alphabet_bytes 64 = " "%byte.
Proof.
  split.
  - unfold alphabet_bytes. cbv [alphabet list_byte_of_string String.list_ascii_of_string map byte_of_ascii].
    cbn.
    repeat (constructor; [cbn; intuition discriminate|]). constructor.
  - split; [reflexivity|]. split; [discriminate|].
    eexists; eexists. split; [vm_compute; reflexivity|]. split; reflexivity.
Qed.

(* ------------------------------------------------------------------ *)
(** * The loop *)

Section LoopFacts.

Context {rt : Runtime} {S : Type} {RS : RateShaper S}.
Variable env : Env S.

Lemma redraw_inv fuel st sliceIdx st1 :
  redraw env fuel st = Done (sliceIdx, st1) ->
  Int.rem (step st) (opts_sliceLen env) = Some sliceIdx /\
  step st1 = step st /\ stdout st1 = stdout st /\
  (sliceIdx <> 0 -> st1 = st).
Proof.
  unfold redraw. destruct (Int.rem (step st) (opts_sliceLen env)) as [i|]; [|discriminate].
  destruct (Z.eqb_spec i 0) as [->|Hi].
  - destruct (sampleSkips fuel (rng st) (opts_skips env) (opts_skipProb env))
      as [[k r']| |]; cbn [bind]; try discriminate.
    intros Heq; inversion Heq; subst; clear Heq. cbn. repeat split. congruence.
  - intros Heq; inversion Heq; subst; clear Heq. auto.
Qed.

Lemma iteration_recv_steps fuel st sliceIdx st1 st2 :
  redraw env fuel st = Done (sliceIdx, st1) ->
  on_step env fuel sliceIdx st1 = Done st2 ->
  iteration env fuel recv_steps st = Done (Continue (next_step st2)).
Proof.
  intros Hr Ho. unfold iteration. rewrite Hr. cbn [bind]. rewrite Ho. reflexivity.
Qed.

Lemma iteration_recv_end fuel st sliceIdx st1 :
  redraw env fuel st = Done (sliceIdx, st1) ->
  iteration env fuel recv_end st = Done (Return st1).
Proof.
  intros Hr. unfold iteration. rewrite Hr. reflexivity.
Qed.

End LoopFacts.

(* ------------------------------------------------------------------ *)
(** * C1 *)

Section Claim1.

Context {rt : Runtime} {S : Type} {RS : RateShaper S}.

(** C1, as the code has it.  When a [Write] fails during a step,
    [WriteN] stops at once: the failing call is the last one it makes,
    every call before it succeeded, and the error is returned to the
    caller of [WriteN].  That caller is the [case <-steps] branch, which
    drops the value: the turn ends like any other, with [step + 1], and
    the loop goes on. *)
Theorem write_error_ends_WriteN_only
    (env : Env S) (fuel : nat) (st st1 : State) (sliceIdx : Z)
    (e : error) (r' : Rand) (w' : Writer)
    (Hredraw : redraw env fuel st = Done (sliceIdx, st1))
    (Hactive : active env sliceIdx st1 = true)
    (Hfail : WriteN fuel (out env) (rng st1) (stdout st1) (chars env st1)
             = Done (Some e, r', w')) :
  (exists init last,
      calls w' = calls (stdout st) ++ init ++ [last] /\
      Forall no_failure init /\ failure last = Some e) /\
  iteration env fuel recv_steps st
    = Done (Continue {| step := Int.add (step st) 1; skips := skips st1;
                        rng := r'; stdout := w' |}).
Proof.
  pose proof (redraw_inv env _ _ _ _ Hredraw) as (_ & Hstep & Hout & _).
  split.
  - apply WriteN_trace in Hfail as (_ & cs & Hcs & _ & init & last & -> & Hinit & Hlast).
    exists init, last. rewrite Hcs, Hout. auto.
  - erewrite iteration_recv_steps; [| exact Hredraw |].
    2:{ unfold on_step. rewrite Hactive, Hfail. reflexivity. }
    unfold next_step; cbn. rewrite Hstep. reflexivity.
Qed.

End Claim1.

Lemma write_error_ends_WriteN_only_witness :
  exists e r' w',
    WriteN 20 Sample.pool Sample.rand1 Sample.broken 6 = Done (Some e, r', w') /\
    iteration (rt := Sample.runtime) Sample.env_ramp 20 recv_steps
              (Sample.start Sample.broken)
      = Done (Continue {| step := 1; skips := 0; rng := r'; stdout := w' |}).
Proof.
  do 3 eexists. split; [vm_compute; reflexivity|].
  refine (proj2 (write_error_ends_WriteN_only (rt := Sample.runtime)
            Sample.env_ramp 20 (Sample.start Sample.broken)
            (Sample.start Sample.broken) 0 _ _ _ _ _ _)).
  - vm_compute. reflexivity.
  - vm_compute. reflexivity.
  - vm_compute. reflexivity.
Defined.

(** With a sink whose every [Write] fails, the [WriteN] of step 0
    returns the error, and still the loop runs step 1, writes again and
    is ready for step 2: no turn was cut short and nothing was returned
    to a caller. *)
Lemma loop_runs_on_after_write_error :
  exists e r' w' st2,
    WriteN 20 Sample.pool Sample.rand1 Sample.broken 6 = Done (Some e, r', w') /\
    main_loop (rt := Sample.runtime) Sample.env_ramp 20 [recv_steps; recv_steps]
        (Sample.start Sample.broken) = Done (Continue st2) /\
    step st2 = 2 /\
    map failure (calls (stdout st2)) = [Some e; Some e].
Proof.
  do 4 eexists. split; [vm_compute; reflexivity|].
  split; [vm_compute; reflexivity|]. split; reflexivity.
Qed.

(* ------------------------------------------------------------------ *)
(** * C9 *)

Section Claim9.

Context {rt : Runtime} {S : Type} {RS : RateShaper S}.

(** C9, as the code has it.  The [select] has no order of preference.
    When only the duration signal is ready the loop returns, and
    whenever the loop returns nothing was written in that turn.  When
    both signals are ready either case may run: the return, or the step
    with its emission. *)
Theorem select_takes_any_ready_case
    (env : Env S) (fuel : nat) (st st1 : State) (sliceIdx : Z)
    (Hredraw : redraw env fuel st = Done (sliceIdx, st1)) :
  stdout st1 = stdout st /\
  (forall rd x, steps_ready rd = false -> turn env fuel rd st x -> x = Return st1) /\
  (forall rd, end_ready rd = true -> turn env fuel rd st (Return st1)) /\
  (forall rd st2, steps_ready rd = true ->
      on_step env fuel sliceIdx st1 = Done st2 ->
      turn env fuel rd st (Continue (next_step st2))).
Proof.
  pose proof (redraw_inv env _ _ _ _ Hredraw) as (_ & _ & Hout & _).
  split; [exact Hout|]. split; [|split].
  - intros rd x Hnot Hturn. destruct Hturn as [c x Hc Hit].
    destruct c; cbn in Hc; [congruence|].
    rewrite (iteration_recv_end env _ _ _ _ Hredraw) in Hit. congruence.
  - intros rd Hend. apply (turn_case env fuel rd st recv_end); [exact Hend|].
    eapply iteration_recv_end; eassumption.
  - intros rd st2 Hsteps Hon. apply (turn_case env fuel rd st recv_steps); [exact Hsteps|].
    eapply iteration_recv_steps; eassumption.
Qed.

End Claim9.

Lemma select_takes_any_ready_case_witness :
  let st := Sample.start Sample.capture in
  stdout st = stdout st /\
  (forall rd x, steps_ready rd = false ->
     turn (rt := Sample.runtime) Sample.env_ramp 20 rd st x -> x = Return st) /\
  (forall rd, end_ready rd = true ->
     turn (rt := Sample.runtime) Sample.env_ramp 20 rd st (Return st)) /\
  (forall rd st2, steps_ready rd = true ->
      on_step (rt := Sample.runtime) Sample.env_ramp 20 0 st = Done st2 ->
      turn (rt := Sample.runtime) Sample.env_ramp 20 rd st (Continue (next_step st2))).
Proof.
  apply (select_takes_any_ready_case (rt := Sample.runtime) Sample.env_ramp 20
           (Sample.start Sample.capture) (Sample.start Sample.capture) 0).
  vm_compute. reflexivity.
Defined.

(** Both signals ready, and the loop takes the step: six bytes are
    written and the loop is at step 1. *)
Lemma both_ready_step_may_run :
  exists st',
    turn (rt := Sample.runtime) Sample.env_ramp 20 Sample.both
         (Sample.start Sample.capture) (Continue st') /\
    step st' = 1 /\
    len (written (stdout st')) = 6.
Proof.
  eexists. split; [|split].
  - apply (turn_case (rt := Sample.runtime) Sample.env_ramp 20 Sample.both
             (Sample.start Sample.capture) recv_steps); [reflexivity|].
    vm_compute. reflexivity.
  - reflexivity.
  - reflexivity.
Qed.

(* ------------------------------------------------------------------ *)
(** * C2 *)

Lemma WriteN_more_fuel fuel : forall fuel' ro r w n x,
  WriteN fuel ro r w n = Done x -> (fuel <= fuel')%nat ->
  WriteN fuel' ro r w n = Done x.
Proof.
  induction fuel as [|fuel IH]; intros fuel' ro r w n x HW Hle; [discriminate|].
  destruct fuel' as [|fuel']; [lia|].
  cbn [WriteN] in *.
  destruct (0 <? n); [|exact HW].
  destruct (pickBuffer ro r) as [[buf r1]| |]; cbn [bind] in *; try discriminate.
  destruct (if n <? len buf then Write w (tail_from buf n) else Write w buf)
    as [[nr err] w1].
  destruct err; [exact HW|]. apply IH; [exact HW | lia].
Qed.

Lemma to_int_in_range oor x : Int.in_range (F64.to_int oor x).
Proof.
  unfold F64.to_int. destruct (F64.trunc x) as [z|]; [|apply wrap_in_range].
  destruct (Z.leb_spec Int.min_int z); cbn [andb]; [|apply wrap_in_range].
  destruct (Z.leb_spec z Int.max_int); [|apply wrap_in_range].
  split; assumption.
Qed.

(** On a reliable sink a finished [WriteN] has written [max 0 n] bytes. *)
Lemma WriteN_reliable_inv fuel ro r w n res r' w' :
  pool_ok ro -> reliable w -> Int.in_range n ->
  WriteN fuel ro r w n = Done (res, r', w') ->
  res = None /\ respond w' = respond w /\
  exists bytes, written w' = written w ++ bytes /\ len bytes = Z.max 0 n.
Proof.
  intros Hpool Hrel Hn HW.
  destruct (Z.le_gt_cases n 0) as [Hle|Hpos].
  - destruct fuel as [|fuel]; [discriminate|].
    rewrite WriteN_nonpositive in HW by assumption.
    inversion HW; subst. repeat split. exists []. rewrite app_nil_r. split; [reflexivity|].
    unfold len; cbn. lia.
  - destruct (WriteN_reliable (Nat.max fuel (S (Z.to_nat n))) ro r w n Hpool Hrel)
      as (r2 & w2 & cs & HW2 & Hresp & Hcalls & Hlen).
    { unfold Int.in_range in Hn. lia. }
    { lia. }
    apply (WriteN_more_fuel _ (Nat.max fuel (S (Z.to_nat n)))) in HW; [|lia].
    rewrite HW in HW2. inversion HW2; subst.
    repeat split; [assumption|].
    exists (concat (map chunk cs)). split; [apply written_app; assumption | lia].
Qed.

Section SkipFacts.

Context {rt : Runtime}.

Lemma sampleSkips_loop_range fuel : forall r l k p k' r',
  Int.in_range k ->
  sampleSkips_loop fuel r l k p = Done (k', r') -> Int.in_range k'.
Proof.
  induction fuel as [|fuel IH]; intros r l k p k' r' Hk Hs; [discriminate|].
  cbn [sampleSkips_loop Float64] in Hs.
  destruct (F64.leb (F64.mul p (units r (cursor r))) l).
  - inversion Hs; subst; assumption.
  - eapply IH; [|exact Hs]. apply wrap_in_range.
Qed.

Lemma sampleSkips_range fuel r skips skipProb k r' :
  sampleSkips fuel r skips skipProb = Done (k, r') -> Int.in_range k.
Proof.
  assert (H0 : Int.in_range 0) by (unfold Int.in_range, Int.min_int, Int.max_int; lia).
  unfold sampleSkips. destruct (skips <=? 0).
  - intros Hs; inversion Hs; subst; exact H0.
  - cbn [Float64]. destruct (F64.geb (units r (cursor r)) skipProb).
    + intros Hs; inversion Hs; subst; exact H0.
    + apply sampleSkips_loop_range; exact H0.
Qed.

End SkipFacts.

Section Claim2.

Context {rt : Runtime} {S : Type} {RS : RateShaper S}.
Variable env : Env S.

(** A turn of the loop inside a slice all of which is skipped. *)
Lemma skipped_turn fuel st :
  0 < opts_sliceLen env ->
  0 <= step st < Int.max_int ->
  Z.rem (step st) (opts_sliceLen env) <> 0 ->
  opts_sliceLen env <= skips st <= Int.max_int ->
  iteration env fuel recv_steps st = Done (Continue (next_step st)).
Proof.
  intros HL Hstep Hrem Hk.
  assert (Hredraw : redraw env fuel st = Done (Z.rem (step st) (opts_sliceLen env), st)).
  { unfold redraw, Int.rem. destruct (Z.eqb_spec (opts_sliceLen env) 0); [lia|].
    destruct (Z.eqb_spec (Z.rem (step st) (opts_sliceLen env)) 0); [contradiction|].
    reflexivity. }
  eapply iteration_recv_steps; [exact Hredraw|].
  unfold on_step, active, Int.sub.
  rewrite wrap_id by int_lia.
  pose proof (Z.rem_nonneg (step st) (opts_sliceLen env) ltac:(lia) ltac:(lia)).
  destruct (Z.ltb_spec (Z.rem (step st) (opts_sliceLen env)) (opts_sliceLen env - skips st));
    [lia | reflexivity].
Qed.

(** The turn at the boundary of a slice whose draw is the slice length
    or more. *)
Lemma skipped_boundary_turn fuel st k r' :
  0 < opts_sliceLen env ->
  Z.rem (step st) (opts_sliceLen env) = 0 ->
  sampleSkips fuel (rng st) (opts_skips env) (opts_skipProb env) = Done (k, r') ->
  opts_sliceLen env <= k ->
  iteration env fuel recv_steps st
    = Done (Continue {| step := Int.add (step st) 1; skips := k;
                        rng := r'; stdout := stdout st |}).
Proof.
  intros HL Hrem Hs Hk.
  pose proof (sampleSkips_range _ _ _ _ _ _ Hs) as Hrange.
  assert (Hredraw : redraw env fuel st
                    = Done (0, {| step := step st; skips := k; rng := r'; stdout := stdout st |})).
  { unfold redraw, Int.rem. destruct (Z.eqb_spec (opts_sliceLen env) 0); [lia|].
    rewrite Hrem. cbn [Z.eqb]. rewrite Hs. reflexivity. }
  set (st1 := {| step := step st; skips := k; rng := r'; stdout := stdout st |}) in *.
  rewrite (iteration_recv_steps env fuel st 0 st1 st1 Hredraw); [reflexivity|].
  unfold on_step, active, Int.sub. cbn [skips st1].
  rewrite wrap_id by int_lia.
  destruct (Z.ltb_spec 0 (opts_sliceLen env - k)); [lia | reflexivity].
Qed.

Lemma skipped_turns fuel (m : nat) : forall st,
  0 < opts_sliceLen env ->
  0 <= step st ->
  step st + Z.of_nat m <= Int.max_int ->
  0 < Z.rem (step st) (opts_sliceLen env) ->
  Z.rem (step st) (opts_sliceLen env) + Z.of_nat m <= opts_sliceLen env ->
  opts_sliceLen env <= skips st <= Int.max_int ->
  main_loop env fuel (repeat recv_steps m) st
    = Done (Continue {| step := step st + Z.of_nat m; skips := skips st;
                        rng := rng st; stdout := stdout st |}).
Proof.
  induction m as [|m IH]; intros st HL Hstep Hmax Hrem Hin Hk.
  - cbn [repeat main_loop]. rewrite Z.add_0_r. destruct st; reflexivity.
  - cbn [repeat main_loop].
    rewrite skipped_turn by (trivial; lia). cbn [bind].
    assert (Hadd : Int.add (step st) 1 = step st + 1).
    { unfold Int.add. apply wrap_id.
      int_lia. }
    destruct m as [|m].
    + cbn [repeat main_loop]. unfold next_step. rewrite Hadd. reflexivity.
    + assert (Hnext : Z.rem (step st + 1) (opts_sliceLen env)
                      = Z.rem (step st) (opts_sliceLen env) + 1).
      { rewrite !Z.rem_mod_nonneg by lia.
        pose proof (Z.mod_pos_bound (step st) (opts_sliceLen env) HL).
        rewrite !Z.rem_mod_nonneg in Hin by lia.
        rewrite (Z.div_mod (step st) (opts_sliceLen env)) at 1 by lia.
        rewrite <- Z.add_assoc, Z.add_comm, Z.mul_comm, Z.mod_add by lia.
        apply Z.mod_small. lia. }
      rewrite IH; unfold next_step; cbn [step skips rng stdout]; rewrite ?Hadd, ?Hnext;
        try lia.
      f_equal. f_equal. f_equal. lia.
Qed.

Lemma main_loop_app fuel cs1 cs2 : forall st st1,
  main_loop env fuel cs1 st = Done (Continue st1) ->
  main_loop env fuel (cs1 ++ cs2) st = main_loop env fuel cs2 st1.
Proof.
  induction cs1 as [|c cs1 IH]; intros st st1 H.
  - cbn [main_loop] in H. injection H as <-. reflexivity.
  - cbn [app main_loop] in *.
    destruct (iteration env fuel c st) as [[st2|st2]| |]; cbn [bind] in *;
      try discriminate.
    apply IH. exact H.
Qed.

Lemma rem_in_slice a L j :
  0 < L -> 0 <= a -> Z.rem a L = 0 -> 0 <= j < L -> Z.rem (a + j) L = j.
Proof.
  intros HL Ha Hrem Hj. rewrite Z.rem_mod_nonneg in * by lia.
  rewrite <- Z.add_mod_idemp_l, Hrem by lia. apply Z.mod_small. lia.
Qed.

(** A step on a sink that never fails, once the slice index and the
    skip count in force are known. *)
Lemma gated_turn fuel st sliceIdx st1 :
  pool_ok (out env) -> reliable (stdout st) ->
  redraw env fuel st = Done (sliceIdx, st1) ->
  (Z.to_nat (chars env st) < fuel)%nat ->
  exists st' bytes,
    iteration env fuel recv_steps st = Done (Continue st') /\
    step st' = Int.add (step st) 1 /\
    skips st' = skips st1 /\
    reliable (stdout st') /\
    written (stdout st') = written (stdout st) ++ bytes /\
    len bytes = if sliceIdx <? Int.sub (opts_sliceLen env) (skips st1)
                then Z.max 0 (chars env st) else 0.
Proof.
  intros Hpool Hrel Hredraw Hfuel.
  pose proof (redraw_inv env _ _ _ _ Hredraw) as (_ & Hstep & Hout & _).
  assert (Hchars : chars env st1 = chars env st)
    by (unfold chars; rewrite Hstep; reflexivity).
  assert (Hrel1 : reliable (stdout st1)) by (intros h p; rewrite Hout; apply Hrel).
  pose proof (to_int_in_range int_oor
                (F64.mul (charsPerStep env) (Fraction (shaper env) (step st1)))) as Hrange.
  fold (chars env st1) in Hrange.
  destruct (sliceIdx <? Int.sub (opts_sliceLen env) (skips st1)) eqn:Hact.
  - assert (Hrun : exists res r' w',
              WriteN fuel (out env) (rng st1) (stdout st1) (chars env st1)
              = Done (res, r', w')).
    { destruct (Z.le_gt_cases (chars env st1) 0) as [Hle|Hpos].
      - destruct fuel as [|fuel']; [lia|].
        rewrite WriteN_nonpositive by assumption. eauto.
      - destruct (WriteN_reliable fuel (out env) (rng st1) (stdout st1)
                    (chars env st1) Hpool Hrel1) as (r2 & w2 & cs & HW2 & _);
          [unfold Int.in_range in Hrange; lia | lia |].
        eauto. }
    destruct Hrun as (res & r' & w' & HW).
    destruct (WriteN_reliable_inv _ _ _ _ _ _ _ _ Hpool Hrel1 Hrange HW)
      as (_ & Hresp & bytes & Hw & Hlen).
    exists (next_step {| step := step st1; skips := skips st1; rng := r'; stdout := w' |}),
           bytes.
    split.
    { eapply iteration_recv_steps; [exact Hredraw|].
      unfold on_step, active. rewrite Hact, HW. reflexivity. }
    cbn [next_step step skips stdout]. rewrite Hstep.
    split; [reflexivity|]. split; [reflexivity|].
    split; [intros h p; rewrite Hresp; apply Hrel1|].
    split; [rewrite <- Hout; exact Hw|]. rewrite <- Hchars. exact Hlen.
  - exists (next_step st1), []. split.
    { eapply iteration_recv_steps; [exact Hredraw|].
      unfold on_step, active. rewrite Hact. reflexivity. }
    cbn [next_step step skips stdout]. rewrite Hstep, Hout, app_nil_r.
    split; [reflexivity|]. split; [reflexivity|].
    split; [exact Hrel|]. split; reflexivity.
Qed.

Section Slice.

Variables (fuel : nat) (st : State) (k : Z) (r' : Rand).
Hypothesis HL : 0 < opts_sliceLen env.
Hypothesis Hstep : 0 <= step st.
Hypothesis Hmax : step st + opts_sliceLen env <= Int.max_int.
Hypothesis Hrem : Z.rem (step st) (opts_sliceLen env) = 0.
Hypothesis Hdraw :
  sampleSkips fuel (rng st) (opts_skips env) (opts_skipProb env) = Done (k, r').
Hypothesis Hpool : pool_ok (out env).
Hypothesis Hrel : reliable (stdout st).
Hypothesis Hfuel : forall st0,
  step st <= step st0 < step st + opts_sliceLen env ->
  (Z.to_nat (chars env st0) < fuel)%nat.

(** Step [j] of the slice that begins at [st], from the state [stj]
    the loop has reached. *)
Lemma slice_turn (j : nat) (stj : State) :
  Z.of_nat j < opts_sliceLen env ->
  step stj = step st + Z.of_nat j ->
  reliable (stdout stj) ->
  (j = 0%nat -> stj = st) ->
  ((0 < j)%nat -> skips stj = k) ->
  Int.rem (step stj) (opts_sliceLen env) = Some (Z.of_nat j) /\
  exists st' bytes,
    iteration env fuel recv_steps stj = Done (Continue st') /\
    step st' = step stj + 1 /\
    skips st' = k /\
    reliable (stdout st') /\
    written (stdout st') = written (stdout stj) ++ bytes /\
    len bytes = if Z.of_nat j <? Int.sub (opts_sliceLen env) k
                then Z.max 0 (chars env stj) else 0.
Proof.
  intros Hj Hs Hr H0 Hk.
  assert (Hidx : Z.rem (step stj) (opts_sliceLen env) = Z.of_nat j)
    by (rewrite Hs; apply rem_in_slice; trivial; lia).
  assert (Hrem' : Int.rem (step stj) (opts_sliceLen env) = Some (Z.of_nat j)).
  { unfold Int.rem. replace (opts_sliceLen env =? 0) with false by lia.
    rewrite Hidx. reflexivity. }
  split; [exact Hrem'|].
  assert (Hre : exists st1, redraw env fuel stj = Done (Z.of_nat j, st1) /\ skips st1 = k).
  { unfold redraw. rewrite Hrem'. destruct j as [|j].
    - rewrite (H0 eq_refl). cbn [Z.of_nat Z.eqb]. rewrite Hdraw. cbn [bind].
      eexists. split; reflexivity.
    - destruct (Z.eqb_spec (Z.of_nat (Datatypes.S j)) 0) as [He | _]; [lia|].
      exists stj. split; [reflexivity | apply Hk; lia]. }
  destruct Hre as (st1 & Hre & Hsk).
  destruct (gated_turn fuel stj (Z.of_nat j) st1 Hpool Hr Hre)
    as (st' & bytes & Hit & Hs' & Hk' & Hr' & Hw & Hlen).
  { apply Hfuel. lia. }
  exists st', bytes. rewrite Hsk in *.
  split; [exact Hit|]. split; [rewrite Hs'; apply wrap_id; int_lia|].
  repeat (split; [assumption|]). exact Hlen.
Qed.

(** Every step of the slice is reached. *)
Lemma slice_reaches (j : nat) :
  Z.of_nat j <= opts_sliceLen env ->
  exists stj,
    main_loop env fuel (repeat recv_steps j) st = Done (Continue stj) /\
    step stj = step st + Z.of_nat j /\
    reliable (stdout stj) /\
    (j = 0%nat -> stj = st) /\
    ((0 < j)%nat -> skips stj = k).
Proof.
  induction j as [|j IH]; intros Hj.
  - exists st. cbn [repeat main_loop]. rewrite Z.add_0_r.
    split; [reflexivity|]. split; [reflexivity|]. split; [exact Hrel|].
    split; [reflexivity | lia].
  - destruct (IH ltac:(lia)) as (stj & Hrun & Hs & Hr & H0 & Hk).
    destruct (slice_turn j stj ltac:(lia) Hs Hr H0 Hk)
      as (_ & st' & bytes & Hit & Hs' & Hk' & Hr' & _).
    exists st'. split.
    { replace (repeat recv_steps (Datatypes.S j)) with (repeat recv_steps j ++ [recv_steps])
        by (rewrite <- repeat_cons; reflexivity).
      rewrite (main_loop_app fuel _ _ st stj Hrun). cbn [main_loop].
      rewrite Hit. reflexivity. }
    split; [lia|]. split; [exact Hr'|]. split; [discriminate | intros _; exact Hk'].
Qed.

End Slice.

(** C2, as the code has it.  Take a slice: [sliceLen] steps from a step
    with [step % sliceLen = 0], where [sampleSkips] returns [k].  On a
    sink that never fails every step [j] of the slice is reached and
    completes with [sliceIdx = j] and [k] the skip count in force, and
    the bytes it writes are the [int(charsPerStep * Fraction(step))]
    bytes of [WriteN] when [j < sliceLen - k], and none otherwise.  So
    a step writes something exactly when [j < sliceLen - k] and its
    character count is positive.  In particular, when [k] is [sliceLen]
    or more, none of the [sliceLen] steps of the slice writes anything:
    after each of them the output is what it was, the draw is still in
    force and the generator has not been consulted again. *)
Theorem emission_gate (fuel : nat) :
  (forall st k r',
      0 < opts_sliceLen env ->
      0 <= step st -> step st + opts_sliceLen env <= Int.max_int ->
      Z.rem (step st) (opts_sliceLen env) = 0 ->
      sampleSkips fuel (rng st) (opts_skips env) (opts_skipProb env) = Done (k, r') ->
      pool_ok (out env) -> reliable (stdout st) ->
      (forall st0, step st <= step st0 < step st + opts_sliceLen env ->
                   (Z.to_nat (chars env st0) < fuel)%nat) ->
      forall j : nat, Z.of_nat j < opts_sliceLen env ->
        exists stj st' bytes,
          main_loop env fuel (repeat recv_steps j) st = Done (Continue stj) /\
          step stj = step st + Z.of_nat j /\
          Int.rem (step stj) (opts_sliceLen env) = Some (Z.of_nat j) /\
          iteration env fuel recv_steps stj = Done (Continue st') /\
          skips st' = k /\
          written (stdout st') = written (stdout stj) ++ bytes /\
          len bytes = (if Z.of_nat j <? Int.sub (opts_sliceLen env) k
                       then Z.max 0 (chars env stj) else 0) /\
          (bytes <> [] <->
             Z.of_nat j < Int.sub (opts_sliceLen env) k /\ 0 < chars env stj)) /\
  (forall st k r' m,
      0 < opts_sliceLen env ->
      0 <= step st -> step st + opts_sliceLen env <= Int.max_int ->
      Z.rem (step st) (opts_sliceLen env) = 0 ->
      sampleSkips fuel (rng st) (opts_skips env) (opts_skipProb env) = Done (k, r') ->
      opts_sliceLen env <= k ->
      0 < m <= opts_sliceLen env ->
      main_loop env fuel (repeat recv_steps (Z.to_nat m)) st
        = Done (Continue {| step := step st + m; skips := k;
                            rng := r'; stdout := stdout st |})).
Proof.
  split.
  - intros st k r' HL Hstep Hmax Hrem Hdraw Hpool Hrel Hfuel j Hj.
    destruct (slice_reaches fuel st k r' HL Hstep Hmax Hrem Hdraw Hpool Hrel Hfuel j
                ltac:(lia)) as (stj & Hrun & Hs & Hr & H0 & Hk0).
    destruct (slice_turn fuel st k r' HL Hstep Hmax Hrem Hdraw Hpool Hfuel j stj
                Hj Hs Hr H0 Hk0)
      as (Hidx & st' & bytes & Hit & _ & Hk & _ & Hw & Hlen).
    exists stj, st', bytes.
    split; [exact Hrun|]. split; [exact Hs|]. split; [exact Hidx|].
    split; [exact Hit|]. split; [exact Hk|]. split; [exact Hw|].
    split; [exact Hlen|].
    assert (Hne : bytes <> [] <-> 0 < len bytes).
    { unfold len. destruct bytes; cbn [length]; split; intros; try lia; congruence. }
    rewrite Hne, Hlen.
    destruct (Z.ltb_spec (Z.of_nat j) (Int.sub (opts_sliceLen env) k)); lia.
  - intros st k r' m HL Hstep Hmax Hrem Hs Hk Hm.
    pose proof (sampleSkips_range _ _ _ _ _ _ Hs) as Hrange.
    assert (Hadd : Int.add (step st) 1 = step st + 1).
    { unfold Int.add. apply wrap_id.
      int_lia. }
    destruct (Z.to_nat m) as [|m'] eqn:Hm'; [lia|].
    cbn [repeat main_loop]. rewrite (skipped_boundary_turn fuel st k r') by assumption.
    cbn [bind]. rewrite Hadd.
    destruct m' as [|m'].
    + cbn [repeat main_loop]. do 3 f_equal. lia.
    + rewrite skipped_turns; cbn [step skips rng stdout].
      * do 3 f_equal. lia.
      * exact HL.
      * lia.
      * lia.
      * rewrite Z.rem_mod_nonneg in * by lia.
        rewrite <- Z.add_mod_idemp_l, Hrem by lia. rewrite Z.mod_small; lia.
      * rewrite Z.rem_mod_nonneg in * by lia.
        rewrite <- Z.add_mod_idemp_l, Hrem by lia. rewrite Z.mod_small; lia.
      * unfold Int.in_range in Hrange. lia.
Qed.

End Claim2.

Lemma emission_gate_witness :
  (exists stj st' bytes,
      main_loop (rt := Sample.runtime) Sample.env_rising 40 (repeat recv_steps 2)
                (Sample.start Sample.capture) = Done (Continue stj) /\
      step stj = 2 /\
      iteration (rt := Sample.runtime) Sample.env_rising 40 recv_steps stj
        = Done (Continue st') /\
      skips st' = 9 /\
      written (stdout st') = written (stdout stj) ++ bytes /\
      len bytes = 12) /\
  main_loop (rt := Sample.runtime) Sample.env_skips 20 (repeat recv_steps (Z.to_nat 4))
      (Sample.start Sample.capture)
    = Done (Continue {| step := 0 + 4; skips := 9;
                        rng := skip Sample.rand1 11; stdout := Sample.capture |}).
Proof.
  split.
  - destruct (proj1 (emission_gate (rt := Sample.runtime) Sample.env_rising 40)
                (Sample.start Sample.capture) 9 (skip Sample.rand1 11))
      with (j := 2%nat)
      as (stj & st' & bytes & Hrun & Hs & _ & Hit & Hk & Hw & Hlen & _).
    + simpl. lia.
    + simpl. lia.
    + vm_compute. discriminate.
    + reflexivity.
    + vm_compute. reflexivity.
    + apply (NewRandomOutput_pool_ok Sample.rand0 32 4 _ Sample.rand1); [|lia].
      vm_compute. reflexivity.
    + intros h p. reflexivity.
    + intros st0 H0. cbn [Sample.start step Sample.env_rising opts_sliceLen] in H0.
      unfold chars.
      assert (Hc : step st0 = 0 \/ step st0 = 1 \/ step st0 = 2 \/ step st0 = 3 \/
                   step st0 = 4 \/ step st0 = 5 \/ step st0 = 6 \/ step st0 = 7 \/
                   step st0 = 8 \/ step st0 = 9 \/ step st0 = 10 \/ step st0 = 11) by lia.
      repeat (destruct Hc as [Hc | Hc]); rewrite Hc; vm_compute; lia.
    + simpl. lia.
    + exists stj, st', bytes. split; [exact Hrun|]. split; [exact Hs|].
      split; [exact Hit|]. split; [exact Hk|]. split; [exact Hw|].
      rewrite Hlen. unfold chars. rewrite Hs. vm_compute. reflexivity.
  - apply (proj2 (emission_gate (rt := Sample.runtime) Sample.env_skips 20)
             (Sample.start Sample.capture) 9 (skip Sample.rand1 11) 4).
    + simpl. lia.
    + simpl. lia.
    + simpl. unfold Int.max_int. lia.
    + reflexivity.
    + vm_compute. reflexivity.
    + simpl. lia.
    + simpl. lia.
Defined.

(** C2, where the sentence fails: "bytes are emitted if and only if
    [sliceIdx < sliceLen - skips]".  At step 0 of a ramp that peaks at
    step 5 the draw is 9 of 12, so [0 < 12 - 9] holds, and the
    character count is [int(32.0 * (0.0 / 5.0)) = 0]: the step is taken
    and nothing is written. *)
Lemma active_step_writes_nothing :
  exists st',
    iteration (rt := Sample.runtime) Sample.env_rising 40 recv_steps
              (Sample.start Sample.capture) = Done (Continue st') /\
    Int.rem (step (Sample.start Sample.capture)) (opts_sliceLen Sample.env_rising)
      = Some 0 /\
    sampleSkips (rt := Sample.runtime) 40 (rng (Sample.start Sample.capture))
                (opts_skips Sample.env_rising) (opts_skipProb Sample.env_rising)
      = Done (9, skip Sample.rand1 11) /\
    skips st' = 9 /\
    (0 <? Int.sub (opts_sliceLen Sample.env_rising) (skips st')) = true /\
    chars (rt := Sample.runtime) Sample.env_rising (Sample.start Sample.capture) = 0 /\
    written (stdout st') = written (stdout (Sample.start Sample.capture)) /\
    written (stdout st') = [].
Proof.
  eexists. split; [vm_compute; reflexivity|].
  repeat split; vm_compute; reflexivity.
Qed.

(* ------------------------------------------------------------------ *)
(** * C4 *)


Lemma first_fall_next r p l n :
  first_fall r p l (S (S n)) <->
  F64.leb (F64.mul p (units r (cursor r))) l = false /\
  first_fall (advance r) (F64.mul p (units r (cursor r))) l (S n).
Proof.
  unfold first_fall. split.
  - intros [Hbefore Hat]. split; [apply (Hbefore 1%nat); lia|].
    split; [|exact Hat]. intros i Hi. apply (Hbefore (S i)). lia.
  - intros (H1 & Hbefore & Hat). split; [|exact Hat].
    intros [|[|i]] Hi; [lia | exact H1 | apply (Hbefore (S i)); lia].
Qed.

Lemma first_fall_one r p l :
  first_fall r p l 1 <-> F64.leb (F64.mul p (units r (cursor r))) l = true.
Proof.
  unfold first_fall. cbn [product]. split; [intros [_ H]; exact H|].
  intros H; split; [intros i Hi; lia | exact H].
Qed.


Lemma sampleSkips_loop_inv fuel : forall r l k p k' r',
  Int.min_int <= k -> k + Z.of_nat fuel <= Int.max_int + 1 ->
  sampleSkips_loop fuel r l k p = Done (k', r') ->
  exists j, (j < fuel)%nat /\ k' = k + Z.of_nat j /\
            first_fall r p l (S j) /\ r' = skip r (S j).
Proof.
  induction fuel as [|fuel IH]; intros r l k p k' r' Hmin Hmax Hs; [discriminate|].
  cbn [sampleSkips_loop Float64] in Hs.
  destruct (F64.leb (F64.mul p (units r (cursor r))) l) eqn:Hle.
  - inversion Hs; subst. exists 0%nat. split; [lia|]. split; [lia|].
    split; [apply first_fall_one; exact Hle | reflexivity].
  - destruct fuel as [|fuel']; [discriminate|].
    assert (Hadd : Int.add k 1 = k + 1).
    { apply wrap_id. int_lia. }
    rewrite Hadd in Hs. apply IH in Hs as (j & Hj & -> & Hfall & ->); [|lia|lia].
    exists (S j). split; [lia|]. split; [lia|].
    split; [apply first_fall_next; auto | apply skip_advance].
Qed.

Section Claim4.

Context {rt : Runtime}.


End Claim4.


(* ------------------------------------------------------------------ *)
(** * Rounding to nearest even, on integers *)




Lemma digits2_pos_log2 p : Z.pos (digits2_pos p) = Z.log2 (Z.pos p) + 1.
Proof.
  induction p as [p IH|p IH|]; cbn [digits2_pos].
  - rewrite Pos2Z.inj_succ, IH.
    change (Z.pos p~1) with (2 * Z.pos p + 1). rewrite Z.log2_succ_double by lia. lia.
  - rewrite Pos2Z.inj_succ, IH.
    change (Z.pos p~0) with (2 * Z.pos p). rewrite Z.log2_double by lia. lia.
  - reflexivity.
Qed.

Lemma rne_round m N D :
  0 < D -> m = N / D ->
  round_nearest_even m (loc_of N D) = rne N D.
Proof.
  intros HD ->. unfold loc_of, rne, round_nearest_even.
  destruct (Z.eqb_spec (N mod D) 0) as [H0|H0].
  - rewrite H0. cbn. destruct D; lia || reflexivity.
  - destruct (2 * (N mod D) ?= D); reflexivity.
Qed.

Lemma rne_bounds N D :
  0 < D -> N / D <= rne N D <= N / D + 1.
Proof.
  intros HD. unfold rne.
  destruct (2 * (N mod D) ?= D); [destruct (Z.even (N / D))| |]; lia.
Qed.

Lemma rne_mono N1 N2 D :
  0 < D -> N1 <= N2 -> rne N1 D <= rne N2 D.
Proof.
  intros HD HN.
  pose proof (Z.div_le_mono N1 N2 D HD HN) as Hq.
  destruct (Z.eq_dec (N1 / D) (N2 / D)) as [Heq|Hne].
  - assert (Hr : N1 mod D <= N2 mod D).
    { rewrite !Z.mod_eq by lia. rewrite Heq. lia. }
    unfold rne. rewrite Heq.
    destruct (Z.compare_spec (2 * (N1 mod D)) D), (Z.compare_spec (2 * (N2 mod D)) D);
      try destruct (Z.even (N2 / D)); lia.
  - pose proof (rne_bounds N1 D HD). pose proof (rne_bounds N2 D HD). lia.
Qed.

Lemma rne_scale c N D :
  0 < c -> 0 < D -> rne (c * N) (c * D) = rne N D.
Proof.
  intros Hc HD. unfold rne.
  rewrite Z.div_mul_cancel_l by lia.
  rewrite Zmult_mod_distr_l.
  replace (2 * (c * (N mod D))) with (c * (2 * (N mod D))) by lia.
  destruct c as [|c|c]; try lia.
  rewrite Zcompare_mult_compat. reflexivity.
Qed.

Lemma shr_1_holds N D mrs :
  0 <= N -> 0 < D -> holds N D mrs -> holds N (2 * D) (shr_1 mrs).
Proof.
  intros HN HD [Hm Hl].
  assert (Hq : N / (2 * D) = (N / D) / 2).
  { rewrite (Z.mul_comm 2 D), Z.div_div by lia. reflexivity. }
  assert (Hrem : N mod (2 * D) = D * ((N / D) mod 2) + N mod D).
  { rewrite (Z.mul_comm 2 D), Z.rem_mul_r by lia. lia. }
  pose proof (Z.mod_pos_bound N D HD) as Hb.
  pose proof (Z.div_pos N D HN HD) as Hq0.
  pose proof (Z.mod_pos_bound (N / D) 2 ltac:(lia)) as Hb2.
  pose proof (Z.div_mod (N / D) 2 ltac:(lia)) as Hdm.
  unfold holds, loc_of in *. rewrite Hq, Hrem.
  destruct mrs as [m r s]; cbn [shr_m] in Hm; subst m.
  assert (Hs : orb r s = negb (N mod D =? 0)).
  { destruct (Z.eqb_spec (N mod D) 0) as [H0|H0];
      destruct r, s; cbn in Hl; try discriminate; try reflexivity;
      destruct (2 * (N mod D) ?= D); discriminate. }
  clear Hl.
  destruct (N / D) as [|p|p] eqn:Hp; [| |lia].
  - cbn [shr_1 shr_m]. rewrite Hs. change (0 mod 2) with 0. change (0 / 2) with 0.
    rewrite Z.mul_0_r, Z.add_0_l. split; [reflexivity|].
    destruct (Z.eqb_spec (N mod D) 0); cbn [negb loc_of_shr_record]; [reflexivity|].
    destruct (Z.compare_spec (2 * (N mod D)) (2 * D)); lia || reflexivity.
  - destruct p as [p|p|]; cbn [shr_1 shr_m]; rewrite Hs.
    + change (Z.pos p~1) with (2 * Z.pos p + 1) in *.
      assert (H2 : (2 * Z.pos p + 1) mod 2 = 1) by lia.
      assert (H3 : (2 * Z.pos p + 1) / 2 = Z.pos p) by lia.
      rewrite H2, H3. split; [reflexivity|].
      destruct (Z.eqb_spec (D * 1 + N mod D) 0); [lia|].
      destruct (Z.eqb_spec (N mod D) 0); cbn [negb loc_of_shr_record];
        destruct (Z.compare_spec (2 * (D * 1 + N mod D)) (2 * D)); lia || reflexivity.
    + change (Z.pos p~0) with (2 * Z.pos p) in *.
      assert (H2 : (2 * Z.pos p) mod 2 = 0) by lia.
      assert (H3 : (2 * Z.pos p) / 2 = Z.pos p) by lia.
      rewrite H2, H3, Z.mul_0_r, Z.add_0_l. split; [reflexivity|].
      destruct (Z.eqb_spec (N mod D) 0); cbn [negb loc_of_shr_record]; [reflexivity|].
      destruct (Z.compare_spec (2 * (N mod D)) (2 * D)); lia || reflexivity.
    + change (1 mod 2) with 1. change (1 / 2) with 0. split; [reflexivity|].
      destruct (Z.eqb_spec (D * 1 + N mod D) 0); [lia|].
      destruct (Z.eqb_spec (N mod D) 0); cbn [negb loc_of_shr_record];
        destruct (Z.compare_spec (2 * (D * 1 + N mod D)) (2 * D)); lia || reflexivity.
Qed.

Lemma iter_pos_shr_1_holds N n : forall D mrs,
  0 <= N -> 0 < D -> holds N D mrs ->
  holds N (D * 2 ^ Z.pos n) (iter_pos shr_1 n mrs).
Proof.
  induction n as [n IH|n IH|]; intros D mrs HN HD Hh; cbn [iter_pos].
  - replace (D * 2 ^ Z.pos n~1) with (2 * D * 2 ^ Z.pos n * 2 ^ Z.pos n).
    + apply IH; [lia| |].
      * pose proof (Z.pow_pos_nonneg 2 (Z.pos n)). lia.
      * apply IH; [lia|lia|]. apply shr_1_holds; assumption.
    + replace (Z.pos n~1) with (Z.pos n + Z.pos n + 1) by lia.
      rewrite !Z.pow_add_r by lia. change (2 ^ 1) with 2. ring.
  - replace (D * 2 ^ Z.pos n~0) with (D * 2 ^ Z.pos n * 2 ^ Z.pos n).
    + apply IH; [lia| |].
      * pose proof (Z.pow_pos_nonneg 2 (Z.pos n)). lia.
      * apply IH; assumption.
    + replace (Z.pos n~0) with (Z.pos n + Z.pos n) by lia.
      rewrite !Z.pow_add_r by lia. ring.
  - change (2 ^ 1) with 2. rewrite Z.mul_comm. apply shr_1_holds; assumption.
Qed.


Lemma shr_record_of_loc_holds N D m l :
  m = N / D -> l = loc_of N D -> holds N D (shr_record_of_loc m l).
Proof.
  intros -> ->. unfold holds, loc_of.
  destruct (N mod D =? 0); [split; reflexivity|].
  destruct (2 * (N mod D) ?= D); split; reflexivity.
Qed.

Lemma fexp_normal x : -1074 <= x - 53 -> fexp F64.prec F64.emax x = x - 53.
Proof.
  intros Hx. unfold fexp, emin, F64.prec, F64.emax. lia.
Qed.

Lemma log2_bounds m : 0 < m -> 2 ^ Z.log2 m <= m < 2 ^ (Z.log2 m + 1).
Proof.
  intros Hm. pose proof (Z.log2_spec m Hm). rewrite <- Z.add_1_r in *. lia.
Qed.

Lemma nr_exp_nonneg N D : 2 ^ 52 <= N / D -> 0 <= nr_exp N D.
Proof.
  intros Hm. unfold nr_exp.
  pose proof (Z.log2_le_mono _ _ Hm) as H. rewrite Z.log2_pow2 in H by lia. lia.
Qed.

Lemma nr_quotient N D :
  0 <= N -> 0 < D -> 2 ^ 52 <= N / D ->
  2 ^ 52 <= N / (D * 2 ^ nr_exp N D) < 2 ^ 53.
Proof.
  intros HN HD Hm. pose proof (nr_exp_nonneg N D Hm) as Hk.
  rewrite <- Z.div_div by (try apply Z.pow_pos_nonneg; lia).
  assert (Hpos : 0 < N / D) by lia.
  pose proof (log2_bounds (N / D) Hpos) as [Hlo Hhi].
  unfold nr_exp in *. set (L := Z.log2 (N / D)) in *.
  replace L with (52 + (L - 52)) in Hlo at 1 by lia.
  replace (L + 1) with (53 + (L - 52)) in Hhi by lia.
  rewrite Z.pow_add_r in Hlo, Hhi by lia.
  assert (H2 : 0 < 2 ^ (L - 52)) by (apply Z.pow_pos_nonneg; lia).
  split.
  - apply Z.div_le_lower_bound; lia.
  - apply Z.div_lt_upper_bound; lia.
Qed.

Lemma nr_man_bounds N D :
  0 <= N -> 0 < D -> 2 ^ 52 <= N / D ->
  2 ^ 52 <= nr_man N D <= 2 ^ 53.
Proof.
  intros HN HD Hm. pose proof (nr_quotient N D HN HD Hm) as Hq.
  pose proof (nr_exp_nonneg N D Hm) as Hk.
  assert (H2 : 0 < 2 ^ nr_exp N D) by (apply Z.pow_pos_nonneg; lia).
  pose proof (rne_bounds N (D * 2 ^ nr_exp N D) ltac:(lia)).
  unfold nr_man. lia.
Qed.

Lemma Zdigits2_log2 m : 0 < m -> Zdigits2 m = Z.log2 m + 1.
Proof.
  destruct m as [|p|p]; try lia. intros _. apply digits2_pos_log2.
Qed.

Lemma shr_fexp_holds N D m l e :
  0 <= N -> 0 < D -> m = N / D -> l = loc_of N D ->
  2 ^ 52 <= m -> -1074 <= e ->
  exists mrs,
    shr_fexp F64.prec F64.emax m e l = (mrs, e + nr_exp N D) /\
    holds N (D * 2 ^ nr_exp N D) mrs.
Proof.
  intros HN HD Hm Hl Hbig He.
  pose proof (nr_exp_nonneg N D ltac:(subst m; exact Hbig)) as Hk.
  unfold shr_fexp. rewrite Zdigits2_log2 by lia.
  assert (Hlog : 52 <= Z.log2 m).
  { pose proof (Z.log2_le_mono _ _ Hbig) as H. rewrite Z.log2_pow2 in H by lia. exact H. }
  rewrite fexp_normal by lia.
  replace (Z.log2 m + 1 + e - 53 - e) with (nr_exp N D) by (unfold nr_exp; subst m; lia).
  pose proof (shr_record_of_loc_holds N D m l Hm Hl) as Hh.
  unfold shr. destruct (nr_exp N D) as [|n|n] eqn:Hn; [| |lia].
  - eexists; split; [rewrite Z.add_0_r; reflexivity|].
    change (2 ^ 0) with 1. rewrite Z.mul_1_r. exact Hh.
  - eexists; split; [reflexivity|]. apply iter_pos_shr_1_holds; assumption.
Qed.

Lemma shr_fexp_53_bits M e :
  2 ^ 52 <= M < 2 ^ 53 -> -1074 <= e ->
  shr_fexp F64.prec F64.emax M e loc_Exact
    = ({| shr_m := M; shr_r := false; shr_s := false |}, e).
Proof.
  intros HM He. unfold shr_fexp. rewrite Zdigits2_log2 by lia.
  assert (Hlog : Z.log2 M = 52).
  { apply Z.log2_unique; [lia|]. change (52 + 1) with 53. exact HM. }
  rewrite Hlog, fexp_normal by lia.
  replace (52 + 1 + e - 53 - e) with 0 by lia. reflexivity.
Qed.

Lemma shr_fexp_carry e :
  -1074 <= e ->
  shr_fexp F64.prec F64.emax (2 ^ 53) e loc_Exact
    = ({| shr_m := 2 ^ 52; shr_r := false; shr_s := false |}, e + 1).
Proof.
  intros He. unfold shr_fexp.
  change (Zdigits2 (2 ^ 53)) with 54.
  rewrite fexp_normal by lia.
  replace (54 + e - 53 - e) with 1 by lia. reflexivity.
Qed.

(** [binary_round_aux] on a value of at least 53 bits, away from the
    subnormal and the overflow range. *)
Lemma binary_round_aux_normal N D m l e :
  0 <= N -> 0 < D -> m = N / D -> l = loc_of N D ->
  2 ^ 52 <= m -> -1074 <= e -> e + nr_exp N D < 971 ->
  binary_round_aux F64.prec F64.emax false m e l
    = pack (nr_man N D) (e + nr_exp N D).
Proof.
  intros HN HD Hm Hl Hbig He Hmax.
  pose proof (nr_exp_nonneg N D ltac:(subst m; exact Hbig)) as Hk.
  pose proof (nr_man_bounds N D HN HD ltac:(subst m; exact Hbig)) as HM.
  destruct (shr_fexp_holds N D m l e HN HD Hm Hl Hbig He) as (mrs & Hshr & Hm' & Hl').
  unfold binary_round_aux. rewrite Hshr.
  assert (H2 : 0 < 2 ^ nr_exp N D) by (apply Z.pow_pos_nonneg; lia).
  rewrite Hl', (rne_round _ N (D * 2 ^ nr_exp N D)) by (trivial; lia).
  fold (nr_man N D). unfold pack.
  destruct (Z.eqb_spec (nr_man N D) (2 ^ 53)) as [Hc|Hc].
  - rewrite Hc, shr_fexp_carry by lia. cbn [shr_m].
    change (2 ^ 52) with (Z.pos (Z.to_pos (2 ^ 52))) at 1. cbv iota beta.
    unfold F64.emax, F64.prec.
    destruct (Z.leb_spec (e + nr_exp N D + 1) (1024 - 53)); [reflexivity | lia].
  - rewrite shr_fexp_53_bits by lia. cbn [shr_m].
    destruct (nr_man N D) as [|M|M] eqn:HMe; try lia.
    unfold F64.emax, F64.prec.
    destruct (Z.leb_spec (e + nr_exp N D) (1024 - 53)); [reflexivity | lia].
Qed.

Lemma nr_exp_shift N D a :
  0 <= N -> 0 < D -> 2 ^ 52 <= N / D -> 0 <= a ->
  nr_exp (N * 2 ^ a) D = nr_exp N D + a.
Proof.
  intros HN HD Hm Ha. unfold nr_exp.
  assert (Hpos : 0 < N / D) by lia.
  pose proof (log2_bounds (N / D) Hpos) as [Hlo Hhi].
  assert (H2 : 0 < 2 ^ a) by (apply Z.pow_pos_nonneg; lia).
  assert (HL : 0 <= Z.log2 (N / D)) by apply Z.log2_nonneg.
  enough (Z.log2 (N * 2 ^ a / D) = Z.log2 (N / D) + a) by lia.
  apply Z.log2_unique; [lia|].
  replace (Z.succ (Z.log2 (N / D) + a)) with (Z.log2 (N / D) + 1 + a) by lia.
  rewrite (Z.pow_add_r 2 (Z.log2 (N / D)) a), (Z.pow_add_r 2 (Z.log2 (N / D) + 1) a) by lia.
  pose proof (Z.div_mod N D ltac:(lia)) as Hdm.
  pose proof (Z.mod_pos_bound N D HD) as Hb.
  set (A := 2 ^ Z.log2 (N / D)) in *. set (B := 2 ^ (Z.log2 (N / D) + 1)) in *.
  set (q := N / D) in *. set (C := 2 ^ a) in *.
  clearbody A B q C.
  assert (H1 : D * A <= N) by nia.
  assert (H3 : N < D * B) by nia.
  split.
  - apply Z.div_le_lower_bound; [lia|].
    replace (D * (A * C)) with (D * A * C) by ring.
    apply Z.mul_le_mono_nonneg_r; lia.
  - apply Z.div_lt_upper_bound; [lia|].
    replace (D * (B * C)) with (D * B * C) by ring.
    apply Z.mul_lt_mono_pos_r; lia.
Qed.

Lemma nr_man_shift N D a :
  0 <= N -> 0 < D -> 2 ^ 52 <= N / D -> 0 <= a ->
  nr_man (N * 2 ^ a) D = nr_man N D.
Proof.
  intros HN HD Hm Ha. unfold nr_man. rewrite nr_exp_shift by assumption.
  pose proof (nr_exp_nonneg N D Hm) as Hk.
  rewrite Z.pow_add_r by lia.
  replace (N * 2 ^ a) with (2 ^ a * N) by lia.
  replace (D * (2 ^ nr_exp N D * 2 ^ a)) with (2 ^ a * (D * 2 ^ nr_exp N D)) by lia.
  apply rne_scale.
  - apply Z.pow_pos_nonneg; lia.
  - assert (0 < 2 ^ nr_exp N D) by (apply Z.pow_pos_nonneg; lia). lia.
Qed.

Lemma leb_finite m1 e1 m2 e2 :
  e1 < e2 \/ (e1 = e2 /\ Z.pos m1 <= Z.pos m2) ->
  F64.leb (S754_finite false m1 e1) (S754_finite false m2 e2) = true.
Proof.
  unfold F64.leb, SFleb, SFcompare. intros [Hlt|[-> Hle]].
  - apply Z.compare_lt_iff in Hlt. rewrite Hlt. reflexivity.
  - rewrite Z.compare_refl. fold (Pos.compare m1 m2).
    destruct (Pos.compare_spec m1 m2); try reflexivity. lia.
Qed.

Lemma pack_finite M E :
  2 ^ 52 <= M <= 2 ^ 53 ->
  exists m e, pack M E = S754_finite false m e /\
              2 ^ 52 <= Z.pos m < 2 ^ 53 /\
              (e = E /\ Z.pos m = M \/ e = E + 1 /\ M = 2 ^ 53 /\ Z.pos m = 2 ^ 52).
Proof.
  intros HM. unfold pack. destruct (Z.eqb_spec M (2 ^ 53)) as [->|Hne].
  - eexists; eexists; split; [reflexivity|]. split; [|right; auto].
    rewrite Z2Pos.id; lia.
  - eexists; eexists; split; [reflexivity|]. rewrite Z2Pos.id by lia.
    split; [lia | left; auto].
Qed.

Lemma pack_le M1 E1 M2 E2 :
  2 ^ 52 <= M1 <= 2 ^ 53 -> 2 ^ 52 <= M2 <= 2 ^ 53 ->
  E1 < E2 \/ (E1 = E2 /\ M1 <= M2) ->
  F64.leb (pack M1 E1) (pack M2 E2) = true.
Proof.
  intros H1 H2 Hle.
  destruct (pack_finite M1 E1 H1) as (m1 & e1 & -> & Hm1 & Hc1).
  destruct (pack_finite M2 E2 H2) as (m2 & e2 & -> & Hm2 & Hc2).
  apply leb_finite. lia.
Qed.

(** Rounding is monotone: Claim on one denominator and one base exponent. *)
Lemma pack_nr_mono N1 N2 D e :
  0 <= N1 <= N2 -> 0 < D -> 2 ^ 52 <= N1 / D ->
  F64.leb (pack (nr_man N1 D) (e + nr_exp N1 D))
          (pack (nr_man N2 D) (e + nr_exp N2 D)) = true.
Proof.
  intros HN HD Hm.
  pose proof (Z.div_le_mono N1 N2 D HD ltac:(lia)) as Hq.
  assert (Hk : nr_exp N1 D <= nr_exp N2 D).
  { unfold nr_exp. pose proof (Z.log2_le_mono _ _ Hq). lia. }
  apply pack_le; try (apply nr_man_bounds; lia).
  destruct (Z.eq_dec (nr_exp N1 D) (nr_exp N2 D)) as [Heq|Hne]; [right|left; lia].
  split; [lia|]. unfold nr_man. rewrite Heq.
  apply rne_mono; [|lia].
  pose proof (nr_exp_nonneg N2 D ltac:(lia)).
  assert (0 < 2 ^ nr_exp N2 D) by (apply Z.pow_pos_nonneg; lia). lia.
Qed.

Lemma new_location_loc_of N D :
  0 < D -> new_location D (N mod D) = loc_of N D.
Proof.
  intros HD. pose proof (Z.mod_pos_bound N D HD) as Hb.
  unfold new_location, new_location_even, new_location_odd, loc_of.
  destruct (Z.even D) eqn:Hev; [reflexivity|].
  destruct (Z.eqb_spec (N mod D) 0); [reflexivity|]. f_equal.
  assert (Hodd : Z.odd D = true) by (rewrite <- Z.negb_even, Hev; reflexivity).
  apply Z.odd_spec in Hodd as [c Hc].
  destruct (Z.compare_spec (2 * (N mod D) + 1) D), (Z.compare_spec (2 * (N mod D)) D);
    lia || reflexivity.
Qed.

Lemma pos_iter_xO n : forall p, Z.pos (Pos.iter xO p n) = Z.pos p * 2 ^ Z.pos n.
Proof.
  induction n as [|n IH] using Pos.peano_ind; intros p.
  - cbn [Pos.iter]. change (2 ^ 1) with 2. lia.
  - rewrite Pos.iter_succ, Pos2Z.inj_xO, IH, Pos2Z.inj_succ, Z.pow_succ_r by lia. ring.
Qed.

(** [float64(z)] for a positive integer. *)
Lemma of_int_pos z :
  0 < z < 2 ^ 64 ->
  F64.of_int z = pack (nr_man (z * 2 ^ 52) 1) (nr_exp (z * 2 ^ 52) 1 - 52).
Proof.
  intros Hz. destruct z as [|p|p]; try lia.
  unfold F64.of_int, binary_normalize, binary_round.
  rewrite Z.add_0_r, digits2_pos_log2.
  pose proof (log2_bounds (Z.pos p) ltac:(lia)) as [Hlo Hhi].
  pose proof (Z.log2_nonneg (Z.pos p)) as HL.
  assert (HL64 : Z.log2 (Z.pos p) < 64).
  { apply Z.log2_lt_pow2; lia. }
  rewrite fexp_normal by lia.
  unfold shl_align. rewrite Z.sub_0_r.
  destruct (Z.log2 (Z.pos p) + 1 - 53) as [|d|d] eqn:Hd.
  - (* exactly 53 bits *)
    rewrite (binary_round_aux_normal (Z.pos p) 1); try lia.
    + assert (Hbig : 2 ^ 52 <= Z.pos p / 1).
      { rewrite Z.div_1_r. replace (Z.log2 (Z.pos p)) with 52 in Hlo by lia. exact Hlo. }
      rewrite (nr_man_shift (Z.pos p) 1 52), (nr_exp_shift (Z.pos p) 1 52) by (trivial; lia).
      f_equal. lia.
    + rewrite Z.div_1_r. reflexivity.
    + unfold loc_of. rewrite Z.mod_1_r. reflexivity.
    + replace (Z.log2 (Z.pos p)) with 52 in Hlo by lia. exact Hlo.
    + unfold nr_exp. rewrite Z.div_1_r. lia.
  - (* more than 53 bits *)
    assert (Hbig : 2 ^ 52 <= Z.pos p).
    { eapply Z.le_trans; [|exact Hlo]. apply Z.pow_le_mono_r; lia. }
    rewrite (binary_round_aux_normal (Z.pos p) 1); try lia.
    + rewrite (nr_man_shift (Z.pos p) 1 52), (nr_exp_shift (Z.pos p) 1 52)
        by (rewrite ?Z.div_1_r; trivial; lia).
      f_equal. lia.
    + rewrite Z.div_1_r. reflexivity.
    + unfold loc_of. rewrite Z.mod_1_r. reflexivity.
    + unfold nr_exp. rewrite Z.div_1_r. lia.
  - (* fewer than 53 bits: the mantissa is shifted left *)
    set (N := Z.pos (Pos.iter xO p d)).
    assert (HN : N = Z.pos p * 2 ^ Z.pos d) by apply pos_iter_xO.
    assert (Hsum : Z.log2 (Z.pos p) + Z.pos d = 52) by lia.
    assert (Hbig : 2 ^ 52 <= N).
    { rewrite HN, <- Hsum, Z.pow_add_r by lia.
      apply Z.mul_le_mono_nonneg_r; [apply Z.pow_nonneg; lia | exact Hlo]. }
    rewrite (binary_round_aux_normal N 1); try lia.
    + assert (Hshift : Z.pos p * 2 ^ 52 = N * 2 ^ Z.log2 (Z.pos p)).
      { rewrite HN, <- Z.mul_assoc, <- Z.pow_add_r by lia. f_equal. f_equal. lia. }
      rewrite Hshift, nr_man_shift, nr_exp_shift by (rewrite ?Z.div_1_r; trivial; lia).
      f_equal. lia.
    + rewrite Z.div_1_r. reflexivity.
    + unfold loc_of. rewrite Z.mod_1_r. reflexivity.
    + assert (Hup : N < 2 ^ 53).
      { rewrite HN. replace 53 with (Z.log2 (Z.pos p) + 1 + Z.pos d) by lia.
        rewrite (Z.pow_add_r 2 (Z.log2 (Z.pos p) + 1)) by lia.
        apply Z.mul_lt_mono_pos_r; [apply Z.pow_pos_nonneg; lia | exact Hhi]. }
      unfold nr_exp. rewrite Z.div_1_r.
      assert (Z.log2 N = 52) by (apply Z.log2_unique; [lia | split; [exact Hbig | exact Hup]]).
      lia.
Qed.


Lemma of_int_exponent z :
  0 < z < 2 ^ 64 -> nr_exp (z * 2 ^ 52) 1 - 52 = Z.log2 z - 52.
Proof.
  intros Hz. unfold nr_exp. rewrite Z.div_1_r, Z.log2_mul_pow2 by lia. lia.
Qed.

Lemma of_int_normal z :
  0 < z < 2 ^ 64 ->
  exists m e, normal (F64.of_int z) m e /\ -52 <= e <= 12.
Proof.
  intros Hz. rewrite of_int_pos by assumption.
  assert (Hbig : 2 ^ 52 <= z * 2 ^ 52 / 1) by (rewrite Z.div_1_r; lia).
  pose proof (nr_man_bounds (z * 2 ^ 52) 1 ltac:(lia) ltac:(lia) Hbig) as HM.
  destruct (pack_finite _ (nr_exp (z * 2 ^ 52) 1 - 52) HM) as (m & e & Hp & Hm & Hc).
  exists m, e. split; [split; assumption|].
  rewrite of_int_exponent in Hc by assumption.
  pose proof (Z.log2_nonneg z).
  assert (Z.log2 z < 64) by (apply Z.log2_lt_pow2; lia). lia.
Qed.

Lemma of_int_order z1 z2 :
  0 < z1 <= z2 -> z2 < 2 ^ 64 ->
  exists m1 e1 m2 e2,
    normal (F64.of_int z1) m1 e1 /\ normal (F64.of_int z2) m2 e2 /\
    -52 <= e1 <= 12 /\ -52 <= e2 <= 12 /\
    (e1 < e2 \/ (e1 = e2 /\ Z.pos m1 <= Z.pos m2)).
Proof.
  intros Hz1 Hz2. rewrite !of_int_pos by lia.
  assert (Hbig1 : 2 ^ 52 <= z1 * 2 ^ 52 / 1) by (rewrite Z.div_1_r; lia).
  assert (Hbig2 : 2 ^ 52 <= z2 * 2 ^ 52 / 1) by (rewrite Z.div_1_r; lia).
  pose proof (nr_man_bounds (z1 * 2 ^ 52) 1 ltac:(lia) ltac:(lia) Hbig1) as HM1.
  pose proof (nr_man_bounds (z2 * 2 ^ 52) 1 ltac:(lia) ltac:(lia) Hbig2) as HM2.
  destruct (pack_finite _ (nr_exp (z1 * 2 ^ 52) 1 - 52) HM1) as (m1 & e1 & Hp1 & Hm1 & Hc1).
  destruct (pack_finite _ (nr_exp (z2 * 2 ^ 52) 1 - 52) HM2) as (m2 & e2 & Hp2 & Hm2 & Hc2).
  exists m1, e1, m2, e2.
  split; [split; assumption|]. split; [split; assumption|].
  rewrite of_int_exponent in * by lia.
  pose proof (Z.log2_nonneg z1). pose proof (Z.log2_nonneg z2).
  assert (Z.log2 z1 < 64) by (apply Z.log2_lt_pow2; lia).
  assert (Z.log2 z2 < 64) by (apply Z.log2_lt_pow2; lia).
  pose proof (Z.log2_le_mono z1 z2 ltac:(lia)) as Hlog.
  split; [lia|]. split; [lia|].
  destruct (Z.eq_dec (Z.log2 z1) (Z.log2 z2)) as [Heq|Hne]; [|lia].
  assert (HMle : nr_man (z1 * 2 ^ 52) 1 <= nr_man (z2 * 2 ^ 52) 1).
  { unfold nr_man, nr_exp. rewrite !Z.div_1_r, !Z.log2_mul_pow2, Heq by lia.
    apply rne_mono; [|lia].
    assert (0 < 2 ^ (Z.log2 z2 + 52 - 52)) by (apply Z.pow_pos_nonneg; lia). lia. }
  lia.
Qed.

(** The quotient of two positive normal numbers, away from the
    subnormal and the overflow range. *)
Lemma div_normal mx ex my ey :
  2 ^ 52 <= Z.pos mx < 2 ^ 53 -> 2 ^ 52 <= Z.pos my < 2 ^ 53 ->
  -1000 <= ex - ey <= 900 ->
  F64.div (S754_finite false mx ex) (S754_finite false my ey)
    = pack (nr_man (Z.pos mx * 2 ^ 53) (Z.pos my))
           (ex - ey - 53 + nr_exp (Z.pos mx * 2 ^ 53) (Z.pos my)).
Proof.
  intros Hmx Hmy He. unfold F64.div, SFdiv, SFdiv_core_binary.
  rewrite !Zdigits2_log2 by lia.
  assert (Hlx : Z.log2 (Z.pos mx) = 52) by (apply Z.log2_unique; lia).
  assert (Hly : Z.log2 (Z.pos my) = 52) by (apply Z.log2_unique; lia).
  rewrite Hlx, Hly.
  replace (52 + 1 + ex - (52 + 1 + ey)) with (ex - ey) by lia.
  rewrite fexp_normal by lia.
  rewrite Z.min_l by lia.
  replace (ex - ey - (ex - ey - 53)) with 53 by lia.
  cbv iota beta. rewrite Z.shiftl_mul_pow2 by lia.
  set (N := Z.pos mx * 2 ^ 53).
  assert (Hdiv : Z.div_eucl N (Z.pos my) = (N / Z.pos my, N mod Z.pos my)).
  { unfold Z.div, Z.modulo. destruct (Z.div_eucl N (Z.pos my)); reflexivity. }
  rewrite Hdiv. cbn [xorb].
  assert (Hq : 2 ^ 52 <= N / Z.pos my).
  { apply Z.div_le_lower_bound; [lia|]. unfold N. nia. }
  assert (Hq' : N / Z.pos my < 2 ^ 54).
  { apply Z.div_lt_upper_bound; [lia|]. unfold N. nia. }
  assert (Hk : nr_exp N (Z.pos my) <= 1).
  { unfold nr_exp. assert (Z.log2 (N / Z.pos my) < 54) by (apply Z.log2_lt_pow2; lia). lia. }
  apply binary_round_aux_normal; try lia.
  apply new_location_loc_of. lia.
Qed.

Lemma div_mono m1 e1 m2 e2 my ey :
  2 ^ 52 <= Z.pos m1 < 2 ^ 53 -> 2 ^ 52 <= Z.pos m2 < 2 ^ 53 ->
  2 ^ 52 <= Z.pos my < 2 ^ 53 ->
  -1000 <= e1 - ey <= 900 -> -1000 <= e2 - ey <= 900 ->
  e1 < e2 \/ (e1 = e2 /\ Z.pos m1 <= Z.pos m2) ->
  F64.leb (F64.div (S754_finite false m1 e1) (S754_finite false my ey))
          (F64.div (S754_finite false m2 e2) (S754_finite false my ey)) = true.
Proof.
  intros H1 H2 Hy He1 He2 Hle.
  rewrite !div_normal by assumption.
  assert (Hq : forall m, 2 ^ 52 <= Z.pos m -> 2 ^ 52 <= Z.pos m * 2 ^ 53 / Z.pos my).
  { intros m Hm. apply Z.div_le_lower_bound; [lia|]. nia. }
  destruct Hle as [Hlt|[-> Hm]].
  - rewrite <- (nr_man_shift (Z.pos m2 * 2 ^ 53) (Z.pos my) (e2 - e1)) by (try apply Hq; lia).
    replace (e2 - ey - 53 + nr_exp (Z.pos m2 * 2 ^ 53) (Z.pos my))
      with (e1 - ey - 53 + nr_exp (Z.pos m2 * 2 ^ 53 * 2 ^ (e2 - e1)) (Z.pos my)).
    + apply pack_nr_mono; [|lia|apply Hq; lia].
      assert (2 <= 2 ^ (e2 - e1)).
      { change 2 with (2 ^ 1) at 1. apply Z.pow_le_mono_r; lia. }
      nia.
    + rewrite nr_exp_shift by (try apply Hq; lia). lia.
  - apply pack_nr_mono; [|lia|apply Hq; lia]. nia.
Qed.

(* ------------------------------------------------------------------ *)
(** * C8 *)

Lemma leb_zero_div z P :
  0 <= z -> 0 < P -> z < 2 ^ 64 -> P < 2 ^ 64 ->
  F64.leb F64.zero (F64.div (F64.of_int z) (F64.of_int P)) = true.
Proof.
  intros Hz HP Hz' HP'.
  destruct (of_int_normal P ltac:(lia)) as (my & ey & [Hy Hmy] & Hey).
  destruct (Z.eq_dec z 0) as [->|Hnz].
  - rewrite Hy. reflexivity.
  - destruct (of_int_normal z ltac:(lia)) as (mx & ex & [Hx Hmx] & Hex).
    rewrite Hx, Hy, div_normal by lia.
    assert (Hq : 2 ^ 52 <= Z.pos mx * 2 ^ 53 / Z.pos my).
    { apply Z.div_le_lower_bound; [lia|]. nia. }
    pose proof (nr_man_bounds (Z.pos mx * 2 ^ 53) (Z.pos my) ltac:(lia) ltac:(lia) Hq) as HM.
    destruct (pack_finite _ (ex - ey - 53 + nr_exp (Z.pos mx * 2 ^ 53) (Z.pos my)) HM)
      as (m & e & -> & _). reflexivity.
Qed.

(** C8.  For a ramp shaper with [PeakStep > 0]: at a step below the
    peak the fraction is the float64 quotient of the two integers
    converted to float64, from the peak on it is 1.0, so it is 1.0 at
    the peak; and below the peak it never decreases as the step grows,
    roundings included. *)
Theorem RampShaper_Fraction_ramp (s : RampShaper)
    (Hpeak : 0 < PeakStep s <= Int.max_int) :
  (forall step, 0 <= step < PeakStep s ->
     Fraction s step = F64.div (F64.of_int step) (F64.of_int (PeakStep s))) /\
  (forall step, PeakStep s <= step -> Fraction s step = F64.one) /\
  Fraction s (PeakStep s) = F64.one /\
  (forall s1 s2, 0 <= s1 <= s2 -> s2 < PeakStep s ->
     F64.leb (Fraction s s1) (Fraction s s2) = true).
Proof.
  assert (Hbelow : forall step, step < PeakStep s ->
            Fraction s step = F64.div (F64.of_int step) (F64.of_int (PeakStep s))).
  { intros step Hs. cbn [Fraction Ramp_RateShaper]. unfold RampShaper_Fraction.
    destruct (Z.ltb_spec step (PeakStep s)); [reflexivity | lia]. }
  assert (Habove : forall step, PeakStep s <= step -> Fraction s step = F64.one).
  { intros step Hs. cbn [Fraction Ramp_RateShaper]. unfold RampShaper_Fraction.
    destruct (Z.ltb_spec step (PeakStep s)); [lia | reflexivity]. }
  split; [intros step Hs; apply Hbelow; lia|].
  split; [exact Habove|]. split; [apply Habove; lia|].
  intros s1 s2 Hle Hlt. rewrite !Hbelow by lia.
  unfold Int.max_int in Hpeak.
  destruct (Z.eq_dec s1 0) as [->|Hnz].
  - change (F64.of_int 0) with F64.zero at 1.
    destruct (of_int_normal (PeakStep s) ltac:(lia)) as (my & ey & [Hy Hmy] & Hey).
    rewrite Hy at 1. cbn [F64.div SFdiv F64.zero xorb].
    apply leb_zero_div; lia.
  - destruct (of_int_order s1 s2 ltac:(lia) ltac:(lia))
      as (m1 & e1 & m2 & e2 & [H1 Hm1] & [H2 Hm2] & He1 & He2 & Hord).
    destruct (of_int_normal (PeakStep s) ltac:(lia)) as (my & ey & [Hy Hmy] & Hey).
    rewrite H1, H2, Hy. apply div_mono; trivial; lia.
Qed.

Lemma RampShaper_Fraction_ramp_witness :
  0 < 40 <= Int.max_int /\
  Fraction {| PeakStep := 40 |} 40 = F64.one /\
  F64.leb (Fraction {| PeakStep := 40 |} 12) (Fraction {| PeakStep := 40 |} 13) = true.
Proof.
  assert (H : 0 < PeakStep {| PeakStep := 40 |} <= Int.max_int)
    by (unfold Int.max_int; simpl; lia).
  split; [exact H|].
  destruct (RampShaper_Fraction_ramp {| PeakStep := 40 |} H) as (_ & _ & Hpeak & Hmono).
  split; [exact Hpeak|]. apply Hmono; simpl; lia.
Defined.

(* ------------------------------------------------------------------ *)
(** * C6 and C7 *)




Lemma binary_round_aux_opp s m e l :
  binary_round_aux F64.prec F64.emax (negb s) m e l
    = F64.neg (binary_round_aux F64.prec F64.emax s m e l).
Proof.
  unfold binary_round_aux.
  destruct (shr_fexp F64.prec F64.emax m e l) as [mrs' e'].
  destruct (shr_fexp F64.prec F64.emax _ e' loc_Exact) as [mrs'' e''].
  destruct (shr_m mrs''); [reflexivity| |reflexivity].
  destruct (e'' <=? F64.emax - F64.prec); reflexivity.
Qed.


Lemma of_int_opp d : d <> 0 -> F64.of_int (- d) = F64.neg (F64.of_int d).
Proof.
  intros Hd. destruct d as [|p|p]; [contradiction| |];
    cbn [Z.opp]; unfold F64.of_int, binary_normalize, binary_round;
    destruct (shl_align p 0 _) as [mz ez].
  - apply (binary_round_aux_opp false).
  - apply (binary_round_aux_opp true).
Qed.







Section Claim7.

Context {rt : Runtime}.

Lemma Fraction_bell (s : LogisticShaper) (step : Z) :
  Fraction s step
    = bell (Scale s)
        (Exp (F64.div (F64.neg (F64.of_int (Int.sub step (Mu s))))
                      (F64.of_int (Scale s)))).
Proof. reflexivity. Qed.

(** C6 at a step far before the peak.  With [Mu = 800] and [Scale = 1]
    the argument of [math.Exp] at step 0 is 800, whose exponential is
    beyond every float64: [a] is [+Inf], so is [b], and [a / b] is NaN. *)
Theorem LogisticShaper_Fraction_NaN
    (Hexp : Exp (F64.of_int 800) = F64.inf) :
  Fraction {| Mu := 800; Scale := 1 |} 0 = F64.nan /\
  F64.leb F64.zero (Fraction {| Mu := 800; Scale := 1 |} 0) = false /\
  F64.leb (Fraction {| Mu := 800; Scale := 1 |} 0) F64.one = false.
Proof.
  assert (Hnan : Fraction {| Mu := 800; Scale := 1 |} 0 = F64.nan).
  { rewrite Fraction_bell. cbn [Mu Scale].
    replace (F64.div (F64.neg (F64.of_int (Int.sub 0 800))) (F64.of_int 1))
      with (F64.of_int 800) by (vm_compute; reflexivity).
    rewrite Hexp. vm_compute. reflexivity. }
  rewrite Hnan. repeat split.
Qed.


End Claim7.

Lemma LogisticShaper_Fraction_NaN_witness :
  Exp (Runtime := Sample.runtime) (F64.of_int 800) = F64.inf /\
  Fraction (RateShaper := Logistic_RateShaper (rt := Sample.runtime))
           {| Mu := 800; Scale := 1 |} 0 = F64.nan.
Proof.
  assert (H : Exp (Runtime := Sample.runtime) (F64.of_int 800) = F64.inf)
    by (vm_compute; reflexivity).
  split; [exact H|].
  apply (proj1 (LogisticShaper_Fraction_NaN (rt := Sample.runtime) H)).
Defined.



(* ------------------------------------------------------------------ *)
(** * More of the program: [parseRate] *)

Lemma wrap_mul_wrap a b : Int.wrap (a * Int.wrap b) = Int.wrap (a * b).
Proof.
  unfold Int.wrap.
  replace (a * ((b + 2 ^ 63) mod 2 ^ 64 - 2 ^ 63) + 2 ^ 63)
    with (a * ((b + 2 ^ 63) mod 2 ^ 64) + (2 ^ 63 - a * 2 ^ 63)) by ring.
  replace (a * b + 2 ^ 63) with (a * (b + 2 ^ 63) + (2 ^ 63 - a * 2 ^ 63)) by ring.
  rewrite (Z.add_mod (a * ((b + 2 ^ 63) mod 2 ^ 64))) by lia.
  rewrite Z.mul_mod_idemp_r by lia.
  rewrite <- Z.add_mod by lia. reflexivity.
Qed.

Lemma wrap_exact_iff z : Int.wrap z = z <-> Int.in_range z.
Proof.
  split; [|apply wrap_id]. intros H. rewrite <- H. apply wrap_in_range.
Qed.

Section ParseRate.

Context {pk : Packages}.

Lemma parseRate_last s c :
  parseRate (s ++ [c]) =
    let '(base, err) :=
      ParseInt (match suffix_scale c with Some _ => s | None => s ++ [c] end) in
    match err with
    | Some e => (0, Some (invalid_rate e))
    | None =>
        (Int.mul (match suffix_scale c with Some sc => sc | None => 1 end) base, None)
    end.
Proof.
  unfold parseRate. destruct (s ++ [c]) as [|b t] eqn:Heq.
  - destruct s; discriminate.
  - rewrite <- Heq, last_last, removelast_last.
    destruct (suffix_scale c); reflexivity.
Qed.

(** X1.  A rate that ends in one of [k K m M g G]: the bytes before the
    suffix, and only they, go to [ParseInt].  If that fails, so does
    [parseRate], with the message behind "invalid rate: ".  If it gives
    [base], the result is [scale * base] reduced to 64 bits, with no
    error: the product itself when it fits an [int64], and another
    number when it does not. *)
Theorem parseRate_suffix (s : list Byte.byte) (c : Byte.byte) (scale : Z)
    (Hc : suffix_scale c = Some scale) :
  (forall base e, ParseInt s = (base, Some e) ->
     parseRate (s ++ [c]) = (0, Some (invalid_rate e))) /\
  (forall base, ParseInt s = (base, None) ->
     exists v, parseRate (s ++ [c]) = (v, None) /\
               Int.in_range v /\
               (v - scale * base) mod 2 ^ 64 = 0 /\
               (v = scale * base <-> Int.in_range (scale * base))).
Proof.
  split.
  - intros base e Hp. rewrite parseRate_last, Hc, Hp. reflexivity.
  - intros base Hp. rewrite parseRate_last, Hc, Hp.
    exists (Int.wrap (scale * base)). split; [reflexivity|].
    split; [apply wrap_in_range|]. split; [|apply wrap_exact_iff].
    unfold Int.wrap.
    replace ((scale * base + 2 ^ 63) mod 2 ^ 64 - 2 ^ 63 - scale * base)
      with ((scale * base + 2 ^ 63) mod 2 ^ 64 - (scale * base + 2 ^ 63)) by ring.
    rewrite Zminus_mod, Z.mod_mod, Z.sub_diag by lia. reflexivity.
Qed.

(** X2.  Appending a suffix to a rate that has none multiplies the
    result by the scale of the suffix (in 64 bits) and keeps an error as
    it is; so the two cases of a letter read alike. *)
Theorem parseRate_append_suffix (s : list Byte.byte) (c : Byte.byte) (scale : Z)
    (Hs : s <> [])
    (Hplain : suffix_scale (last s Byte.x00) = None)
    (Hc : suffix_scale c = Some scale) :
  parseRate (s ++ [c])
    = match parseRate s with
      | (v, None) => (Int.mul scale v, None)
      | (v, Some e) => (v, Some e)
      end /\
  (forall c', suffix_scale c' = Some scale ->
     parseRate (s ++ [c']) = parseRate (s ++ [c])).
Proof.
  assert (Hboth : forall c', suffix_scale c' = Some scale ->
            parseRate (s ++ [c'])
            = match parseRate s with
              | (v, None) => (Int.mul scale v, None)
              | (v, Some e) => (v, Some e)
              end).
  { intros c' Hc'. rewrite parseRate_last, Hc'.
    destruct (exists_last Hs) as (s0 & c0 & ->).
    rewrite last_last in Hplain. rewrite (parseRate_last s0 c0), Hplain.
    destruct (ParseInt (s0 ++ [c0])) as [base [e|]]; [reflexivity|].
    unfold Int.mul. rewrite Z.mul_1_l, wrap_mul_wrap. reflexivity. }
  split; [apply Hboth; exact Hc|].
  intros c' Hc'. rewrite !Hboth by assumption. reflexivity.
Qed.

End ParseRate.

Lemma parseRate_suffix_witness :
  suffix_scale "k"%byte = Some 1000 /\
  exists v, parseRate (pk := Demo.packages) (Demo.bytes "10" ++ ["k"%byte]) = (v, None) /\
            Int.in_range v /\
            (v - 1000 * 10) mod 2 ^ 64 = 0 /\
            (v = 1000 * 10 <-> Int.in_range (1000 * 10)).
Proof.
  split; [reflexivity|].
  apply (proj2 (parseRate_suffix (pk := Demo.packages) (Demo.bytes "10") "k"%byte 1000
                  ltac:(reflexivity)) 10).
  vm_compute. reflexivity.
Defined.

Lemma parseRate_append_suffix_witness :
  Demo.bytes "10" <> [] /\
  parseRate (pk := Demo.packages) (Demo.bytes "10" ++ ["M"%byte])
    = match parseRate (pk := Demo.packages) (Demo.bytes "10") with
      | (v, None) => (Int.mul 1000000 v, None)
      | (v, Some e) => (v, Some e)
      end.
Proof.
  assert (H : Demo.bytes "10" <> []) by (vm_compute; discriminate).
  split; [exact H|].
  apply (proj1 (parseRate_append_suffix (pk := Demo.packages) (Demo.bytes "10") "M"%byte
                  1000000 H ltac:(vm_compute; reflexivity) ltac:(reflexivity))).
Defined.

(* ------------------------------------------------------------------ *)
(** * More of the program: the pool and [WriteN] *)

Lemma new_buffers_panic n blockSize msg : forall r,
  new_buffer r blockSize = Panic msg ->
  new_buffers r (S n) blockSize = Panic msg.
Proof. intros r H. cbn [new_buffers]. rewrite H. reflexivity. Qed.

Lemma NewRandomOutput_cases r n blockSize :
  (n < 0 /\ NewRandomOutput r n blockSize = Panic "makeslice: len out of range") \/
  (n = 0 /\ NewRandomOutput r n blockSize = Done ({| bufs := [] |}, r)) \/
  (0 < n /\ blockSize < 0 /\
     NewRandomOutput r n blockSize = Panic "makeslice: len out of range") \/
  (0 < n /\ blockSize = 0 /\
     NewRandomOutput r n blockSize = Panic "index out of range") \/
  (0 < n /\ 0 < blockSize /\
     exists ro r', NewRandomOutput r n blockSize = Done (ro, r')).
Proof.
  unfold NewRandomOutput. destruct (n <? 0) eqn:Hn.
  - left. split; [lia | reflexivity].
  - right. destruct (Z.eq_dec n 0) as [-> | Hn0]; [left; split; reflexivity|].
    right. assert (Hpos : 0 < n) by lia.
    destruct (Z.to_nat n) as [|n'] eqn:Hn'; [lia|].
    destruct (Z.compare_spec blockSize 0) as [Hb | Hb | Hb].
    + right; left. repeat split; try assumption.
      rewrite (new_buffers_panic n' blockSize "index out of range"); [reflexivity|].
      subst blockSize. reflexivity.
    + left. repeat split; try assumption.
      rewrite (new_buffers_panic n' blockSize "makeslice: len out of range");
        [reflexivity|].
      unfold new_buffer. replace (blockSize <? 0) with true by lia. reflexivity.
    + right; right. repeat split; try assumption.
      destruct (new_buffers_spec (S n') blockSize r Hb) as (bs & Hbs & _).
      rewrite Hbs. cbn. eauto.
Qed.

(** X3.  [NewRandomOutput] returns a pool exactly when [n] is zero, or
    [n] and [blockSize] are both positive.  Otherwise it panics: in
    [make] for a negative [n] or [blockSize], and at
    [bufs[i][blockSize-1]] for a [blockSize] of zero. *)
Theorem NewRandomOutput_returns_iff (r : Rand) (n blockSize : Z) :
  ((exists ro r', NewRandomOutput r n blockSize = Done (ro, r'))
     <-> n = 0 \/ (0 < n /\ 0 < blockSize)) /\
  (NewRandomOutput r n blockSize = Panic "makeslice: len out of range"
     <-> n < 0 \/ (0 < n /\ blockSize < 0)) /\
  (NewRandomOutput r n blockSize = Panic "index out of range"
     <-> 0 < n /\ blockSize = 0).
Proof.
  destruct (NewRandomOutput_cases r n blockSize)
    as [(H1 & ->) | [(H1 & ->) | [(H1 & H2 & ->) | [(H1 & H2 & ->) | (H1 & H2 & ro & r' & ->)]]]].
  all: repeat split; intros; try lia; try discriminate; eauto;
    try (match goal with H : exists _ _, _ |- _ => destruct H as (? & ? & ?) end; discriminate).
Qed.

Lemma fill_alphabet n : forall r b r',
  fill r n = Done (b, r') ->
  length b = n /\ Forall (fun x => In x alphabet_bytes) b.
Proof.
  intros r b r' H. destruct (fill_spec n r) as (b0 & Hb0 & Hlen & Hnth).
  rewrite Hb0 in H. injection H as <- <-. split; [exact Hlen|].
  apply Forall_forall. intros x Hx.
  destruct (In_nth _ _ Byte.x00 Hx) as (j & Hj & <-).
  rewrite Hnth by lia. apply drawn_in_alphabet.
Qed.

Lemma new_buffer_line r blockSize b r' :
  new_buffer r blockSize = Done (b, r') -> line b /\ len b = blockSize.
Proof.
  unfold new_buffer. destruct (blockSize <? 0) eqn:Hneg; [discriminate|].
  destruct (fill r (Z.to_nat blockSize)) as [[b0 r0]| |] eqn:Hfill; try discriminate.
  cbn [bind]. destruct (fill_alphabet _ _ _ _ Hfill) as (Hlen & Hall).
  unfold store. destruct ((0 <=? blockSize - 1) && (blockSize - 1 <? len b0)) eqn:Hin;
    [|discriminate].
  assert (Hk : S (Z.to_nat (blockSize - 1)) = length b0) by (unfold len in Hin; lia).
  rewrite Hk, skipn_all. cbn [bind]. intros H. injection H as <- <-. split.
  - exists (firstn (Z.to_nat (blockSize - 1)) b0). split; [reflexivity|].
    rewrite <- (firstn_skipn (Z.to_nat (blockSize - 1)) b0) in Hall.
    apply Forall_app in Hall. apply Hall.
  - rewrite len_app. unfold len. cbn [length]. rewrite length_firstn. lia.
Qed.

Lemma new_buffers_lines n blockSize : forall r bs r',
  new_buffers r n blockSize = Done (bs, r') ->
  Forall (fun b => line b /\ len b = blockSize) bs.
Proof.
  induction n as [|n IH]; intros r bs r' H; cbn [new_buffers] in H.
  - injection H as <- <-. constructor.
  - destruct (new_buffer r blockSize) as [[b r1]| |] eqn:Hb; try discriminate.
    cbn [bind] in H.
    destruct (new_buffers r1 n blockSize) as [[bs' r2]| |] eqn:Hbs; try discriminate.
    cbn [bind] in H. injection H as <- <-.
    constructor; [eapply new_buffer_line; eassumption | eapply IH; eassumption].
Qed.

Lemma NewRandomOutput_lines r n blockSize ro r' :
  NewRandomOutput r n blockSize = Done (ro, r') ->
  Forall (fun b => line b /\ len b = blockSize) (bufs ro).
Proof.
  unfold NewRandomOutput. destruct (n <? 0); [discriminate|].
  destruct (new_buffers r (Z.to_nat n) blockSize) as [[bs r1]| |] eqn:Hbs;
    try discriminate.
  cbn [bind]. intros H. injection H as <- <-. cbn [bufs].
  eapply new_buffers_lines; eassumption.
Qed.

Lemma line_suffix pre p : line (pre ++ p) -> p <> [] -> line p.
Proof.
  intros (body & Heq & Hall) Hp.
  destruct (exists_last Hp) as (p0 & c & ->).
  rewrite app_assoc in Heq. apply app_inj_tail in Heq. destruct Heq as (<- & ->).
  exists p0. split; [reflexivity|]. apply Forall_app in Hall. apply Hall.
Qed.

Lemma line_nonempty p : line p -> p <> [].
Proof. intros (body & -> & _). destruct body; discriminate. Qed.

(** The chunks of a call of [WriteN]: each is a whole buffer no longer
    than what is left to write, or the last bytes of a longer one. *)
Lemma WriteN_chunks (P : list Byte.byte -> Prop) ro
    (Hwhole : forall b, In b (bufs ro) -> P b)
    (Htail : forall b n, In b (bufs ro) -> 0 < n < len b -> P (tail_from b n)) :
  forall fuel r w n res r' w',
    WriteN fuel ro r w n = Done (res, r', w') ->
    exists cs, calls w' = calls w ++ cs /\ Forall (fun c => P (chunk c)) cs.
Proof.
  induction fuel as [|fuel IH]; intros r w n res r' w' H; [discriminate|].
  cbn [WriteN] in H. destruct (0 <? n) eqn:Hn.
  2:{ injection H as <- <- <-. exists []. rewrite app_nil_r. split; constructor. }
  destruct (pickBuffer ro r) as [[buf r1]| |] eqn:Hpick; try discriminate.
  cbn [bind] in H. destruct (pickBuffer_inv _ _ _ _ Hpick) as (-> & Hin).
  set (p := if n <? len buf then tail_from buf n else buf) in *.
  assert (HP : P p).
  { subst p. destruct (n <? len buf) eqn:Hlt; [apply Htail; [assumption | lia]|].
    apply Hwhole; assumption. }
  assert (Hw : (if n <? len buf then Write w (tail_from buf n) else Write w buf)
               = Write w p) by (subst p; destruct (n <? len buf); reflexivity).
  rewrite Hw in H. destruct (Write w p) as [[nr err] w1] eqn:HW.
  destruct (Write_calls _ _ _ _ _ HW) as (_ & Hcalls & _).
  destruct err as [e|].
  - injection H as <- <- <-. eexists. split; [exact Hcalls|].
    constructor; [exact HP | constructor].
  - destruct (IH _ _ _ _ _ _ H) as (cs & Hcs & Hall).
    eexists. split; [rewrite Hcs, Hcalls, <- app_assoc; reflexivity|].
    constructor; [exact HP | exact Hall].
Qed.

(** X4.  With a pool of [NewRandomOutput], every [Write] of [WriteN]
    hands over one line: characters of the alphabet closed by a newline,
    and no more than [blockSize] bytes; whatever the sink answers. *)
Theorem WriteN_writes_lines (r0 : Rand) (poolSize blockSize : Z)
    (ro : RandomOutput) (r1 : Rand)
    (Hnew : NewRandomOutput r0 poolSize blockSize = Done (ro, r1))
    (fuel : nat) (r : Rand) (w : Writer) (n : Z)
    (res : option error) (r' : Rand) (w' : Writer)
    (Hrun : WriteN fuel ro r w n = Done (res, r', w')) :
  exists cs, calls w' = calls w ++ cs /\
    Forall (fun c => line (chunk c) /\ 0 < len (chunk c) <= blockSize) cs.
Proof.
  pose proof (NewRandomOutput_lines _ _ _ _ _ Hnew) as Hlines.
  rewrite Forall_forall in Hlines.
  apply (WriteN_chunks (fun p => line p /\ 0 < len p <= blockSize) ro)
    with (fuel := fuel) (r := r) (n := n) (res := res) (r' := r'); [| |exact Hrun].
  - intros b Hb. destruct (Hlines b Hb) as (Hl & Hlen). split; [exact Hl|].
    pose proof (line_nonempty _ Hl). destruct b; [congruence|].
    unfold len in *. cbn [length] in *. lia.
  - intros b k Hb Hk. destruct (Hlines b Hb) as (Hl & Hlen).
    rewrite tail_from_len by lia. split; [|lia].
    destruct (tail_from_suffix b k) as (pre & Hpre).
    apply (line_suffix pre). { rewrite <- Hpre. exact Hl. }
    intros Hnil. pose proof (tail_from_len b k ltac:(lia)) as Hlen'.
    rewrite Hnil in Hlen'. cbn in Hlen'. lia.
Qed.

Lemma WriteN_writes_lines_witness :
  exists res r' w',
    WriteN 11 Sample.pool Sample.rand1 Sample.capture 10 = Done (res, r', w') /\
    exists cs, calls w' = calls Sample.capture ++ cs /\
      Forall (fun c => line (chunk c) /\ 0 < len (chunk c) <= 4) cs.
Proof.
  assert (Hnew : NewRandomOutput Sample.rand0 32 4 = Done (Sample.pool, Sample.rand1))
    by (vm_compute; reflexivity).
  destruct (WriteN 11 Sample.pool Sample.rand1 Sample.capture 10)
    as [[[res r'] w']| |] eqn:Hrun; try (vm_compute in Hrun; discriminate).
  exists res, r', w'. split; [reflexivity|].
  exact (WriteN_writes_lines Sample.rand0 32 4 Sample.pool Sample.rand1 Hnew
           11 Sample.rand1 Sample.capture 10 res r' w' Hrun).
Defined.

Lemma honest_Write w p n e w' :
  honest w -> Write w p = ((n, e), w') ->
  honest w' /\ 0 <= n <= len p /\ (e = None -> p <> [] -> 0 < n).
Proof.
  intros Hw HW. destruct (Write_calls _ _ _ _ _ HW) as (Hresp & _ & Hans).
  pose proof (Hw (calls w) p) as Hp. rewrite Hans in Hp. cbn [fst snd] in Hp.
  split; [|exact Hp]. intros h q. rewrite Hresp. apply Hw.
Qed.

Lemma counted_app cs1 cs2 : counted (cs1 ++ cs2) = counted cs1 + counted cs2.
Proof.
  unfold counted. induction cs1 as [|c cs1 IH]; cbn [fold_right app]; [reflexivity|].
  rewrite IH. ring.
Qed.

Lemma WriteN_honest fuel : forall ro r w n,
  pool_ok ro -> honest w -> 0 <= n <= Int.max_int -> (Z.to_nat n < fuel)%nat ->
  exists res r' w' cs,
    WriteN fuel ro r w n = Done (res, r', w') /\
    honest w' /\
    calls w' = calls w ++ cs /\
    len cs <= n /\
    0 <= counted cs <= n /\
    (res = None -> counted cs = n).
Proof.
  induction fuel as [|fuel IH]; intros ro r w n Hpool Hw Hn Hfuel; [lia|].
  cbn [WriteN]. destruct (0 <? n) eqn:Hpos.
  2:{ exists None, r, w, []. rewrite app_nil_r. unfold counted, len. cbn [fold_right length].
      split; [reflexivity|]. split; [exact Hw|]. split; [reflexivity|]. lia. }
  destruct Hpool as (Hne & Hall).
  destruct (pickBuffer_pool ro r Hne) as (buf & -> & Hin). cbn [bind].
  rewrite Forall_forall in Hall. pose proof (Hall buf Hin) as Hbuf.
  set (p := if n <? len buf then tail_from buf n else buf).
  assert (Hp : 0 < len p <= n).
  { subst p. destruct (n <? len buf) eqn:Hlt.
    - rewrite tail_from_len by lia. lia.
    - apply Z.ltb_ge in Hlt. destruct buf; [congruence|].
      unfold len in *. cbn [length] in *. lia. }
  assert (Hpne : p <> []).
  { intros Hnil. rewrite Hnil in Hp. cbn in Hp. lia. }
  replace (if n <? len buf then Write w (tail_from buf n) else Write w buf)
    with (Write w p) by (subst p; destruct (n <? len buf); reflexivity).
  destruct (Write w p) as [[nr err] w1] eqn:HW.
  destruct (honest_Write _ _ _ _ _ Hw HW) as (Hw1 & Hnr & Hprog).
  destruct (Write_calls _ _ _ _ _ HW) as (_ & Hcalls & _).
  destruct err as [e|].
  - exists (Some e), (advance r), w1, [ {| chunk := p; count := nr; failure := Some e |} ].
    unfold counted, len. cbn [fold_right length count].
    split; [reflexivity|]. split; [exact Hw1|]. split; [exact Hcalls|].
    split; [lia|]. split; [lia | discriminate].
  - specialize (Hprog eq_refl Hpne).
    assert (Hsub : Int.sub n nr = n - nr) by (apply wrap_id; int_lia).
    rewrite Hsub.
    destruct (IH ro (advance r) w1 (n - nr))
      as (res & r' & w' & cs & Hrun & Hw' & Hcs & Hlen & Hcnt & Hnone);
      [split; [exact Hne | apply Forall_forall; exact Hall] | exact Hw1 | lia | lia |].
    exists res, r', w', ({| chunk := p; count := nr; failure := None |} :: cs).
    split; [exact Hrun|]. split; [exact Hw'|].
    split; [rewrite Hcs, Hcalls, <- app_assoc; reflexivity|].
    split; [unfold len in *; cbn [length]; lia|].
    unfold counted in *. cbn [fold_right count].
    split; [lia|]. intros Hres. specialize (Hnone Hres). lia.
Qed.

(** X5.  [WriteN] and a sink that may write short: one that counts no
    more than it is given, and at least one byte when it reports no
    error.  From a pool with a buffer and no empty one, [WriteN] ends
    after at most [n] calls of [Write]; the counts of its calls add up
    to no more than [n], and to [n] exactly when it returns [nil]. *)
Theorem WriteN_counts (fuel : nat) (ro : RandomOutput) (r : Rand) (w : Writer) (n : Z)
    (Hpool : pool_ok ro) (Hw : honest w)
    (Hn : 0 <= n <= Int.max_int) (Hfuel : (Z.to_nat n < fuel)%nat) :
  exists res r' w' cs,
    WriteN fuel ro r w n = Done (res, r', w') /\
    calls w' = calls w ++ cs /\
    len cs <= n /\
    0 <= counted cs <= n /\
    (res = None <-> counted cs = n /\ Forall no_failure cs).
Proof.
  destruct (WriteN_honest fuel ro r w n Hpool Hw Hn Hfuel)
    as (res & r' & w' & cs & Hrun & _ & Hcs & Hlen & Hcnt & Hnone).
  exists res, r', w', cs. split; [exact Hrun|]. split; [exact Hcs|].
  destruct (WriteN_trace _ _ _ _ _ _ _ _ Hrun) as (_ & cs' & Hcs' & _ & Hres).
  assert (cs' = cs) by (rewrite Hcs in Hcs'; apply app_inv_head in Hcs'; congruence).
  subst cs'.
  split; [exact Hlen|]. split; [exact Hcnt|].
  split.
  - intros ->. split; [apply Hnone; reflexivity | exact Hres].
  - intros (_ & Hok). destruct res as [e|]; [|reflexivity].
    destruct Hres as (init & last & -> & _ & Hlast).
    apply Forall_app in Hok. destruct Hok as (_ & Hok).
    inversion Hok as [|? ? Hl _]; subst. unfold no_failure in Hl. congruence.
Qed.

Lemma WriteN_counts_witness :
  exists res r' w' cs,
    WriteN 11 Sample.pool Sample.rand1 Demo.slow 10 = Done (res, r', w') /\
    calls w' = calls Demo.slow ++ cs /\
    len cs <= 10 /\
    0 <= counted cs <= 10 /\
    (res = None <-> counted cs = 10 /\ Forall no_failure cs).
Proof.
  apply (WriteN_counts 11 Sample.pool Sample.rand1 Demo.slow 10).
  - apply (NewRandomOutput_pool_ok Sample.rand0 32 4 _ Sample.rand1); [|lia].
    vm_compute. reflexivity.
  - intros h p. cbn [Demo.slow respond fst snd]. split.
    + unfold len. destruct p; cbn [length]; lia.
    + intros _ Hp. destruct p; [congruence|]. unfold len. cbn [length]. lia.
  - unfold Int.max_int. lia.
  - simpl. lia.
Defined.

(** X6.  A sink that reports no byte written and no error keeps
    [WriteN] in its loop: for a positive [n] no amount of fuel brings
    it to an end. *)
Theorem WriteN_stalls (ro : RandomOutput) (w : Writer) (n : Z)
    (Hpool : bufs ro <> [])
    (Hw : forall h p, respond w h p = (0, None))
    (Hn : 0 < n <= Int.max_int) :
  forall fuel r, WriteN fuel ro r w n = OutOfFuel.
Proof.
  intros fuel. revert w Hw. induction fuel as [|fuel IH]; intros w Hw r; [reflexivity|].
  cbn [WriteN]. replace (0 <? n) with true by lia.
  destruct (pickBuffer_pool ro r Hpool) as (buf & -> & _). cbn [bind].
  assert (Hsub : Int.sub n 0 = n) by (unfold Int.sub; rewrite Z.sub_0_r; apply wrap_id; int_lia).
  destruct (n <? len buf); unfold Write; rewrite Hw, Hsub; apply IH; intros h p; apply Hw.
Qed.

Lemma WriteN_stalls_witness :
  bufs Sample.pool <> [] /\
  forall fuel r, WriteN fuel Sample.pool r Demo.stalled 10 = OutOfFuel.
Proof.
  assert (H : bufs Sample.pool <> []) by (vm_compute; discriminate).
  split; [exact H|].
  apply (WriteN_stalls Sample.pool Demo.stalled 10 H).
  - intros h p. reflexivity.
  - unfold Int.max_int. lia.
Defined.

(* ------------------------------------------------------------------ *)
(** * More of the program: the skip sampler and the loop *)

Section SkipDraws.

Context {rt : Runtime}.

(** X7.  What [sampleSkips] returns is never negative, and it is zero
    unless [skips] is positive and the first draw is below [skipProb].
    It consults the generator not at all when [skips <= 0], once when
    the first draw is at or above [skipProb], and [k + 2] times when it
    returns [k] from its loop. *)
Theorem sampleSkips_draws (fuel : nat) (r : Rand) (skips : Z) (skipProb : float64)
    (k : Z) (r' : Rand)
    (Hfuel : Z.of_nat fuel <= Int.max_int)
    (Hrun : sampleSkips fuel r skips skipProb = Done (k, r')) :
  0 <= k /\
  (k <> 0 -> 0 < skips /\ F64.geb (units r (cursor r)) skipProb = false /\
             k < Z.of_nat fuel) /\
  r' = skip r (if skips <=? 0 then 0
               else if F64.geb (units r (cursor r)) skipProb then 1
               else Z.to_nat k + 2).
Proof.
  unfold sampleSkips in Hrun. destruct (skips <=? 0) eqn:Hs.
  { injection Hrun as <- <-. rewrite skip_0. repeat split; try lia. }
  cbn [Float64] in Hrun. destruct (F64.geb (units r (cursor r)) skipProb) eqn:Hg.
  { injection Hrun as <- <-. rewrite <- skip_advance, skip_0.
    repeat split; try lia. }
  apply sampleSkips_loop_inv in Hrun; [|int_lia|int_lia].
  destruct Hrun as (j & Hj & -> & _ & ->).
  rewrite skip_advance. replace (Z.to_nat (0 + Z.of_nat j) + 2)%nat with (S (S j)) by lia.
  repeat split; try lia.
Qed.

End SkipDraws.

Lemma sampleSkips_draws_witness :
  0 <= 9 /\
  (9 <> 0 -> 0 < 1 /\
     F64.geb (units Sample.rand1 (cursor Sample.rand1)) F64.one = false /\
     9 < Z.of_nat 20) /\
  skip Sample.rand1 11 =
    skip Sample.rand1
      (if 1 <=? 0 then 0
       else if F64.geb (units Sample.rand1 (cursor Sample.rand1)) F64.one then 1
       else Z.to_nat 9 + 2).
Proof.
  apply (sampleSkips_draws (rt := Sample.runtime) 20 Sample.rand1 1 F64.one 9
           (skip Sample.rand1 11)).
  - unfold Int.max_int. simpl. lia.
  - vm_compute. reflexivity.
Defined.

Section LoopRuns.

Context {rt : Runtime} {S : Type} {RS : RateShaper S}.
Variable env : Env S.

Lemma on_step_inv fuel sliceIdx st st2 :
  on_step env fuel sliceIdx st = Done st2 ->
  step st2 = step st /\ skips st2 = skips st /\
  respond (stdout st2) = respond (stdout st) /\
  exists new, calls (stdout st2) = calls (stdout st) ++ new /\
              Forall (from_pool (out env)) new.
Proof.
  unfold on_step. destruct (active env sliceIdx st).
  - destruct (WriteN fuel (out env) (rng st) (stdout st) (chars env st))
      as [[[res r'] w']| |] eqn:Hrun; try discriminate.
    cbn [bind]. intros H. injection H as <-. cbn [step skips stdout].
    destruct (WriteN_trace _ _ _ _ _ _ _ _ Hrun) as (Hresp & cs & Hcs & Hpool & _).
    repeat split; try assumption. exists cs. split; assumption.
  - intros H. injection H as <-. repeat split.
    exists []. rewrite app_nil_r. split; constructor.
Qed.

Lemma iteration_inv fuel c st x :
  iteration env fuel c st = Done x ->
  respond (stdout (state_of x)) = respond (stdout st) /\
  (exists new, calls (stdout (state_of x)) = calls (stdout st) ++ new /\
               Forall (from_pool (out env)) new) /\
  match c with
  | recv_steps => x = Continue (state_of x) /\ step (state_of x) = Int.add (step st) 1
  | recv_end => x = Return (state_of x) /\ step (state_of x) = step st /\
                stdout (state_of x) = stdout st
  end.
Proof.
  unfold iteration. destruct (redraw env fuel st) as [[sliceIdx st1]| |] eqn:Hre;
    try discriminate.
  cbn [bind]. destruct (redraw_inv env _ _ _ _ Hre) as (_ & Hstep & Hout & _).
  destruct c.
  - destruct (on_step env fuel sliceIdx st1) as [st2| |] eqn:Hon; try discriminate.
    cbn [bind]. intros H. injection H as <-. cbn [state_of step stdout].
    destruct (on_step_inv _ _ _ _ Hon) as (Hs & _ & Hresp & new & Hnew & Hpool).
    rewrite Hout in *. rewrite Hs, Hstep.
    split; [exact Hresp|]. split; [exists new; split; assumption|].
    split; reflexivity.
  - intros H. injection H as <-. cbn [state_of]. rewrite Hout, Hstep.
    split; [reflexivity|]. split; [|repeat split].
    exists []. rewrite app_nil_r. split; constructor.
Qed.

(** X8.  A run of the loop along any sequence of choices of [select].
    Up to the first [<-end] every turn is a step, and each step raises
    [step] by one; at the first [<-end] the loop returns, and the
    choices behind it play no part.  The standard output is only ever
    added to, and what is added are ends of buffers of the pool. *)
Theorem main_loop_run (fuel : nat) (cs : list select_case) (st : State) (x : control)
    (Hstep : 0 <= step st) (Hmax : step st + len cs <= Int.max_int)
    (Hrun : main_loop env fuel cs st = Done x) :
  exists (m : nat) (new : list WriteCall),
    (m <= length cs)%nat /\
    firstn m cs = repeat recv_steps m /\
    match x with
    | Continue _ => m = length cs
    | Return _ => nth m cs recv_steps = recv_end /\
                  main_loop env fuel (firstn (Datatypes.S m) cs) st = Done x
    end /\
    step (state_of x) = step st + Z.of_nat m /\
    respond (stdout (state_of x)) = respond (stdout st) /\
    calls (stdout (state_of x)) = calls (stdout st) ++ new /\
    Forall (from_pool (out env)) new.
Proof.
  revert st Hstep Hmax Hrun. induction cs as [|c cs IH]; intros st Hstep Hmax Hrun.
  - cbn [main_loop] in Hrun. injection Hrun as <-. exists 0%nat, [].
    cbn [state_of]. rewrite app_nil_r, Z.add_0_r. repeat split; constructor.
  - cbn [main_loop] in Hrun.
    destruct (iteration env fuel c st) as [y| |] eqn:Hit; try discriminate.
    cbn [bind] in Hrun.
    destruct (iteration_inv _ _ _ _ Hit) as (Hresp & (new & Hnew & Hpool) & Hc).
    unfold len in Hmax. cbn [length] in Hmax.
    destruct c.
    + destruct Hc as (Hy & Hs). rewrite Hy in Hrun, Hit.
      assert (Hs' : step (state_of y) = step st + 1)
        by (rewrite Hs; apply wrap_id; int_lia).
      destruct (IH (state_of y)) as (m & new' & Hm & Hfirst & Hx & Hsx & Hrx & Hcx & Hpx);
        [lia | unfold len; lia | exact Hrun |].
      exists (Datatypes.S m), (new ++ new').
      split; [cbn [length]; lia|].
      split; [cbn [firstn repeat]; rewrite Hfirst; reflexivity|].
      split.
      { destruct x; [cbn [length]; lia|]. destruct Hx as (Hnth & Hpre).
        split; [exact Hnth|].
        change (firstn (Datatypes.S (Datatypes.S m)) (recv_steps :: cs))
          with (recv_steps :: firstn (Datatypes.S m) cs).
        cbn [main_loop]. rewrite Hit. cbn [bind]. exact Hpre. }
      split; [lia|]. split; [congruence|].
      split; [rewrite Hcx, Hnew, app_assoc; reflexivity|].
      apply Forall_app; split; assumption.
    + destruct Hc as (Hy & Hs & Hout). rewrite Hy in Hrun, Hit. injection Hrun as <-.
      exists 0%nat, []. cbn [state_of]. rewrite Hout, app_nil_r, Z.add_0_r.
      split; [lia|]. split; [reflexivity|].
      split; [split; [reflexivity|]; cbn [firstn main_loop]; rewrite Hit; reflexivity|].
      repeat split; try assumption. constructor.
Qed.

End LoopRuns.

Lemma main_loop_run_witness :
  exists x (m : nat) (new : list WriteCall),
    main_loop (rt := Sample.runtime) Sample.env_ramp 20
      [recv_steps; recv_steps; recv_end; recv_steps] (Sample.start Sample.capture)
      = Done x /\
    (m <= 4)%nat /\
    match x with
    | Continue _ => m = 4%nat
    | Return _ => nth m [recv_steps; recv_steps; recv_end; recv_steps] recv_steps = recv_end
    end /\
    step (state_of x) = 0 + Z.of_nat m /\
    calls (stdout (state_of x)) = calls Sample.capture ++ new /\
    Forall (from_pool (out Sample.env_ramp)) new.
Proof.
  destruct (main_loop (rt := Sample.runtime) Sample.env_ramp 20
              [recv_steps; recv_steps; recv_end; recv_steps] (Sample.start Sample.capture))
    as [x| |] eqn:Hrun; try (vm_compute in Hrun; discriminate).
  destruct (main_loop_run (rt := Sample.runtime) Sample.env_ramp 20
              [recv_steps; recv_steps; recv_end; recv_steps]
              (Sample.start Sample.capture) x)
    as (m & new & Hm & _ & Hx & Hs & _ & Hc & Hp).
  - vm_compute. discriminate.
  - vm_compute. discriminate.
  - exact Hrun.
  - exists x, m, new. split; [reflexivity|]. split; [exact Hm|].
    split; [destruct x; [exact Hx | exact (proj1 Hx)]|].
    split; [exact Hs|]. split; assumption.
Defined.

(* ------------------------------------------------------------------ *)
(** * More of the program: the start of [main] *)

Lemma same_string_true a b : same_string a b = true <-> a = b.
Proof.
  unfold same_string. destruct (list_eq_dec Byte.byte_eq_dec a b); split;
    congruence.
Qed.

Lemma same_string_false a b : same_string a b = false <-> a <> b.
Proof.
  unfold same_string. destruct (list_eq_dec Byte.byte_eq_dec a b); split;
    congruence.
Qed.

(** The quotient [duration / stepSize] once [stepSize <= duration]. *)
Lemma steps_positive d s :
  Int.in_range d -> Int.in_range s -> s <= d -> s <> 0 ->
  (0 < Int.wrap (Z.quot d s) <-> 0 < s \/ (d = s /\ s < 0)) /\
  (0 < s -> Int.wrap (Z.quot d s) = Z.quot d s).
Proof.
  intros Hd Hs Hle Hs0.
  destruct (Z.lt_trichotomy s 0) as [Hneg | [Hz | Hpos]]; [|lia|].
  - split; [|lia]. destruct (Z.eq_dec d s) as [-> | Hne].
    + rewrite Z.quot_same by lia. rewrite wrap_id by int_lia. split; [right|]; lia.
    + assert (Hq : Int.min_int <= Z.quot d s <= 0).
      { destruct (Z.le_gt_cases 0 d) as [Hd0 | Hd0].
        - replace s with (- (- s)) by lia. rewrite Z.quot_opp_r by lia.
          pose proof (Z.quot_pos d (- s) Hd0 ltac:(lia)).
          assert (Z.quot d (- s) <= d).
          { rewrite Z.quot_div_nonneg by lia. apply Z.div_le_upper_bound; nia. }
          int_lia.
        - replace d with (- (- d)) by lia. replace s with (- (- s)) at 1 2 by lia.
          rewrite Z.quot_opp_opp by lia. rewrite Z.quot_small by lia. int_lia. }
      rewrite wrap_id by int_lia. split; lia.
  - assert (Hq : 1 <= Z.quot d s <= d).
    { rewrite Z.quot_div_nonneg by lia. split.
      - apply Z.div_le_lower_bound; lia.
      - apply Z.div_le_upper_bound; nia. }
    rewrite wrap_id by int_lia. split; [split; lia | reflexivity].
Qed.

Section StartupFacts.

Context {rt : Runtime} {pk : Packages}.

Lemma checked_dec o : checked o \/ ~ checked o.
Proof.
  unfold checked.
  destruct (snd (parseRate (o_peakRate o))) as [e|]; [right; intros (H & _); discriminate|].
  destruct (Z_le_dec (o_stepSize o) (o_duration o)); [|right; tauto].
  destruct (Z_le_dec (o_skips o) (o_sliceLen o)); [|right; tauto].
  destruct (F64.ltb F64.one (o_skipProb o)); [right; intros (_ & _ & _ & H & _); discriminate|].
  destruct (F64.ltb (o_skipProb o) F64.zero); [right; intros (_ & _ & _ & _ & H); discriminate|].
  left. tauto.
Qed.

Lemma setup_unchecked o r w :
  ~ checked o -> exists msg, setup o r w = Done (Died msg).
Proof.
  intros Hno. unfold setup, checked in *.
  destruct (parseRate (o_peakRate o)) as [rate [e|]]; [eauto|].
  destruct (o_duration o <? o_stepSize o) eqn:H1; [eauto|].
  destruct (o_sliceLen o <? o_skips o) eqn:H2; [eauto|].
  destruct (F64.ltb F64.one (o_skipProb o)) eqn:H3; [cbn [orb]; eauto|].
  destruct (F64.ltb (o_skipProb o) F64.zero) eqn:H4; [cbn [orb]; eauto|].
  exfalso. apply Hno. cbn [snd]. repeat split; lia.
Qed.

Lemma setup_checked o r w :
  checked o ->
  setup o r w =
    (' (sh, r1) <- choose_shaper o r ;;
     match sh with
     | None => Done (Died "invalid mode: must be one of 'logistic' or 'ramp'"%string)
     | Some s =>
         ' (ro, r2) <- NewRandomOutput r1 32 (o_blockSize o) ;;
         Done (Started
                 {| opts_skips := o_skips o; opts_skipProb := o_skipProb o;
                    opts_sliceLen := o_sliceLen o;
                    charsPerStep :=
                      F64.mul (F64.of_int (fst (parseRate (o_peakRate o))))
                              (Seconds (o_stepSize o));
                    shaper := s; out := ro |}
                 {| step := 0; skips := 0; rng := r2; stdout := w |})
     end)%outcome.
Proof.
  intros (H0 & H1 & H2 & H3 & H4). unfold setup.
  destruct (parseRate (o_peakRate o)) as [rate [e|]]; [discriminate|].
  replace (o_duration o <? o_stepSize o) with false by lia.
  replace (o_sliceLen o <? o_skips o) with false by lia.
  rewrite H3, H4. reflexivity.
Qed.

(** The [switch opts.mode] once [stepSize <= duration]. *)
Lemma choose_shaper_cases o r :
  Int.in_range (o_duration o) -> Int.in_range (o_stepSize o) ->
  o_stepSize o <= o_duration o ->
  match choose_shaper o r with
  | Done (Some (Logistic s), r1) =>
      o_mode o = LogisticMode /\
      (0 < o_stepSize o \/ (o_duration o = o_stepSize o /\ o_stepSize o < 0)) /\
      r1 = advance r /\ Scale s = o_scale o /\
      Mu s = ints r (cursor r) mod Int.wrap (Z.quot (o_duration o) (o_stepSize o)) /\
      0 <= Mu s < Int.wrap (Z.quot (o_duration o) (o_stepSize o))
  | Done (Some (Ramp s), r1) =>
      o_mode o = RampMode /\ o_stepSize o <> 0 /\ r1 = r /\
      PeakStep s = Int.wrap (Z.quot (o_rampDuration o) (o_stepSize o))
  | Done (None, r1) => ~ known_mode o
  | Panic _ =>
      known_mode o /\
      ~ (o_mode o = LogisticMode /\
         (0 < o_stepSize o \/ (o_duration o = o_stepSize o /\ o_stepSize o < 0))) /\
      ~ (o_mode o = RampMode /\ o_stepSize o <> 0)
  | OutOfFuel => False
  end.
Proof.
  intros Hd Hs Hle. unfold choose_shaper, known_mode, duration_div.
  assert (Hmodes : LogisticMode <> RampMode)
    by (intros H; apply same_string_true in H; vm_compute in H; discriminate).
  destruct (same_string (o_mode o) LogisticMode) eqn:Hl.
  - apply same_string_true in Hl.
    destruct (o_stepSize o =? 0) eqn:Hz.
    + cbn [bind]. split; [left; exact Hl|]. split; [lia|]. intros (Hr & _). congruence.
    + cbn [bind]. unfold Intn.
      destruct (steps_positive (o_duration o) (o_stepSize o) Hd Hs Hle ltac:(lia))
        as (Hiff & _).
      destruct (Int.wrap (Z.quot (o_duration o) (o_stepSize o)) <=? 0) eqn:Ht.
      * cbn [bind]. split; [left; exact Hl|]. split.
        -- intros (_ & Hc). apply Hiff in Hc. lia.
        -- intros (Hr & _). congruence.
      * cbn [bind Mu Scale]. split; [exact Hl|]. split; [apply Hiff; lia|].
        split; [reflexivity|]. split; [reflexivity|]. split; [reflexivity|].
        apply Z.mod_pos_bound. lia.
  - apply same_string_false in Hl.
    destruct (same_string (o_mode o) RampMode) eqn:Hr.
    + apply same_string_true in Hr. destruct (o_stepSize o =? 0) eqn:Hz.
      * cbn [bind]. split; [right; exact Hr|]. split; [tauto|]. lia.
      * cbn [bind PeakStep]. repeat split; try assumption; lia.
    + apply same_string_false in Hr. tauto.
Qed.

(** X9.  [main] reaches its loop exactly when the flags pass its four
    tests, the mode is one of the two, the step size is not zero (and
    positive in logistic mode, but for a negative one equal to the
    duration) and the block size is positive.  Flags that pass the
    tests with a known mode and fail the rest are not reported through
    [die]: the program panics.  Nothing else is tested: a rate of zero
    or below, a scale of zero and a slice length of zero all reach the
    loop. *)
Theorem setup_starts_iff (o : Opts) (r : Rand) (w : Writer)
    (Hd : Int.in_range (o_duration o)) (Hs : Int.in_range (o_stepSize o)) :
  let ready :=
    0 < o_blockSize o /\
    ((o_mode o = LogisticMode /\
      (0 < o_stepSize o \/ (o_duration o = o_stepSize o /\ o_stepSize o < 0))) \/
     (o_mode o = RampMode /\ o_stepSize o <> 0)) in
  ((exists env st, setup o r w = Done (Started env st)) <-> checked o /\ ready) /\
  ((exists msg, setup o r w = Panic msg) <-> checked o /\ known_mode o /\ ~ ready) /\
  ((exists msg, setup o r w = Done (Died msg)) <-> ~ (checked o /\ known_mode o)).
Proof.
  intros ready.
  assert (Hcases :
    (~ checked o /\ exists msg, setup o r w = Done (Died msg)) \/
    (checked o /\ ~ known_mode o /\ exists msg, setup o r w = Done (Died msg)) \/
    (checked o /\ known_mode o /\ ~ ready /\ exists msg, setup o r w = Panic msg) \/
    (checked o /\ known_mode o /\ ready /\
       exists env st, setup o r w = Done (Started env st))).
  { destruct (checked_dec o) as [Hc | Hc].
    2:{ left. split; [exact Hc | apply setup_unchecked; exact Hc]. }
    right. rewrite (setup_checked o r w Hc).
    pose proof (choose_shaper_cases o r Hd Hs (proj1 (proj2 Hc))) as Hsh.
    destruct (choose_shaper o r) as [[[[s|s]|] r1]|msg|]; cbn [bind].
    - destruct Hsh as (Hm & Hstep & -> & _).
      assert (Hk : known_mode o) by (left; exact Hm).
      destruct (NewRandomOutput_cases (advance r) 32 (o_blockSize o))
        as [(H1 & _) | [(H1 & _) | [(_ & H2 & ->) | [(_ & H2 & ->) | (_ & H2 & ro & r' & ->)]]]];
        try lia; cbn [bind].
      + right; left. split; [exact Hc|]. split; [exact Hk|].
        split; [unfold ready; lia | eauto].
      + right; left. split; [exact Hc|]. split; [exact Hk|].
        split; [unfold ready; lia | eauto].
      + right; right. split; [exact Hc|]. split; [exact Hk|].
        split; [unfold ready; tauto | eauto].
    - destruct Hsh as (Hm & Hstep & -> & _).
      assert (Hk : known_mode o) by (right; exact Hm).
      destruct (NewRandomOutput_cases r 32 (o_blockSize o))
        as [(H1 & _) | [(H1 & _) | [(_ & H2 & ->) | [(_ & H2 & ->) | (_ & H2 & ro & r' & ->)]]]];
        try lia; cbn [bind].
      + right; left. split; [exact Hc|]. split; [exact Hk|].
        split; [unfold ready; lia | eauto].
      + right; left. split; [exact Hc|]. split; [exact Hk|].
        split; [unfold ready; lia | eauto].
      + right; right. split; [exact Hc|]. split; [exact Hk|].
        split; [unfold ready; tauto | eauto].
    - left. split; [exact Hc|]. split; [exact Hsh | eauto].
    - right; left. destruct Hsh as (Hk & Hn1 & Hn2).
      split; [exact Hc|]. split; [exact Hk|]. split; [unfold ready; tauto | eauto].
    - contradiction. }
  destruct Hcases as [(Hc & msg & Hrun) | [(Hc & Hk & msg & Hrun) |
                      [(Hc & Hk & Hr & msg & Hrun) | (Hc & Hk & Hr & env & st & Hrun)]]];
    rewrite Hrun.
  all: split; [|split]; split; intros H;
    try (destruct H as (? & ? & H); discriminate);
    try (destruct H as (? & H); discriminate);
    try tauto; eauto; unfold known_mode, ready in *; tauto.
Qed.

End StartupFacts.

Lemma setup_starts_iff_witness :
  Int.in_range (o_duration Demo.ramp_opts) /\
  Int.in_range (o_stepSize Demo.ramp_opts) /\
  exists env st,
    setup (pk := Demo.packages)
          Demo.ramp_opts Sample.rand0 Sample.capture = Done (Started env st).
Proof.
  assert (Hd : Int.in_range (o_duration Demo.ramp_opts))
    by (vm_compute; split; discriminate).
  assert (Hs : Int.in_range (o_stepSize Demo.ramp_opts))
    by (vm_compute; split; discriminate).
  split; [exact Hd|]. split; [exact Hs|].
  apply (proj1 (setup_starts_iff (pk := Demo.packages)
                  Demo.ramp_opts Sample.rand0 Sample.capture Hd Hs)).
  split.
  - unfold checked. repeat split; vm_compute; try reflexivity; discriminate.
  - split; [reflexivity|]. right. split; [reflexivity|]. vm_compute. discriminate.
Defined.

Section Started.

Context {rt : Runtime} {pk : Packages}.

Lemma setup_started_inv o r w env st :
  setup o r w = Done (Started env st) ->
  checked o /\
  exists sh r1 ro r2,
    choose_shaper o r = Done (Some sh, r1) /\
    NewRandomOutput r1 32 (o_blockSize o) = Done (ro, r2) /\
    env = {| opts_skips := o_skips o; opts_skipProb := o_skipProb o;
             opts_sliceLen := o_sliceLen o;
             charsPerStep :=
               F64.mul (F64.of_int (fst (parseRate (o_peakRate o))))
                       (Seconds (o_stepSize o));
             shaper := sh; out := ro |} /\
    st = {| step := 0; skips := 0; rng := r2; stdout := w |}.
Proof.
  intros Hrun. destruct (checked_dec o) as [Hc | Hc].
  2:{ destruct (setup_unchecked o r w Hc) as (msg & Hd). congruence. }
  split; [exact Hc|]. rewrite (setup_checked o r w Hc) in Hrun.
  destruct (choose_shaper o r) as [[[sh|] r1]| |]; try discriminate.
  cbn [bind] in Hrun.
  destruct (NewRandomOutput r1 32 (o_blockSize o)) as [[ro r2]| |] eqn:Hnew;
    try discriminate.
  cbn [bind] in Hrun. injection Hrun as <- <-.
  exists sh, r1, ro, r2. repeat split. exact Hnew.
Qed.

(** X10.  What the loop starts with.  [step] and [skips] are zero and
    nothing has been written.  The pool has 32 buffers of [blockSize]
    bytes, each one line.  In logistic mode the peak step is a draw of
    the generator from [0, duration/stepSize), made before the pool is
    filled; in ramp mode it is [rampDuration/stepSize] and the
    generator has only filled the pool.  [charsPerStep] is the rate
    times the seconds of a step. *)
Theorem setup_started (o : Opts) (r : Rand) (w : Writer) (env : Env AnyShaper) (st : State)
    (Hd : Int.in_range (o_duration o)) (Hs : Int.in_range (o_stepSize o))
    (Hrun : setup o r w = Done (Started env st)) :
  step st = 0 /\ skips st = 0 /\ stdout st = w /\
  opts_skips env = o_skips o /\ opts_skipProb env = o_skipProb o /\
  opts_sliceLen env = o_sliceLen o /\
  charsPerStep env
    = F64.mul (F64.of_int (fst (parseRate (o_peakRate o)))) (Seconds (o_stepSize o)) /\
  len (bufs (out env)) = 32 /\
  Forall (fun b => line b /\ len b = o_blockSize o) (bufs (out env)) /\
  match shaper env with
  | Logistic s =>
      o_mode o = LogisticMode /\ Scale s = o_scale o /\
      Mu s = ints r (cursor r) mod Z.quot (o_duration o) (o_stepSize o) /\
      0 <= Mu s < Z.quot (o_duration o) (o_stepSize o) /\
      rng st = skip r (1 + 32 * Z.to_nat (o_blockSize o))
  | Ramp s =>
      o_mode o = RampMode /\
      PeakStep s = Int.wrap (Z.quot (o_rampDuration o) (o_stepSize o)) /\
      rng st = skip r (32 * Z.to_nat (o_blockSize o))
  end.
Proof.
  destruct (setup_started_inv o r w env st Hrun)
    as (Hc & sh & r1 & ro & r2 & Hsh & Hnew & -> & ->).
  cbn [step skips stdout rng opts_skips opts_skipProb opts_sliceLen charsPerStep out shaper].
  repeat (split; [reflexivity|]).
  assert (Hbs : 0 < o_blockSize o)
    by (apply (NewRandomOutput_inv r1 32 (o_blockSize o) ro r2 Hnew); lia).
  destruct (NewRandomOutput_spec r1 32 (o_blockSize o) ltac:(lia) Hbs)
    as (ro' & Hnew' & Hlen & _).
  rewrite Hnew in Hnew'. injection Hnew' as <- ->.
  split; [unfold len; rewrite Hlen; reflexivity|].
  split; [exact (NewRandomOutput_lines _ _ _ _ _ Hnew)|].
  pose proof (choose_shaper_cases o r Hd Hs (proj1 (proj2 Hc))) as Hcases.
  rewrite Hsh in Hcases. destruct sh as [s|s].
  - destruct Hcases as (Hm & Hstep & -> & Hscale & Hmu & Hrange).
    assert (Hq : Int.wrap (Z.quot (o_duration o) (o_stepSize o))
                 = Z.quot (o_duration o) (o_stepSize o)).
    { destruct Hstep as [Hpos | (Heq & Hneg)].
      - apply (steps_positive _ _ Hd Hs (proj1 (proj2 Hc))); lia.
      - rewrite Heq, Z.quot_same by lia. reflexivity. }
    rewrite Hq in Hmu, Hrange. split; [exact Hm|]. split; [exact Hscale|].
    split; [exact Hmu|]. split; [exact Hrange|].
    rewrite skip_advance. f_equal.
  - destruct Hcases as (Hm & Hstep & -> & Hpeak).
    split; [exact Hm|]. split; [exact Hpeak|]. f_equal.
Qed.

(** X11.  The slice length is not among the flags that [main] tests.
    With [-slice-length=0], which passes when [skips] is not positive,
    the first turn of the loop panics at [step % opts.sliceLen].  With
    a negative slice length no step is ever active: the loop runs on
    and writes nothing. *)
Theorem nonpositive_slice_length (o : Opts) (r : Rand) (w : Writer)
    (env : Env AnyShaper) (st : State)
    (Hrun : setup o r w = Done (Started env st))
    (Hlen : Int.min_int < o_sliceLen o <= 0) :
  o_skips o <= 0 /\
  (o_sliceLen o = 0 ->
     forall fuel c, iteration env fuel c st = Panic "integer divide by zero") /\
  (o_sliceLen o < 0 ->
     forall fuel (m : nat), Z.of_nat m <= Int.max_int ->
       main_loop env fuel (repeat recv_steps m) st
         = Done (Continue {| step := Z.of_nat m; skips := 0;
                             rng := rng st; stdout := w |})).
Proof.
  destruct (setup_started_inv o r w env st Hrun)
    as (Hc & sh & r1 & ro & r2 & _ & _ & -> & ->).
  destruct Hc as (_ & _ & Hsk & _). split; [lia|]. split.
  - intros H0 fuel c. unfold iteration, redraw. cbn [opts_sliceLen step].
    rewrite H0. reflexivity.
  - intros Hneg fuel m. cbn [rng].
    set (env := {| opts_skips := o_skips o; opts_sliceLen := o_sliceLen o |}).
    assert (Hgen : forall (m : nat) (s0 : Z),
              0 <= s0 -> s0 + Z.of_nat m <= Int.max_int ->
              main_loop env fuel (repeat recv_steps m)
                {| step := s0; skips := 0; rng := r2; stdout := w |}
              = Done (Continue {| step := s0 + Z.of_nat m; skips := 0;
                                  rng := r2; stdout := w |})).
    { clear m. induction m as [|m IH]; intros s0 Hs0 Hmax.
      - cbn [repeat main_loop]. rewrite Z.add_0_r. reflexivity.
      - cbn [repeat main_loop].
        assert (Hit : iteration env fuel recv_steps
                        {| step := s0; skips := 0; rng := r2; stdout := w |}
                      = Done (Continue {| step := s0 + 1; skips := 0;
                                          rng := r2; stdout := w |})).
        { unfold iteration, redraw, Int.rem. cbn [opts_sliceLen env step].
          replace (o_sliceLen o =? 0) with false by lia.
          assert (Hrem : 0 <= Z.rem s0 (o_sliceLen o)) by (apply Z.rem_nonneg; lia).
          assert (Hact : forall st', skips st' = 0 ->
                    active env (Z.rem s0 (o_sliceLen o)) st' = false).
          { intros st' Hst'. unfold active. cbn [opts_sliceLen env]. rewrite Hst'.
            unfold Int.sub. rewrite Z.sub_0_r, wrap_id by int_lia. lia. }
          destruct (Z.rem s0 (o_sliceLen o) =? 0).
          - unfold sampleSkips. cbn [opts_skips env rng].
            replace (o_skips o <=? 0) with true by lia. cbn [bind].
            unfold on_step. rewrite Hact by reflexivity. cbn [bind step skips rng stdout].
            unfold Int.add. rewrite wrap_id by int_lia. reflexivity.
          - cbn [bind]. unfold on_step. rewrite Hact by reflexivity.
            cbn [bind step skips rng stdout].
            unfold Int.add. rewrite wrap_id by int_lia. reflexivity. }
        rewrite Hit. cbn [bind]. rewrite IH by lia. do 3 f_equal. lia. }
    intros Hm. rewrite (Hgen m 0) by lia. reflexivity.
Qed.

End Started.

Lemma setup_started_witness :
  exists env st,
    setup (pk := Demo.packages)
          Demo.default_opts Sample.rand0 Sample.capture = Done (Started env st) /\
    step st = 0 /\ skips st = 0 /\ stdout st = Sample.capture /\
    len (bufs (out env)) = 32 /\
    Forall (fun b => line b /\ len b = 8) (bufs (out env)) /\
    match shaper env with
    | Logistic s => 0 <= Mu s < 240 /\ rng st = skip Sample.rand0 257
    | Ramp s => False
    end.
Proof.
  destruct (setup (pk := Demo.packages)
              Demo.default_opts Sample.rand0 Sample.capture)
    as [[msg|env st]| |] eqn:Hrun; try (vm_compute in Hrun; discriminate).
  exists env, st. split; [reflexivity|].
  destruct (setup_started (pk := Demo.packages)
              Demo.default_opts Sample.rand0 Sample.capture env st)
    as (H1 & H2 & H3 & _ & _ & _ & _ & H4 & H5 & H6).
  - vm_compute. split; discriminate.
  - vm_compute. split; discriminate.
  - exact Hrun.
  - repeat (split; [assumption|]).
    destruct (shaper env) as [s|s].
    + destruct H6 as (_ & _ & _ & Hmu & Hr). split; [exact Hmu | exact Hr].
    + destruct H6 as (Hm & _). vm_compute in Hm. discriminate.
Defined.

Lemma nonpositive_slice_length_witness :
  (exists env st,
     setup (pk := Demo.packages)
           Demo.no_slice_opts Sample.rand0 Sample.capture = Done (Started env st) /\
     forall fuel c,
       iteration (rt := Sample.runtime) (H := Any_RateShaper (rt := Sample.runtime))
                 env fuel c st = Panic "integer divide by zero") /\
  (exists env st,
     setup (pk := Demo.packages)
           Demo.negative_slice_opts Sample.rand0 Sample.capture = Done (Started env st) /\
     forall fuel,
       main_loop (rt := Sample.runtime) (H := Any_RateShaper (rt := Sample.runtime))
                 env fuel (repeat recv_steps 240) st
         = Done (Continue {| step := Z.of_nat 240; skips := 0;
                             rng := rng st; stdout := Sample.capture |})).
Proof.
  split.
  - destruct (setup (pk := Demo.packages)
                Demo.no_slice_opts Sample.rand0 Sample.capture)
      as [[msg|env st]| |] eqn:Hrun; try (vm_compute in Hrun; discriminate).
    exists env, st. split; [reflexivity|].
    apply (proj1 (proj2 (nonpositive_slice_length (rt := Sample.runtime)
                           (pk := Demo.packages) Demo.no_slice_opts Sample.rand0
                           Sample.capture env st Hrun
                           ltac:(vm_compute; split; [reflexivity | discriminate])))).
    reflexivity.
  - destruct (setup (pk := Demo.packages)
                Demo.negative_slice_opts Sample.rand0 Sample.capture)
      as [[msg|env st]| |] eqn:Hrun; try (vm_compute in Hrun; discriminate).
    exists env, st. split; [reflexivity|]. intros fuel.
    apply (proj2 (proj2 (nonpositive_slice_length (rt := Sample.runtime)
                           (pk := Demo.packages) Demo.negative_slice_opts Sample.rand0
                           Sample.capture env st Hrun
                           ltac:(vm_compute; split; [reflexivity | discriminate])))).
    + reflexivity.
    + vm_compute. discriminate.
Defined.

(* ------------------------------------------------------------------ *)
(** * More of the program: the range of the shapers *)

Lemma div_same m e :
  2 ^ 52 <= Z.pos m < 2 ^ 53 ->
  F64.div (S754_finite false m e) (S754_finite false m e) = F64.one.
Proof.
  intros Hm. rewrite div_normal by lia.
  assert (Hq : Z.pos m * 2 ^ 53 / Z.pos m = 2 ^ 53)
    by (rewrite Z.mul_comm; apply Z.div_mul; lia).
  assert (He : nr_exp (Z.pos m * 2 ^ 53) (Z.pos m) = 1)
    by (unfold nr_exp; rewrite Hq; reflexivity).
  assert (Hman : nr_man (Z.pos m * 2 ^ 53) (Z.pos m) = 2 ^ 52).
  { unfold nr_man. rewrite He.
    replace (Z.pos m * 2 ^ 53) with (Z.pos m * (2 ^ 53 * 1)) by ring.
    replace (Z.pos m * 2 ^ 1) with (Z.pos m * (2 * 1)) by ring.
    rewrite rne_scale by lia. reflexivity. }
  rewrite He, Hman. replace (e - e - 53 + 1) with (-52) by lia. reflexivity.
Qed.

Lemma of_int_finite z :
  z <> 0 -> - 2 ^ 64 < z < 2 ^ 64 ->
  exists m e, F64.of_int z = S754_finite (z <? 0) m e.
Proof.
  intros Hz Hr. destruct (Z.ltb_spec z 0) as [Hneg | Hpos].
  - destruct (of_int_normal (- z) ltac:(lia)) as (m & e & [Hx _] & _).
    replace z with (- - z) by lia. rewrite of_int_opp, Hx by lia. cbn. eauto.
  - destruct (of_int_normal z ltac:(lia)) as (m & e & [Hx _] & _). eauto.
Qed.

Section Ranges.

Context {rt : Runtime}.

(** X12.  [RampShaper.Fraction] keeps the promise of the interface: at
    every step from 0 on, and for every peak step, what it returns is
    at least 0.0 and at most 1.0. *)
Theorem RampShaper_Fraction_range (s : RampShaper) (step : Z)
    (Hstep : 0 <= step <= Int.max_int) (Hpeak : Int.in_range (PeakStep s)) :
  F64.leb F64.zero (Fraction s step) = true /\
  F64.leb (Fraction s step) F64.one = true.
Proof.
  cbn [Fraction Ramp_RateShaper]. unfold RampShaper_Fraction.
  destruct (Z.ltb_spec step (PeakStep s)) as [Hlt | Hge]; [|split; reflexivity].
  assert (HP : 0 < PeakStep s < 2 ^ 64) by int_lia.
  split; [apply leb_zero_div; int_lia|].
  destruct (Z.eq_dec step 0) as [-> | Hnz].
  - destruct (of_int_normal (PeakStep s) HP) as (my & ey & [Hy Hmy] & Hey).
    rewrite Hy. reflexivity.
  - destruct (of_int_order step (PeakStep s) ltac:(lia) ltac:(lia))
      as (m1 & e1 & m2 & e2 & [H1 Hm1] & [H2 Hm2] & He1 & He2 & Hord).
    rewrite H1, H2. rewrite <- (div_same m2 e2 Hm2).
    apply div_mono; trivial; lia.
Qed.

(** X13.  [-scale=0] passes the tests of [main], and then
    [LogisticShaper.Fraction] is NaN at every step: the division by
    [float64(s.Scale)] gives an infinity or NaN, and [b] is zero times
    something ([Exp] with the special cases of [math.Exp]). *)
Theorem LogisticShaper_zero_scale (s : LogisticShaper) (step : Z)
    (Hscale : Scale s = 0)
    (Hnan : Exp F64.nan = F64.nan)
    (Hinf : Exp F64.inf = F64.inf)
    (Hninf : Exp (F64.neg F64.inf) = F64.zero) :
  Fraction s step = F64.nan.
Proof.
  rewrite Fraction_bell, Hscale.
  set (d := Int.sub step (Mu s)).
  assert (Hd : Int.in_range d) by apply wrap_in_range.
  change (F64.of_int 0) with F64.zero.
  destruct (Z.eq_dec d 0) as [-> | Hnz].
  - change (F64.div (F64.neg (F64.of_int 0)) F64.zero) with F64.nan.
    rewrite Hnan. reflexivity.
  - destruct (of_int_finite d Hnz ltac:(int_lia)) as (m & e & ->).
    destruct (d <? 0).
    + change (F64.div (F64.neg (S754_finite true m e)) F64.zero) with F64.inf.
      rewrite Hinf. reflexivity.
    + change (F64.div (F64.neg (S754_finite false m e)) F64.zero) with (F64.neg F64.inf).
      rewrite Hninf. reflexivity.
Qed.

End Ranges.

Lemma RampShaper_Fraction_range_witness :
  0 <= 7 <= Int.max_int /\
  F64.leb F64.zero (Fraction {| PeakStep := 40 |} 7) = true /\
  F64.leb (Fraction {| PeakStep := 40 |} 7) F64.one = true.
Proof.
  assert (H : 0 <= 7 <= Int.max_int) by (vm_compute; split; discriminate).
  split; [exact H|].
  apply (RampShaper_Fraction_range {| PeakStep := 40 |} 7 H).
  vm_compute. split; discriminate.
Defined.

Lemma LogisticShaper_zero_scale_witness :
  Scale {| Mu := 3; Scale := 0 |} = 0 /\
  Fraction (RateShaper := Logistic_RateShaper (rt := Sample.runtime))
           {| Mu := 3; Scale := 0 |} 5 = F64.nan.
Proof.
  split; [reflexivity|].
  apply (LogisticShaper_zero_scale (rt := Sample.runtime) {| Mu := 3; Scale := 0 |} 5);
    vm_compute; reflexivity.
Defined.

(* ------------------------------------------------------------------ *)
(** * More of the program: the character count of a step in ramp mode *)

Lemma leb_finite_inv m1 e1 m2 e2 :
  F64.leb (S754_finite false m1 e1) (S754_finite false m2 e2) = true ->
  e1 < e2 \/ (e1 = e2 /\ Z.pos m1 <= Z.pos m2).
Proof.
  unfold F64.leb, SFleb, SFcompare. destruct (Z.compare_spec e1 e2) as [-> | Hlt | Hgt].
  - fold (Pos.compare m1 m2). destruct (Pos.compare_spec m1 m2); intros Hb;
      try discriminate; right; split; lia.
  - intros _. left. exact Hlt.
  - discriminate.
Qed.

Lemma mul_normal mx ex mf ef :
  2 ^ 52 <= Z.pos mx < 2 ^ 53 -> 2 ^ 52 <= Z.pos mf < 2 ^ 53 ->
  -1074 <= ex + ef <= 800 ->
  F64.mul (S754_finite false mx ex) (S754_finite false mf ef)
    = pack (nr_man (Z.pos mx * Z.pos mf) 1)
           (ex + ef + nr_exp (Z.pos mx * Z.pos mf) 1).
Proof.
  intros Hx Hf He. unfold F64.mul, SFmul. cbn [xorb]. rewrite Pos2Z.inj_mul.
  set (N := Z.pos mx * Z.pos mf).
  assert (HN : 2 ^ 104 <= N < 2 ^ 106) by (unfold N; nia).
  assert (Hk : nr_exp N 1 <= 53).
  { unfold nr_exp. rewrite Z.div_1_r.
    assert (Z.log2 N < 106) by (apply Z.log2_lt_pow2; lia). lia. }
  apply binary_round_aux_normal; try lia.
  - rewrite Z.div_1_r. reflexivity.
  - unfold loc_of. rewrite Z.mod_1_r. reflexivity.
Qed.

(** A 53-bit mantissa with [a] zero bits behind it rounds to itself. *)
Lemma pack_shifted m e a :
  2 ^ 52 <= Z.pos m < 2 ^ 53 -> 0 <= a ->
  pack (nr_man (Z.pos m * 2 ^ a) 1) (e - a + nr_exp (Z.pos m * 2 ^ a) 1)
    = S754_finite false m e.
Proof.
  intros Hm Ha.
  assert (H1 : 2 ^ 52 <= Z.pos m / 1) by (rewrite Z.div_1_r; lia).
  rewrite nr_man_shift, nr_exp_shift by lia.
  assert (Hexp : nr_exp (Z.pos m) 1 = 0).
  { unfold nr_exp. rewrite Z.div_1_r.
    replace (Z.log2 (Z.pos m)) with 52 by (symmetry; apply Z.log2_unique; lia). lia. }
  assert (Hman : nr_man (Z.pos m) 1 = Z.pos m).
  { unfold nr_man. rewrite Hexp. unfold rne.
    change (1 * 2 ^ 0) with 1. rewrite Z.div_1_r, Z.mod_1_r. reflexivity. }
  rewrite Hexp, Hman. unfold pack.
  destruct (Z.eqb_spec (Z.pos m) (2 ^ 53)); [lia|].
  replace (e - a + (0 + a)) with e by lia. reflexivity.
Qed.

Lemma mul_one_r m e :
  2 ^ 52 <= Z.pos m < 2 ^ 53 -> -1022 <= e <= 800 ->
  F64.mul (S754_finite false m e) F64.one = S754_finite false m e.
Proof.
  intros Hm He. unfold F64.one.
  rewrite mul_normal by (try lia; cbn; lia).
  change (Z.pos 4503599627370496) with (2 ^ 52).
  replace (e + -52) with (e - 52) by lia.
  apply pack_shifted; lia.
Qed.

Lemma mul_mono mx ex m1 e1 m2 e2 :
  2 ^ 52 <= Z.pos mx < 2 ^ 53 ->
  2 ^ 52 <= Z.pos m1 < 2 ^ 53 -> 2 ^ 52 <= Z.pos m2 < 2 ^ 53 ->
  -1074 <= ex + e1 -> ex + e2 <= 800 ->
  e1 < e2 \/ (e1 = e2 /\ Z.pos m1 <= Z.pos m2) ->
  F64.leb (F64.mul (S754_finite false mx ex) (S754_finite false m1 e1))
          (F64.mul (S754_finite false mx ex) (S754_finite false m2 e2)) = true.
Proof.
  intros Hx H1 H2 Hlo Hhi Hle.
  rewrite !mul_normal by lia.
  assert (Hq : forall m, 2 ^ 52 <= Z.pos m -> 2 ^ 52 <= Z.pos mx * Z.pos m / 1).
  { intros m Hm. rewrite Z.div_1_r. nia. }
  destruct Hle as [Hlt | [-> Hm]].
  - rewrite <- (nr_man_shift (Z.pos mx * Z.pos m2) 1 (e2 - e1)) by (try apply Hq; lia).
    replace (ex + e2 + nr_exp (Z.pos mx * Z.pos m2) 1)
      with (ex + e1 + nr_exp (Z.pos mx * Z.pos m2 * 2 ^ (e2 - e1)) 1).
    + apply pack_nr_mono; [|lia|apply Hq; lia].
      assert (HP : 2 <= 2 ^ (e2 - e1)).
      { change 2 with (2 ^ 1) at 1. apply Z.pow_le_mono_r; lia. }
      split; [nia|]. rewrite <- Z.mul_assoc.
      apply Z.mul_le_mono_nonneg_l; [lia|].
      generalize dependent (2 ^ (e2 - e1)). intros P HP. nia.
    + rewrite nr_exp_shift by (try apply Hq; lia). lia.
  - apply pack_nr_mono; [|lia|apply Hq; lia]. nia.
Qed.

Lemma mul_finite mx ex mf ef :
  2 ^ 52 <= Z.pos mx < 2 ^ 53 -> 2 ^ 52 <= Z.pos mf < 2 ^ 53 ->
  -1074 <= ex + ef <= 800 ->
  exists m e, F64.mul (S754_finite false mx ex) (S754_finite false mf ef)
              = S754_finite false m e /\ 2 ^ 52 <= Z.pos m < 2 ^ 53.
Proof.
  intros Hx Hf He. rewrite mul_normal by lia.
  assert (Hq : 2 ^ 52 <= Z.pos mx * Z.pos mf / 1) by (rewrite Z.div_1_r; nia).
  pose proof (nr_man_bounds (Z.pos mx * Z.pos mf) 1 ltac:(lia) ltac:(lia) Hq) as HM.
  destruct (pack_finite _ (ex + ef + nr_exp (Z.pos mx * Z.pos mf) 1) HM)
    as (m & e & -> & Hm & _).
  eauto.
Qed.

(** The integer part grows with the number. *)
Lemma trunc_mono m1 e1 m2 e2 :
  2 ^ 52 <= Z.pos m1 < 2 ^ 53 -> 2 ^ 52 <= Z.pos m2 < 2 ^ 53 ->
  e1 < e2 \/ (e1 = e2 /\ Z.pos m1 <= Z.pos m2) ->
  exists a1 a2,
    F64.trunc (S754_finite false m1 e1) = Some a1 /\
    F64.trunc (S754_finite false m2 e2) = Some a2 /\
    0 <= a1 <= a2.
Proof.
  intros H1 H2 Hle. unfold F64.trunc. do 2 eexists. split; [reflexivity|].
  split; [reflexivity|].
  assert (Hpow : forall k, 0 <= k -> 0 < 2 ^ k) by (intros; apply Z.pow_pos_nonneg; lia).
  destruct Hle as [Hlt | [-> Hm]].
  - assert (Hhalf : Z.pos m1 / 2 ^ (e2 - e1) < 2 ^ 52).
    { apply Z.div_lt_upper_bound; [apply Hpow; lia|].
      assert (2 <= 2 ^ (e2 - e1)).
      { change 2 with (2 ^ 1) at 1. apply Z.pow_le_mono_r; lia. }
      nia. }
    destruct (Z.leb_spec 0 e1) as [He1 | He1]; destruct (Z.leb_spec 0 e2) as [He2 | He2];
      try lia.
    + pose proof (Hpow e1 He1). split; [nia|].
      replace e2 with (e1 + (e2 - e1)) by lia. rewrite Z.pow_add_r by lia.
      assert (HP : 2 <= 2 ^ (e2 - e1)).
      { change 2 with (2 ^ 1) at 1. apply Z.pow_le_mono_r; lia. }
      rewrite (Z.mul_comm (2 ^ e1)), Z.mul_assoc.
      apply Z.mul_le_mono_nonneg_r; [lia|].
      clear Hhalf. generalize dependent (2 ^ (e2 - e1)). intros P HP. nia.
    + pose proof (Hpow (- e1) ltac:(lia)). pose proof (Hpow e2 He2).
      split; [apply Z.div_pos; lia|].
      assert (Z.pos m1 / 2 ^ (- e1) < 2 ^ 52).
      { apply Z.div_lt_upper_bound; [lia|].
        assert (2 <= 2 ^ (- e1)).
        { change 2 with (2 ^ 1) at 1. apply Z.pow_le_mono_r; lia. }
        nia. }
      nia.
    + pose proof (Hpow (- e1) ltac:(lia)). pose proof (Hpow (- e2) ltac:(lia)).
      split; [apply Z.div_pos; lia|].
      replace (- e1) with ((e2 - e1) + (- e2)) by lia.
      rewrite Z.pow_add_r by lia.
      rewrite <- Z.div_div by (try apply Hpow; lia).
      apply Z.div_le_mono; lia.
  - destruct (Z.leb_spec 0 e2) as [He | He].
    + pose proof (Hpow e2 He). split; nia.
    + pose proof (Hpow (- e2) ltac:(lia)).
      split; [apply Z.div_pos; lia | apply Z.div_le_mono; lia].
Qed.

(** [int(x)] of a number with an integer part in range. *)
Lemma to_int_trunc oor x z :
  F64.trunc x = Some z -> Int.in_range z -> F64.to_int oor x = z.
Proof.
  intros Ht Hz. unfold F64.to_int. rewrite Ht.
  replace (Int.min_int <=? z) with true by int_lia.
  replace (z <=? Int.max_int) with true by int_lia. reflexivity.
Qed.


Lemma ramp_below_one z P :
  0 < z <= P -> P < 2 ^ 64 ->
  exists m e, F64.div (F64.of_int z) (F64.of_int P) = S754_finite false m e /\
              2 ^ 52 <= Z.pos m < 2 ^ 53 /\ -117 <= e /\
              (e < -52 \/ (e = -52 /\ Z.pos m = 2 ^ 52)).
Proof.
  intros Hz HP.
  destruct (of_int_order z P ltac:(lia) ltac:(lia))
    as (m1 & e1 & m2 & e2 & [H1 Hm1] & [H2 Hm2] & He1 & He2 & Hord).
  assert (Hle : F64.leb (F64.div (F64.of_int z) (F64.of_int P)) F64.one = true).
  { rewrite H1, H2. rewrite <- (div_same m2 e2 Hm2). apply div_mono; trivial; lia. }
  rewrite H1, H2 in *. rewrite div_normal in * by lia.
  assert (Hq : 2 ^ 52 <= Z.pos m1 * 2 ^ 53 / Z.pos m2).
  { apply Z.div_le_lower_bound; [lia|]. nia. }
  pose proof (nr_man_bounds (Z.pos m1 * 2 ^ 53) (Z.pos m2) ltac:(lia) ltac:(lia) Hq) as HM.
  pose proof (nr_exp_nonneg (Z.pos m1 * 2 ^ 53) (Z.pos m2) Hq) as Hk.
  destruct (pack_finite _ (e1 - e2 - 53 + nr_exp (Z.pos m1 * 2 ^ 53) (Z.pos m2)) HM)
    as (m & e & Hp & Hm & Hc).
  rewrite Hp in *. exists m, e. split; [reflexivity|]. split; [exact Hm|].
  split; [lia|].
  apply leb_finite_inv in Hle. change (Z.pos 4503599627370496) with (2 ^ 52) in Hle. lia.
Qed.

Section RampChars.

Context {rt : Runtime}.

Lemma ramp_fraction_value (s : RampShaper) (step : Z) :
  0 <= step <= Int.max_int -> Int.in_range (PeakStep s) ->
  ramp_value (Fraction s step).
Proof.
  intros Hstep Hpeak. cbn [Fraction Ramp_RateShaper]. unfold RampShaper_Fraction.
  destruct (Z.ltb_spec step (PeakStep s)) as [Hlt | Hge].
  - destruct (Z.eq_dec step 0) as [-> | Hnz].
    + left. destruct (of_int_normal (PeakStep s) ltac:(int_lia)) as (my & ey & [Hy _] & _).
      rewrite Hy. reflexivity.
    + right. apply ramp_below_one; int_lia.
  - right. exists 4503599627370496%positive, (-52). split; [reflexivity|].
    change (Z.pos 4503599627370496) with (2 ^ 52). lia.
Qed.

Lemma ramp_fraction_mono (s : RampShaper) (s1 s2 : Z) :
  0 <= s1 <= s2 -> s2 <= Int.max_int -> Int.in_range (PeakStep s) ->
  F64.leb (Fraction s s1) (Fraction s s2) = true.
Proof.
  intros Hs Hmax Hpeak. cbn [Fraction Ramp_RateShaper]. unfold RampShaper_Fraction.
  destruct (Z.ltb_spec s2 (PeakStep s)) as [Hlt2 | Hge2].
  - replace (s1 <? PeakStep s) with true by lia.
    assert (HP : 0 < PeakStep s < 2 ^ 64) by int_lia.
    destruct (Z.eq_dec s1 0) as [-> | Hnz].
    + change (F64.of_int 0) with F64.zero at 1.
      destruct (of_int_normal (PeakStep s) HP) as (my & ey & [Hy Hmy] & Hey).
      rewrite Hy at 1. cbn [F64.div SFdiv F64.zero xorb].
      apply leb_zero_div; int_lia.
    + destruct (of_int_order s1 s2 ltac:(lia) ltac:(int_lia))
        as (m1 & e1 & m2 & e2 & [H1 Hm1] & [H2 Hm2] & He1 & He2 & Hord).
      destruct (of_int_normal (PeakStep s) HP) as (my & ey & [Hy Hmy] & Hey).
      rewrite H1, H2, Hy. apply div_mono; trivial; lia.
  - destruct (Z.ltb_spec s1 (PeakStep s)) as [Hlt1 | Hge1]; [|reflexivity].
    destruct (Z.eq_dec s1 0) as [-> | Hnz].
    + destruct (of_int_normal (PeakStep s) ltac:(int_lia)) as (my & ey & [Hy _] & _).
      rewrite Hy. reflexivity.
    + destruct (ramp_below_one s1 (PeakStep s) ltac:(lia) ltac:(int_lia))
        as (m & e & -> & Hm & _ & Hle).
      apply leb_finite. change (Z.pos 4503599627370496) with (2 ^ 52). lia.
Qed.

(** The integer part of [cps * f] for a value [f] of the ramp. *)
Lemma ramp_product cps m e f :
  normal cps m e -> -900 <= e <= 10 -> ramp_value f ->
  exists zc, F64.trunc cps = Some zc /\ 0 <= zc <= Int.max_int /\
    ((f = F64.zero /\ F64.mul cps f = F64.zero) \/
     (exists mf ef m' e',
        f = S754_finite false mf ef /\ 2 ^ 52 <= Z.pos mf < 2 ^ 53 /\
        -117 <= ef <= -52 /\
        F64.mul cps f = S754_finite false m' e' /\ 2 ^ 52 <= Z.pos m' < 2 ^ 53 /\
        (e' < e \/ (e' = e /\ Z.pos m' <= Z.pos m)))).
Proof.
  intros [-> Hm] He Hf.
  exists (if 0 <=? e then Z.pos m * 2 ^ e else Z.pos m / 2 ^ (- e)).
  split; [reflexivity|]. split.
  { destruct (Z.leb_spec 0 e).
    - assert (2 ^ e <= 2 ^ 10) by (apply Z.pow_le_mono_r; lia).
      assert (0 < 2 ^ e) by (apply Z.pow_pos_nonneg; lia).
      assert (Z.pos m * 2 ^ e <= (2 ^ 53 - 1) * 2 ^ 10)
        by (apply Z.mul_le_mono_nonneg; lia).
      unfold Int.max_int. split; [nia | lia].
    - assert (0 < 2 ^ (- e)) by (apply Z.pow_pos_nonneg; lia).
      assert (Z.pos m / 2 ^ (- e) <= Z.pos m) by (apply Z.div_le_upper_bound; nia).
      unfold Int.max_int. split; [apply Z.div_pos; lia | lia]. }
  destruct Hf as [-> | (mf & ef & -> & Hmf & Hef & Hone)]; [left; split; reflexivity|].
  right.
  destruct (mul_finite m e mf ef Hm Hmf ltac:(lia)) as (m' & e' & Hmul & Hm').
  exists mf, ef, m', e'. split; [reflexivity|]. split; [exact Hmf|].
  split; [lia|]. split; [exact Hmul|]. split; [exact Hm'|].
  apply leb_finite_inv. rewrite <- Hmul.
  rewrite <- (mul_one_r m e Hm ltac:(lia)) at 2. unfold F64.one.
  apply mul_mono; lia.
Qed.

Lemma ramp_product_mono oor cps m e f1 f2 :
  normal cps m e -> -900 <= e <= 10 -> ramp_value f1 -> ramp_value f2 ->
  F64.leb f1 f2 = true ->
  0 <= F64.to_int oor (F64.mul cps f1) <= F64.to_int oor (F64.mul cps f2) /\
  F64.to_int oor (F64.mul cps f2) <= F64.to_int oor cps /\
  F64.trunc cps = Some (F64.to_int oor cps).
Proof.
  intros Hc He Hf1 Hf2 Hle.
  destruct (ramp_product cps m e f1 Hc He Hf1) as (zc & Hzc & Hr & H1).
  destruct (ramp_product cps m e f2 Hc He Hf2) as (zc2 & Hzc2 & _ & H2).
  rewrite Hzc in Hzc2. injection Hzc2 as <-.
  assert (Hcps : F64.to_int oor cps = zc) by (apply to_int_trunc; [exact Hzc | int_lia]).
  rewrite Hcps. destruct Hc as [-> Hm].
  assert (Hsmall : forall m' e', 2 ^ 52 <= Z.pos m' < 2 ^ 53 ->
            e' < e \/ (e' = e /\ Z.pos m' <= Z.pos m) ->
            exists z, F64.trunc (S754_finite false m' e') = Some z /\ 0 <= z <= zc).
  { intros m' e' Hm' Hord.
    destruct (trunc_mono m' e' m e Hm' Hm Hord) as (a1 & a2 & Ha1 & Ha2 & Ha).
    rewrite Hzc in Ha2. injection Ha2 as <-. eauto. }
  assert (Hz : F64.to_int oor F64.zero = 0) by reflexivity.
  destruct H2 as [(-> & Hmul2) | (mf2 & ef2 & m2 & e2 & -> & Hmf2 & Hef2 & Hmul2 & Hm2 & Hord2)].
  - destruct H1 as [(-> & Hmul1) | (mf1 & ef1 & m1 & e1 & -> & _)];
      [|cbv in Hle; discriminate].
    rewrite Hmul1, Hz. split; [lia|]. split; [lia | exact Hzc].
  - destruct (Hsmall m2 e2 Hm2 Hord2) as (z2 & Hz2 & Hz2r).
    rewrite Hmul2, (to_int_trunc oor _ z2 Hz2) by int_lia.
    destruct H1 as [(-> & Hmul1) | (mf1 & ef1 & m1 & e1 & -> & Hmf1 & Hef1 & Hmul1 & Hm1 & Hord1)].
    + rewrite Hmul1, Hz. split; [lia|]. split; [lia | exact Hzc].
    + apply leb_finite_inv in Hle.
      assert (Hprod : F64.leb (S754_finite false m1 e1) (S754_finite false m2 e2) = true).
      { rewrite <- Hmul1, <- Hmul2. apply mul_mono; try lia. }
      apply leb_finite_inv in Hprod.
      destruct (trunc_mono m1 e1 m2 e2 Hm1 Hm2 Hprod) as (a1 & a2 & Ha1 & Ha2 & Ha).
      rewrite Hz2 in Ha2. injection Ha2 as <-.
      rewrite Hmul1, (to_int_trunc oor _ a1 Ha1) by int_lia.
      split; [lia|]. split; [lia | exact Hzc].
Qed.

Lemma chars_ramp (env : Env AnyShaper) (s : RampShaper) (st : State) :
  shaper env = Ramp s ->
  chars env st
    = F64.to_int int_oor (F64.mul (charsPerStep env) (Fraction s (step st))).
Proof. intros Hsh. unfold chars. rewrite Hsh. reflexivity. Qed.

Lemma ramp_chars_le (env : Env AnyShaper) (s : RampShaper) (m : positive) (e : Z) :
  shaper env = Ramp s ->
  normal (charsPerStep env) m e -> -900 <= e <= 10 ->
  Int.in_range (PeakStep s) ->
  forall st1 st2, 0 <= step st1 <= step st2 -> step st2 <= Int.max_int ->
    0 <= chars env st1 <= chars env st2 /\
    chars env st2 <= F64.to_int int_oor (charsPerStep env).
Proof.
  intros Hsh Hcps He Hpeak st1 st2 Hsteps Hmax.
  rewrite !(chars_ramp env s) by exact Hsh.
  destruct (ramp_product_mono int_oor (charsPerStep env) m e
              (Fraction s (step st1)) (Fraction s (step st2)) Hcps He)
    as (H1 & H2 & _).
  - apply ramp_fraction_value; [lia | exact Hpeak].
  - apply ramp_fraction_value; [lia | exact Hpeak].
  - apply ramp_fraction_mono; [exact Hsteps | exact Hmax | exact Hpeak].
  - split; assumption.
Qed.

Lemma ramp_chars_peak (env : Env AnyShaper) (s : RampShaper) (m : positive) (e : Z) :
  shaper env = Ramp s ->
  normal (charsPerStep env) m e -> -900 <= e <= 10 ->
  forall st, PeakStep s <= step st ->
    chars env st = F64.to_int int_oor (charsPerStep env).
Proof.
  intros Hsh Hcps He st Hst. rewrite (chars_ramp env s) by exact Hsh.
  cbn [Fraction Ramp_RateShaper]. unfold RampShaper_Fraction.
  replace (step st <? PeakStep s) with false by lia.
  destruct Hcps as [-> Hm]. rewrite mul_one_r by lia. reflexivity.
Qed.

(** X14.  In ramp mode, with [charsPerStep] a positive number below
    [2^63]: the character count of a step is never negative, never
    falls from one step to a later one, and never exceeds
    [int(charsPerStep)], the integer part of [charsPerStep], which it
    equals from the peak step on. *)
Theorem ramp_chars (env : Env AnyShaper) (s : RampShaper) (m : positive) (e : Z)
    (Hsh : shaper env = Ramp s)
    (Hcps : normal (charsPerStep env) m e) (He : -900 <= e <= 10)
    (Hpeak : Int.in_range (PeakStep s)) :
  F64.trunc (charsPerStep env) = Some (F64.to_int int_oor (charsPerStep env)) /\
  (forall st1 st2, 0 <= step st1 <= step st2 -> step st2 <= Int.max_int ->
     0 <= chars env st1 <= chars env st2 /\
     chars env st2 <= F64.to_int int_oor (charsPerStep env)) /\
  (forall st, PeakStep s <= step st ->
     chars env st = F64.to_int int_oor (charsPerStep env)).
Proof.
  split; [|split].
  - apply (ramp_product_mono int_oor _ m e F64.zero F64.zero Hcps He);
      try (left; reflexivity). reflexivity.
  - exact (ramp_chars_le env s m e Hsh Hcps He Hpeak).
  - exact (ramp_chars_peak env s m e Hsh Hcps He).
Qed.

Lemma trunc_neg x z : F64.trunc x = Some z -> F64.trunc (F64.neg x) = Some (- z).
Proof.
  destruct x as [sx|sx| |sx m e]; cbn [F64.trunc F64.neg SFopp]; try discriminate.
  - intros H. injection H as <-. reflexivity.
  - cbv zeta. intros H. apply (f_equal (option_map Z.opp)) in H.
    cbn [option_map] in H. rewrite <- H.
    destruct sx; cbn [negb]; destruct (0 <=? e); f_equal; lia.
Qed.

Lemma mul_neg_l m e f :
  ramp_value f ->
  F64.mul (S754_finite true m e) f = F64.neg (F64.mul (S754_finite false m e) f).
Proof.
  intros [-> | (mf & ef & -> & _)]; [reflexivity|].
  unfold F64.mul, SFmul. cbn [xorb]. apply (binary_round_aux_opp false).
Qed.

Lemma ramp_value_one : ramp_value F64.one.
Proof.
  right. exists 4503599627370496%positive, (-52). split; [reflexivity|].
  change (Z.pos 4503599627370496) with (2 ^ 52). lia.
Qed.

(** The integer part of [cps * f] for a positive [cps]. *)
Lemma ramp_product_trunc m e f :
  2 ^ 52 <= Z.pos m < 2 ^ 53 -> -900 <= e <= 10 -> ramp_value f ->
  exists z zc,
    F64.trunc (F64.mul (S754_finite false m e) f) = Some z /\
    F64.trunc (S754_finite false m e) = Some zc /\
    0 <= z <= zc /\ zc <= Int.max_int.
Proof.
  intros Hm He Hf.
  destruct (ramp_product (S754_finite false m e) m e f (conj eq_refl Hm) He Hf)
    as (zc & Hzc & Hr & Hcases).
  destruct Hcases as [(_ & Hmul) | (mf & ef & m' & e' & _ & _ & _ & Hmul & Hm' & Hord)].
  - exists 0, zc. rewrite Hmul. split; [reflexivity|]. split; [exact Hzc|]. lia.
  - destruct (trunc_mono m' e' m e Hm' Hm Hord) as (a1 & a2 & Ha1 & Ha2 & Ha).
    rewrite Hzc in Ha2. injection Ha2 as <-.
    exists a1, zc. rewrite Hmul. split; [exact Ha1|]. split; [exact Hzc|]. lia.
Qed.

(** [int(cps * f)] is never above [int(cps)], or zero when that is
    below zero. *)
Lemma moderate_product oor cps f :
  moderate cps -> ramp_value f ->
  Z.max 0 (F64.to_int oor (F64.mul cps f)) <= Z.max 0 (F64.to_int oor cps).
Proof.
  intros Hc Hf. destruct cps as [sc|sc| |sc m e]; cbn [moderate] in Hc; try contradiction.
  - assert (Hz : F64.to_int oor (F64.mul (S754_zero sc) f) = 0).
    { destruct Hf as [-> | (mf & ef & -> & _)]; destruct sc; reflexivity. }
    rewrite Hz. lia.
  - destruct Hc as (Hm & He).
    destruct (ramp_product_trunc m e f Hm He Hf) as (z & zc & Hz & Hzc & Hr & Hmax).
    destruct sc.
    + rewrite (mul_neg_l m e f Hf).
      rewrite (to_int_trunc oor _ (- z) (trunc_neg _ _ Hz)) by int_lia. lia.
    + rewrite (to_int_trunc oor _ z Hz), (to_int_trunc oor _ zc Hzc) by int_lia. lia.
Qed.

Lemma moderate_mul_one cps : moderate cps -> F64.mul cps F64.one = cps.
Proof.
  intros Hc. destruct cps as [sc|sc| |sc m e]; cbn [moderate] in Hc; try contradiction.
  - destruct sc; reflexivity.
  - destruct Hc as (Hm & He). destruct sc.
    + rewrite (mul_neg_l m e F64.one ramp_value_one), mul_one_r by lia. reflexivity.
    + apply mul_one_r; lia.
Qed.

Lemma ramp_chars_capped (env : Env AnyShaper) (s : RampShaper) :
  shaper env = Ramp s -> moderate (charsPerStep env) ->
  Int.in_range (PeakStep s) ->
  forall st, 0 <= step st <= Int.max_int ->
    Z.max 0 (chars env st) <= Z.max 0 (F64.to_int int_oor (charsPerStep env)).
Proof.
  intros Hsh Hcps Hpeak st Hst. rewrite (chars_ramp env s) by exact Hsh.
  apply moderate_product; [exact Hcps|].
  apply ramp_fraction_value; assumption.
Qed.

Lemma ramp_chars_flat (env : Env AnyShaper) (s : RampShaper) :
  shaper env = Ramp s -> moderate (charsPerStep env) ->
  forall st, PeakStep s <= step st ->
    chars env st = F64.to_int int_oor (charsPerStep env).
Proof.
  intros Hsh Hcps st Hst. rewrite (chars_ramp env s) by exact Hsh.
  cbn [Fraction Ramp_RateShaper]. unfold RampShaper_Fraction.
  replace (step st <? PeakStep s) with false by lia.
  rewrite moderate_mul_one by exact Hcps. reflexivity.
Qed.

End RampChars.

Lemma ramp_chars_witness :
  shaper Demo.env_any = Ramp {| PeakStep := 40 |} /\
  normal (charsPerStep Demo.env_any) 4503599627370496 (-47) /\
  0 <= chars (rt := Sample.runtime) (H := Any_RateShaper (rt := Sample.runtime))
             Demo.env_any (Demo.at_step 10)
    <= chars (rt := Sample.runtime) (H := Any_RateShaper (rt := Sample.runtime))
             Demo.env_any (Demo.at_step 30) /\
  chars (rt := Sample.runtime) (H := Any_RateShaper (rt := Sample.runtime))
        Demo.env_any (Demo.at_step 30)
    <= F64.to_int (int_oor (Runtime := Sample.runtime)) (charsPerStep Demo.env_any).
Proof.
  assert (Hn : normal (charsPerStep Demo.env_any) 4503599627370496 (-47)).
  { split; [vm_compute; reflexivity|]. vm_compute. split; [discriminate | reflexivity]. }
  split; [reflexivity|]. split; [exact Hn|].
  apply (proj1 (proj2 (ramp_chars (rt := Sample.runtime) Demo.env_any {| PeakStep := 40 |}
                         4503599627370496 (-47) eq_refl Hn
                         ltac:(lia) ltac:(vm_compute; split; discriminate)))
               (Demo.at_step 10) (Demo.at_step 30)).
  - vm_compute. split; discriminate.
  - vm_compute. discriminate.
Defined.

(* ------------------------------------------------------------------ *)
(** * More of the program: the rate of the output in ramp mode *)

Lemma WriteN_generator fuel : forall ro r w n res r' w',
  WriteN fuel ro r w n = Done (res, r', w') ->
  units r' = units r /\ ints r' = ints r.
Proof.
  induction fuel as [|fuel IH]; intros ro r w n res r' w' H; [discriminate|].
  cbn [WriteN] in H. destruct (0 <? n).
  2:{ injection H as <- <- <-. split; reflexivity. }
  destruct (pickBuffer ro r) as [[buf r1]| |] eqn:Hpick; try discriminate.
  cbn [bind] in H. destruct (pickBuffer_inv _ _ _ _ Hpick) as (-> & _).
  destruct (if n <? len buf then Write w (tail_from buf n) else Write w buf)
    as [[nr [e|]] w1].
  - injection H as <- <- <-. split; reflexivity.
  - apply IH in H. exact H.
Qed.

Section RampRate.

Context {rt : Runtime}.
Variable env : Env AnyShaper.

Lemma sampleSkips_loop_generator fuel : forall r l k p k' r',
  sampleSkips_loop fuel r l k p = Done (k', r') -> units r' = units r.
Proof.
  induction fuel as [|fuel IH]; intros r l k p k' r' H; [discriminate|].
  cbn [sampleSkips_loop Float64] in H.
  destruct (F64.leb (F64.mul p (units r (cursor r))) l).
  - injection H as _ <-. reflexivity.
  - apply IH in H. exact H.
Qed.

Lemma sampleSkips_generator fuel r sk p k r' :
  sampleSkips fuel r sk p = Done (k, r') -> units r' = units r.
Proof.
  unfold sampleSkips. destruct (sk <=? 0).
  - intros H. injection H as _ <-. reflexivity.
  - cbn [Float64]. destruct (F64.geb (units r (cursor r)) p).
    + intros H. injection H as _ <-. reflexivity.
    + intros H. apply sampleSkips_loop_generator in H. exact H.
Qed.

(** A step on a sink that never fails: what is written is nothing, or
    as many bytes as the character count of the step. *)
Lemma step_written fuel st st' :
  pool_ok (out env) -> reliable (stdout st) ->
  iteration env fuel recv_steps st = Done (Continue st') ->
  reliable (stdout st') /\ step st' = Int.add (step st) 1 /\
  units (rng st') = units (rng st) /\
  exists sliceIdx st1 bytes,
    redraw env fuel st = Done (sliceIdx, st1) /\
    skips st' = skips st1 /\
    written (stdout st') = written (stdout st) ++ bytes /\
    len bytes = if active env sliceIdx st1 then Z.max 0 (chars env st) else 0.
Proof.
  intros Hpool Hrel. unfold iteration.
  destruct (redraw env fuel st) as [[sliceIdx st1]| |] eqn:Hre; try discriminate.
  cbn [bind]. destruct (redraw_inv env _ _ _ _ Hre) as (_ & Hstep & Hout & _).
  assert (Hunits : units (rng st1) = units (rng st)).
  { revert Hre. unfold redraw.
    destruct (Int.rem (step st) (opts_sliceLen env)) as [z|]; [|discriminate].
    destruct (z =? 0); [|intros H; injection H as _ <-; reflexivity].
    destruct (sampleSkips fuel (rng st) (opts_skips env) (opts_skipProb env))
      as [[k r']| |] eqn:Hs; try discriminate.
    cbn [bind]. intros H. injection H as _ <-. cbn [rng].
    exact (sampleSkips_generator _ _ _ _ _ _ Hs). }
  assert (Hchars : chars env st1 = chars env st) by (unfold chars; rewrite Hstep; reflexivity).
  unfold on_step. destruct (active env sliceIdx st1) eqn:Hact.
  - destruct (WriteN fuel (out env) (rng st1) (stdout st1) (chars env st1))
      as [[[res r'] w']| |] eqn:Hrun; try discriminate.
    cbn [bind]. intros H. injection H as <-. cbn [step skips rng stdout].
    destruct (WriteN_generator _ _ _ _ _ _ _ _ Hrun) as (Hu & _).
    rewrite Hout in Hrun.
    destruct (WriteN_reliable_inv _ _ _ _ _ _ _ _ Hpool Hrel (to_int_in_range _ _) Hrun)
      as (_ & Hresp & bytes & Hw & Hlen).
    split; [intros h p; rewrite Hresp; apply Hrel|].
    split; [rewrite Hstep; reflexivity|]. split; [congruence|].
    exists sliceIdx, st1, bytes. rewrite <- Hchars, Hact.
    repeat split; assumption.
  - intros H. injection H as <-. cbn [step skips rng stdout].
    rewrite Hout, Hstep. split; [exact Hrel|]. split; [reflexivity|].
    split; [exact Hunits|].
    exists sliceIdx, st1, []. rewrite app_nil_r, Hact. repeat split.
Qed.

(** [WriteN] on a sink that never fails: it ends, and has written [n]
    bytes, or none when [n] is not positive. *)
Lemma WriteN_reliable_total fuel ro r w n :
  pool_ok ro -> reliable w -> Int.in_range n -> (Z.to_nat n < fuel)%nat ->
  exists r' w' bytes,
    WriteN fuel ro r w n = Done (None, r', w') /\
    reliable w' /\ units r' = units r /\
    written w' = written w ++ bytes /\ len bytes = Z.max 0 n.
Proof.
  intros Hpool Hrel Hn Hfuel.
  assert (Hrun : exists res r' w', WriteN fuel ro r w n = Done (res, r', w')).
  { destruct (Z.le_gt_cases n 0) as [Hle | Hpos].
    - destruct fuel as [|fuel']; [lia|]. rewrite WriteN_nonpositive by assumption. eauto.
    - destruct (WriteN_reliable fuel ro r w n Hpool Hrel) as (r2 & w2 & cs & HW & _);
        [int_lia | lia | eauto]. }
  destruct Hrun as (res & r' & w' & HW).
  destruct (WriteN_reliable_inv _ _ _ _ _ _ _ _ Hpool Hrel Hn HW)
    as (-> & Hresp & bytes & Hw & Hlen).
  destruct (WriteN_generator _ _ _ _ _ _ _ _ HW) as (Hu & _).
  exists r', w', bytes. split; [exact HW|].
  split; [intros h p; rewrite Hresp; apply Hrel|].
  split; [exact Hu|]. split; assumption.
Qed.

(** X15.  The peak rate is a bound.  In ramp mode, with [charsPerStep]
    zero or a normal number of magnitude below [2^63], of either sign:
    on a sink that never fails, with a pool [WriteN] can draw from, a
    run of the loop from a step that is not negative writes at most
    [max(0, int(charsPerStep))] bytes for each of its turns, whatever
    the skips and whichever way the [select] goes.  For a rate below
    zero that is nothing at all. *)
Theorem ramp_rate_bound (s : RampShaper)
    (fuel : nat) (cs : list select_case) (st : State) (x : control)
    (Hsh : shaper env = Ramp s)
    (Hcps : moderate (charsPerStep env))
    (Hpeak : Int.in_range (PeakStep s))
    (Hpool : pool_ok (out env)) (Hrel : reliable (stdout st))
    (Hstep : 0 <= step st) (Hmax : step st + len cs <= Int.max_int)
    (Hrun : main_loop env fuel cs st = Done x) :
  exists bytes,
    written (stdout (state_of x)) = written (stdout st) ++ bytes /\
    len bytes <= len cs * Z.max 0 (F64.to_int int_oor (charsPerStep env)).
Proof.
  pose proof (ramp_chars_capped env s Hsh Hcps Hpeak) as Htop.
  set (top := Z.max 0 (F64.to_int int_oor (charsPerStep env))) in *.
  assert (Hpos : 0 <= top) by (unfold top; lia).
  clearbody top.
  revert st Hrel Hstep Hmax Hrun.
  induction cs as [|c cs IH]; intros st Hrel Hstep Hmax Hrun.
  - cbn [main_loop] in Hrun. injection Hrun as <-. exists [].
    rewrite app_nil_r. split; [reflexivity|]. cbn. lia.
  - cbn [main_loop] in Hrun. unfold len in Hmax. cbn [length] in Hmax.
    destruct (iteration env fuel c st) as [y| |] eqn:Hit; try discriminate.
    cbn [bind] in Hrun.
    pose proof (Htop st ltac:(lia)) as Hc.
    destruct (iteration_inv env _ _ _ _ Hit) as (_ & _ & Hy).
    destruct c.
    + destruct Hy as (Hy & _). rewrite Hy in Hrun, Hit.
      destruct (step_written fuel st (state_of y) Hpool Hrel Hit)
        as (Hrel' & Hs' & _ & sliceIdx & st1 & b1 & _ & _ & Hw1 & Hl1).
      assert (Hs'' : step (state_of y) = step st + 1)
        by (rewrite Hs'; apply wrap_id; int_lia).
      destruct (IH (state_of y) Hrel' ltac:(lia) ltac:(unfold len; lia) Hrun)
        as (b2 & Hw2 & Hl2).
      exists (b1 ++ b2). split; [rewrite Hw2, Hw1, app_assoc; reflexivity|].
      rewrite len_app. unfold len in *. cbn [length].
      destruct (active env sliceIdx st1); nia.
    + destruct Hy as (Hy & _ & Hout). rewrite Hy in Hrun. injection Hrun as <-.
      cbn [state_of]. rewrite Hout. exists []. rewrite app_nil_r.
      split; [reflexivity|]. unfold len. cbn [length]. nia.
Qed.

(** X16.  The steady state.  In ramp mode, with [charsPerStep] zero or
    a normal number of magnitude below [2^63], with skip probability
    0.0, a generator whose [Float64] is never below zero, a positive
    slice length, a pool [WriteN] can draw from and a sink that never
    fails: from a state at or past the peak step in which the skip
    count is zero, as it is when the loop starts, every step writes
    exactly [max(0, int(charsPerStep))] bytes, the skip count stays
    zero and the loop runs on. *)
Theorem ramp_steady_rate (s : RampShaper)
    (fuel : nat) (n : nat) (st : State)
    (Hsh : shaper env = Ramp s)
    (Hcps : moderate (charsPerStep env))
    (Hprob : opts_skipProb env = F64.zero)
    (Hdraws : forall i, F64.geb (units (rng st) i) F64.zero = true)
    (Hslice : 0 < opts_sliceLen env <= Int.max_int)
    (Hpool : pool_ok (out env)) (Hrel : reliable (stdout st))
    (Hskips : skips st = 0)
    (Hstep : 0 <= step st) (Hpast : PeakStep s <= step st)
    (Hmax : step st + Z.of_nat n <= Int.max_int)
    (Hfuel : (Z.to_nat (F64.to_int int_oor (charsPerStep env)) < fuel)%nat) :
  exists st' bytes,
    main_loop env fuel (repeat recv_steps n) st = Done (Continue st') /\
    step st' = step st + Z.of_nat n /\
    skips st' = 0 /\
    written (stdout st') = written (stdout st) ++ bytes /\
    len bytes = Z.of_nat n * Z.max 0 (F64.to_int int_oor (charsPerStep env)).
Proof.
  pose proof (ramp_chars_flat env s Hsh Hcps) as Hflat.
  pose proof (to_int_in_range int_oor (charsPerStep env)) as Hrange.
  set (top := F64.to_int int_oor (charsPerStep env)) in *.
  clearbody top.
  revert st Hdraws Hrel Hskips Hstep Hpast Hmax.
  induction n as [|n IH]; intros st Hdraws Hrel Hskips Hstep Hpast Hmax.
  - exists st, []. cbn [repeat main_loop]. rewrite app_nil_r, Z.add_0_r.
    split; [reflexivity|]. split; [reflexivity|]. split; [exact Hskips|].
    split; reflexivity.
  - cbn [repeat main_loop].
    (* the slice index and the draw at a slice boundary *)
    assert (Hre : exists r1,
              redraw env fuel st
              = Done (Z.rem (step st) (opts_sliceLen env),
                      {| step := step st; skips := 0; rng := r1; stdout := stdout st |})
              /\ units r1 = units (rng st)).
    { unfold redraw, Int.rem. replace (opts_sliceLen env =? 0) with false by lia.
      destruct (Z.rem (step st) (opts_sliceLen env) =? 0).
      - unfold sampleSkips. destruct (opts_skips env <=? 0).
        + cbn [bind]. eauto.
        + cbn [Float64]. rewrite Hprob, Hdraws. cbn [bind]. eauto.
      - exists (rng st). split; [|reflexivity]. destruct st; cbn in *. subst. reflexivity. }
    destruct Hre as (r1 & Hre & Hr1).
    set (st1 := {| step := step st; skips := 0; rng := r1; stdout := stdout st |}) in *.
    assert (Hact : active env (Z.rem (step st) (opts_sliceLen env)) st1 = true).
    { unfold active. cbn [skips st1]. unfold Int.sub.
      rewrite Z.sub_0_r, wrap_id by int_lia.
      pose proof (Z.rem_bound_pos (step st) (opts_sliceLen env) Hstep ltac:(lia)). lia. }
    assert (Hchars : chars env st1 = top) by (apply Hflat; exact Hpast).
    destruct (WriteN_reliable_total fuel (out env) r1 (stdout st) top Hpool Hrel Hrange Hfuel)
      as (r' & w' & b1 & Hrun & Hrel' & Hu & Hw1 & Hlen).
    assert (Hon : on_step env fuel (Z.rem (step st) (opts_sliceLen env)) st1
                  = Done {| step := step st; skips := 0; rng := r'; stdout := w' |}).
    { unfold on_step. rewrite Hact, Hchars. cbn [rng stdout st1]. rewrite Hrun. reflexivity. }
    rewrite (iteration_recv_steps env fuel st _ st1 _ Hre Hon). cbn [bind].
    unfold next_step. cbn [step skips rng stdout].
    assert (Hadd : Int.add (step st) 1 = step st + 1) by (apply wrap_id; int_lia).
    rewrite Hadd.
    destruct (IH {| step := step st + 1; skips := 0; rng := r'; stdout := w' |})
      as (st' & b2 & Hloop & Hs' & Hk' & Hw' & Hl'); cbn [step skips rng stdout]; try lia.
    + intros i. rewrite Hu, Hr1. apply Hdraws.
    + exact Hrel'.
    + cbn [step stdout] in Hs', Hw'.
      exists st', (b1 ++ b2).
      split; [exact Hloop|]. split; [lia|]. split; [exact Hk'|].
      split; [rewrite Hw', Hw1, app_assoc; reflexivity|].
      rewrite len_app, Hlen, Hl'. lia.
Qed.

End RampRate.

Lemma ramp_rate_bound_witness :
  exists x bytes,
    main_loop (rt := Sample.runtime) (H := Any_RateShaper (rt := Sample.runtime))
              Demo.env_neg 40 [recv_steps; recv_steps; recv_steps] (Demo.at_step 20)
      = Done x /\
    written (stdout (state_of x)) = written (stdout (Demo.at_step 20)) ++ bytes /\
    len bytes <= 3 * Z.max 0 (F64.to_int (int_oor (Runtime := Sample.runtime))
                                         (charsPerStep Demo.env_neg)).
Proof.
  destruct (main_loop (rt := Sample.runtime) (H := Any_RateShaper (rt := Sample.runtime))
              Demo.env_neg 40 [recv_steps; recv_steps; recv_steps] (Demo.at_step 20))
    as [x| |] eqn:Hrun; try (vm_compute in Hrun; discriminate).
  exists x.
  apply (ramp_rate_bound (rt := Sample.runtime) Demo.env_neg {| PeakStep := 40 |}
           40 [recv_steps; recv_steps; recv_steps]
           (Demo.at_step 20) x eq_refl) in Hrun.
  - destruct Hrun as (bytes & Hw & Hl). exists bytes. split; [reflexivity|].
    split; [exact Hw | exact Hl].
  - vm_compute. repeat split; (reflexivity || discriminate).
  - vm_compute. split; discriminate.
  - apply (NewRandomOutput_pool_ok Sample.rand0 32 4 _ Sample.rand1); [|lia].
    vm_compute. reflexivity.
  - intros h p. reflexivity.
  - vm_compute. discriminate.
  - vm_compute. discriminate.
Defined.

Lemma ramp_steady_rate_witness :
  exists st' bytes,
    main_loop (rt := Sample.runtime) (H := Any_RateShaper (rt := Sample.runtime))
              Demo.env_any 40 (repeat recv_steps 3) (Demo.at_step 40)
      = Done (Continue st') /\
    step st' = step (Demo.at_step 40) + Z.of_nat 3 /\
    skips st' = 0 /\
    written (stdout st') = written (stdout (Demo.at_step 40)) ++ bytes /\
    len bytes = Z.of_nat 3 * Z.max 0 (F64.to_int (int_oor (Runtime := Sample.runtime))
                                                 (charsPerStep Demo.env_any)).
Proof.
  apply (ramp_steady_rate (rt := Sample.runtime) Demo.env_any {| PeakStep := 40 |}
           40 3 (Demo.at_step 40) eq_refl).
  - vm_compute. repeat split; (reflexivity || discriminate).
  - reflexivity.
  - intros i. vm_compute. reflexivity.
  - vm_compute. split; [reflexivity | discriminate].
  - apply (NewRandomOutput_pool_ok Sample.rand0 32 4 _ Sample.rand1); [|lia].
    vm_compute. reflexivity.
  - intros h p. reflexivity.
  - reflexivity.
  - vm_compute. discriminate.
  - vm_compute. discriminate.
  - vm_compute. discriminate.
  - vm_compute. lia.
Defined.
